(** * A shallow embedding of the Chord ring implementation

    Sources embedded here: [src/Chord/localNode.go] (the local vnode and its
    RPC handlers), [src/Chord/ring.go] (ring life-cycle, lookup and the event
    generator), [src/Chord/storage.go] (the per-vnode data store and the
    ring invariants) and [src/Chord/defaultTransport.go] (the blackhole
    transport).

    Conventions.
    - A Go [[]byte] is a [list byte]; a Go [string] is a [string]; a Go
      [int] is a [Z] (the arithmetic in scope is on slice indices, slice
      lengths and hop counters, far from the 64-bit range), except for loop
      indices and lengths, which are [nat].
    - A [*Vnode] is an [option Vnode]: [None] is the nil pointer.  A
      [Vnode] is never written after [init], so a handle is modelled by its
      value.
    - A run-time panic (nil dereference, index out of range) is the outcome
      [Panic]; a Go [error] value is an ordinary result.
    - The process-wide random generator, the calls made through the
      transport, the delegate callbacks and the writes to the [fail] channel
      are threaded through a [World]; log lines are not modelled. *)

From Stdlib Require Import Strings.Byte Ascii String ZArith List Permutation Sorted.
From stdpp Require Import base option list gmap strings fin_maps.

Local Open Scope Z_scope.

(** ** Outcomes and errors *)

(** [OutOfFuel] is not a behaviour of the program: it is what a definition
    that bounds a loop by a fuel argument returns when the fuel runs out. *)
Inductive Outcome (A : Type) : Type :=
| Ret (a : A)
| Panic
| OutOfFuel.
Arguments Ret {A} a.
Arguments Panic {A}.
Arguments OutOfFuel {A}.

Definition obind {A B} (o : Outcome A) (f : A -> Outcome B) : Outcome B :=
  match o with
  | Ret a => f a
  | Panic => Panic
  | OutOfFuel => OutOfFuel
  end.

(** The [error] values built in the sources, one constructor per site. *)
Inductive error : Type :=
| ErrKeyNotFound                 (* storage.go: errors.New(global.ERROR_KEY_NOT_FOUND) *)
| ErrNoSuccessor (self : string) (* checkNewSuccessor: "node has no successor" + id *)
| ErrAllSuccessorsDead           (* checkNewSuccessor: "All known successors dead!" *)
| ErrExhausted (self : string) (known : Z) (* FindSuccessors: "Exhausted all preceeding nodes!" *)
| ErrNoSuccessorsFound           (* join: "no successors found" *)
| ErrTooManySuccessors           (* Lookup: "Cannot ask for more successors than NumSuccessors!" *)
| ErrBlackhole (target : string) (* defaultTransport.go: "Failed to connect! Blackhole: ..." *)
| ErrTransport (msg : string).   (* any other transport failure *)

(** ** Identifiers *)

Definition Id := list byte.

(** [bytes.Compare]: lexicographic order on unsigned bytes. *)
Fixpoint bytes_Compare (a b : list byte) : comparison :=
  match a, b with
  | [], [] => Eq
  | [], _ :: _ => Lt
  | _ :: _, [] => Gt
  | x :: a', y :: b' =>
      match N.compare (Byte.to_N x) (Byte.to_N y) with
      | Eq => bytes_Compare a' b'
      | c => c
      end
  end.

(** [bytes.Equal] *)
Definition bytes_Equal (a b : list byte) : bool :=
  match bytes_Compare a b with Eq => true | _ => false end.

(** ** Vnode handles (localNode.go, [type Vnode]) *)

Record Vnode : Type := mkVnode {
  Num : Z;
  VId : Id;
  Host : string
}.

Definition hex_digit (n : N) : ascii :=
  match n with
  | 0 => "0" | 1 => "1" | 2 => "2" | 3 => "3" | 4 => "4" | 5 => "5"
  | 6 => "6" | 7 => "7" | 8 => "8" | 9 => "9" | 10 => "a" | 11 => "b"
  | 12 => "c" | 13 => "d" | 14 => "e" | _ => "f"
  end%N%char.

(** [fmt.Sprintf("%x", id)]: two lower-case hexadecimal digits per byte. *)
Fixpoint hex (bs : list byte) : string :=
  match bs with
  | [] => EmptyString
  | b :: bs' =>
      String (hex_digit (Byte.to_N b / 16))
        (String (hex_digit (Byte.to_N b mod 16)) (hex bs'))
  end.

(** [func (vn *Vnode) String() string]; the receiver is dereferenced, so a
    nil receiver panics. *)
Definition Vnode_String (vn : option Vnode) : Outcome string :=
  match vn with
  | None => Panic
  | Some v => Ret (hex (VId v))
  end.

(** ** Storage (storage.go, [dataStore]) *)

Module Storage.

(** The [data] field; the [Hash] field is never read by the three
    methods. *)
Record dataStore : Type := mkDataStore {
  data : gmap string string
}.

Definition NewDataStore : dataStore := {| data := ∅ |}.

(** [[]byte(val)] *)
Definition bytes_of (s : string) : list byte := list_byte_of_string s.

Definition Get (d : dataStore) (key : string) : list byte + error :=
  match data d !! key with
  | None => inr ErrKeyNotFound
  | Some val => inl (bytes_of val)
  end.

(** [Set] and [Delete] mutate the map in place and return a nil error:
    the result is the new store and [None]. *)
Definition Set_ (d : dataStore) (key value : string) : dataStore * option error :=
  ({| data := <[key := value]> (data d) |}, None).

Definition Delete (d : dataStore) (key : string) : dataStore * option error :=
  ({| data := delete key (data d) |}, None).

End Storage.

(** ** Local vnodes, configuration and ring (localNode.go, ring.go) *)

(** [type localVnode]; the [ring] back pointer is replaced by passing the
    ring to the methods, and the [stabilized] time stamp and the [timer] are
    left out. *)
Record localVnode : Type := mkLocalVnode {
  self : Vnode;
  successors : list (option Vnode);
  finger : list (option Vnode);
  last_finger : Z;
  predecessor : option Vnode;
  DataStore : Storage.dataStore;
  Shutdown : bool
}.

Definition set_successors (vn : localVnode) (l : list (option Vnode)) : localVnode :=
  mkLocalVnode (self vn) l (finger vn) (last_finger vn) (predecessor vn)
    (DataStore vn) (Shutdown vn).

Definition set_predecessor (vn : localVnode) (p : option Vnode) : localVnode :=
  mkLocalVnode (self vn) (successors vn) (finger vn) (last_finger vn) p
    (DataStore vn) (Shutdown vn).

(** Events a run leaves in the world. *)
Inductive DelegateCall : Type :=
| DNewPredecessor (local : Vnode) (remoteNew remotePrev : option Vnode)
| DSuccessorLeaving (local : Vnode) (remote : option Vnode).

Inductive Event : Type :=
| EvRand (bound : Z)                                  (* rand.Intn(bound) *)
| EvRegister (v : Vnode)                              (* transport.Register *)
| EvPing (target : option Vnode)                      (* transport.Ping *)
| EvGetPredecessor (target : option Vnode)            (* transport.GetPredecessor *)
| EvFindSuccessors (target : option Vnode) (n : Z) (key : Id)
                                                      (* transport.FindSuccessors *)
| EvHandleFindSuccessors (local : Vnode) (n : Z) (key : Id)
                                                      (* localVnode.FindSuccessors entered *)
| EvDelegate (c : DelegateCall)                       (* r.invokeDelegate(...) *)
| EvFail.                                             (* fail <- true *)

(** The world is the trace of events so far; what the random generator and
    the peers answer may depend on it. *)
Definition World := list Event.

(** The [Transport] interface, restricted to the calls made by the embedded
    functions.  Go's [(value, error)] pairs are kept as pairs. *)
Record Transport : Type := mkTransport {
  tr_Ping : World -> option Vnode -> Outcome (bool * option error);
  tr_GetPredecessor : World -> option Vnode -> Outcome (option Vnode * option error);
  tr_FindSuccessors : World -> option Vnode -> Z -> Id ->
                      Outcome (list (option Vnode) * Z * Z * option error)
}.

(** [type Config]; [Delegate] records whether the delegate is non-nil,
    [HashFunc] maps the bytes written to the digest returned by [Sum(nil)]
    and [HashSize] is the digest's [Size()]. *)
Record Config : Type := mkConfig {
  Hostname : string;
  NumVnodes : Z;
  HashFunc : list byte -> list byte;
  HashSize : Z;
  StabilizeMin : Z;
  StabilizeMax : Z;
  NumSuccessors : Z;
  Delegate : bool;
  hashBits : Z
}.

(** [type Ring]; the channels are left out. *)
Record Ring : Type := mkRing {
  config : Config;
  transport : Transport;
  vnodes : list localVnode;
  connectedAppendagesFailed : bool
}.

(** ** The blackhole transport (defaultTransport.go) *)

Definition BlackholeTransport : Transport := {|
  tr_Ping := fun _ _ => Ret (false, None);
  tr_GetPredecessor := fun _ vn =>
    obind (Vnode_String vn) (fun s => Ret (None, Some (ErrBlackhole s)));
  tr_FindSuccessors := fun _ vn _ _ =>
    obind (Vnode_String vn) (fun s => Ret ([], 0, 0, Some (ErrBlackhole s)))
|}.

(** ** The effect monad *)

Definition M (A : Type) : Type := World -> Outcome (A * World).

Definition mret {A} (a : A) : M A := fun w => Ret (a, w).

Definition mbind' {A B} (m : M A) (f : A -> M B) : M B :=
  fun w => match m w with
           | Ret (a, w') => f a w'
           | Panic => Panic
           | OutOfFuel => OutOfFuel
           end.

Notation "'let*' x := m 'in' k" := (mbind' m (fun x => k))
  (at level 10, x name, m at level 200, k at level 200, only parsing).
Notation "'do*' m 'in' k" := (mbind' m (fun _ => k))
  (at level 10, m at level 200, k at level 200, only parsing).

Definition lift {A} (o : Outcome A) : M A :=
  fun w => match o with
           | Ret a => Ret (a, w)
           | Panic => Panic
           | OutOfFuel => OutOfFuel
           end.

Definition emit (e : Event) : M unit := fun w => Ret (tt, w ++ [e]).

(** A call answered by the environment: the answer is computed from the
    trace before the call, and the call is recorded. *)
Definition call {A} (e : Event) (answer : World -> Outcome A) : M A :=
  fun w => match answer w with
           | Ret a => Ret (a, w ++ [e])
           | Panic => Panic
           | OutOfFuel => OutOfFuel
           end.

(** ** Slices *)

(** [s[i]] *)
Definition slot {A} (s : list A) (i : nat) : Outcome A :=
  match s !! i with
  | Some x => Ret x
  | None => Panic
  end.

(** [s[i] = x] *)
Definition store {A} (s : list A) (i : nat) (x : A) : Outcome (list A) :=
  if (i <? length s)%nat then Ret (<[i := x]> s) else Panic.

(** [s[:n]] for a slice whose capacity is its length (every slice made by
    [make] with one size argument and never appended to). *)
Definition slice_to {A} (s : list A) (n : Z) : Outcome (list A) :=
  if (0 <=? n) && (n <=? Z.of_nat (length s)) then Ret (take (Z.to_nat n) s)
  else Panic.

(** The built-in [copy(dst, src)]: the first [min(len(dst), len(src))]
    elements of [dst] are overwritten; overlapping arguments behave as if
    [src] were read first. *)
Definition copy {A} (dst src : list A) : list A :=
  take (length dst) src ++ drop (length src) dst.

(** ** The protocol (localNode.go) *)

Section Protocol.

(** Code of the repository that is not among the sources, taken as
    parameters: [global.Between] and [global.BetweenRightIncl] on
    identifiers, the candidates that [closestPreceedingVnodeIterator] yields
    for a vnode and a key (in the order of its [Next] calls, up to the first
    nil), and the value the random generator holds next. *)
Variable Between : Id -> Id -> Id -> bool.
Variable BetweenRightIncl : Id -> Id -> Id -> bool.
Variable closestPreceeding : localVnode -> Id -> list Vnode.
Variable randSource : World -> Z.

(** [rand.Intn(n)]: panics for [n <= 0], otherwise a value in [[0, n)]. *)
Definition Intn (n : Z) : M Z :=
  fun w => if n <=? 0 then Panic else Ret (randSource w mod n, w ++ [EvRand n]).

(** [r.invokeDelegate(f)]: nothing happens without a delegate. *)
Definition invokeDelegate (r : Ring) (c : DelegateCall) : M unit :=
  if Delegate (config r) then emit (EvDelegate c) else mret tt.

(** *** knownSuccessors *)

(** The loop of [knownSuccessors]: [i] is the index of the head of [l] and
    [acc] the value of the named result so far. *)
Fixpoint knownSuccessors_from (l : list (option Vnode)) (i acc : nat) : nat :=
  match l with
  | [] => acc
  | s :: l' =>
      knownSuccessors_from l' (S i)
        (match s with Some _ => S i | None => acc end)
  end.

Definition knownSuccessors (vn : localVnode) : nat :=
  knownSuccessors_from (successors vn) 0 0.

(** *** checkNewSuccessor *)

(** How the [for] loop over the successor list is left. *)
Inductive walkExit : Type :=
| FoundLive   (* goto CHECK_NEW_SUC *)
| AllDead     (* return "All known successors dead!" *)
| LoopEnd.    (* the loop condition failed *)

(** The loop [for i := 0; i < known; i++], entered at index [i] with
    [todo] iterations left. *)
Fixpoint successorWalk (r : Ring) (known todo i : nat) (vn : localVnode)
  : M (localVnode * walkExit) :=
  match todo with
  | O => mret (vn, LoopEnd)
  | S todo' =>
      let* s0 := lift (slot (successors vn) 0) in
      let* p := call (EvPing s0) (fun w => tr_Ping (transport r) w s0) in
      if negb (fst p) then
        if (i + 1 =? known)%nat then mret (vn, AllDead)
        else
          let shifted := copy (successors vn) (drop 1 (successors vn)) in
          let* cleared := lift (store shifted (known - 1 - i) None) in
          successorWalk r known todo' (S i) (set_successors vn cleared)
      else mret (vn, FoundLive)
  end.

(** [checkNewSuccessor]; [fuel] bounds the number of passes through the
    label [CHECK_NEW_SUC]. *)
Fixpoint checkNewSuccessor (fuel : nat) (r : Ring) (vn : localVnode)
  : M (localVnode * option error) :=
  match fuel with
  | O => fun _ => OutOfFuel
  | S fuel' =>
      let* succ := lift (slot (successors vn) 0) in
      match succ with
      | None =>
          do* (match predecessor vn with
               | None => emit EvFail
               | Some _ => mret tt
               end) in
          mret (vn, Some (ErrNoSuccessor (hex (VId (self vn)))))
      | Some s =>
          let* gp := call (EvGetPredecessor succ)
                       (fun w => tr_GetPredecessor (transport r) w succ) in
          match snd gp with
          | Some err =>
              let known := knownSuccessors vn in
              if (1 <? known)%nat then
                let* wr := successorWalk r known known 0 vn in
                match snd wr with
                | FoundLive => checkNewSuccessor fuel' r (fst wr)
                | AllDead => mret (fst wr, Some ErrAllSuccessorsDead)
                | LoopEnd => mret (fst wr, Some err)
                end
              else mret (vn, Some err)
          | None =>
              match fst gp with
              | Some maybe_suc =>
                  if Between (VId (self vn)) (VId s) (VId maybe_suc) then
                    let* l := lift (store (successors vn) 0 (Some maybe_suc)) in
                    let vn1 := set_successors vn l in
                    let n := NumSuccessors (config r) - 1 in
                    let* fs := call (EvFindSuccessors (Some maybe_suc) n (VId maybe_suc))
                                 (fun w => tr_FindSuccessors (transport r) w
                                             (Some maybe_suc) n (VId maybe_suc)) in
                    match snd fs with
                    | Some err => mret (vn1, Some err)
                    | None =>
                        let* src := lift (slice_to (fst (fst (fst fs))) n) in
                        mret (set_successors vn1
                                (take 1 (successors vn1) ++
                                 copy (drop 1 (successors vn1)) src), None)
                    end
                  else mret (vn, None)
              | None => mret (vn, None)
              end
          end
      end
  end.

(** *** Notify (RPC handler) *)

Definition Notify (r : Ring) (vn : localVnode) (maybe_pred : option Vnode)
  : M (localVnode * (list (option Vnode) * option error)) :=
  let* adopt := match predecessor vn with
                | None => mret true
                | Some p =>
                    match maybe_pred with
                    | None => lift Panic
                    | Some mp => mret (Between (VId p) (VId (self vn)) (VId mp))
                    end
                end in
  let* vn' := (if adopt : bool then
                 do* invokeDelegate r
                       (DNewPredecessor (self vn) maybe_pred (predecessor vn)) in
                 mret (set_predecessor vn maybe_pred)
               else mret vn) in
  mret (vn', (successors vn', None)).

(** *** FindSuccessors (RPC handler) *)

(** [return vn.successors[:n], 1, rand.Intn(3) + NumSuccessors - 3, nil] *)
Definition answerFromSuccessors (r : Ring) (vn : localVnode) (n : Z)
  : M (list (option Vnode) * Z * Z * option error) :=
  let* res := lift (slice_to (successors vn) n) in
  let* x := Intn 3 in
  mret (res, 1, x + NumSuccessors (config r) - 3, None).

(** The loop over the closest preceding candidates: the first peer that
    answers without error ends the search. *)
Fixpoint tryPreceeding (r : Ring) (n : Z) (key : Id) (cands : list Vnode)
  : M (option (list (option Vnode) * Z * Z)) :=
  match cands with
  | [] => mret None
  | closest :: rest =>
      let* a := call (EvFindSuccessors (Some closest) n key)
                  (fun w => tr_FindSuccessors (transport r) w (Some closest) n key) in
      match snd a with
      | None =>
          let res := fst (fst (fst a)) in
          let val := snd (fst (fst a)) in
          let* x := Intn 3 in
          mret (Some (res, 1 + val,
                      (1 + val) * (x + NumSuccessors (config r) - 3)))
      | Some _ => tryPreceeding r n key rest
      end
  end.

(** The loop [for i := 1; i <= successors-n; i++] over the vnode's own
    successor list, entered at index [i] with [todo] iterations left. *)
Fixpoint scanSuccessors (vn : localVnode) (n : Z) (key : Id) (todo i : nat)
  : Outcome (option (list (option Vnode))) :=
  match todo with
  | O => Ret None
  | S todo' =>
      obind (slot (successors vn) i) (fun si =>
      match si with
      | None => Panic
      | Some s =>
          if BetweenRightIncl (VId (self vn)) (VId s) key then
            let remain := drop i (successors vn) in
            if Z.of_nat (length remain) >? n
            then obind (slice_to remain n) (fun cut => Ret (Some cut))
            else Ret (Some remain)
          else scanSuccessors vn n key todo' (S i)
      end)
  end.

Definition FindSuccessors (r : Ring) (vn : localVnode) (n : Z) (key : Id)
  : M (list (option Vnode) * Z * Z * option error) :=
  do* emit (EvHandleFindSuccessors (self vn) n key) in
  let* first := (if bytes_Equal key (VId (self vn)) then mret true
                 else let* s0 := lift (slot (successors vn) 0) in
                      mret (match s0 with None => true | Some _ => false end)) in
  if first : bool then answerFromSuccessors r vn n
  else
    let* s0 := lift (slot (successors vn) 0) in
    if match s0 with
       | Some s => BetweenRightIncl (VId (self vn)) (VId s) key
       | None => false
       end
    then answerFromSuccessors r vn n
    else
      let* found := tryPreceeding r n key (closestPreceeding vn key) in
      match found with
      | Some (res, jumps, lookups) => mret (res, jumps, lookups, None)
      | None =>
          let known := knownSuccessors vn in
          let* scanned := lift (scanSuccessors vn n key
                                  (Z.to_nat (Z.of_nat known - n)) 1) in
          match scanned with
          | Some remain => mret (remain, 1, 0, None)
          | None =>
              mret ([], 0, 0,
                    Some (ErrExhausted (hex (VId (self vn))) (Z.of_nat known)))
          end
      end.

(** *** join and joinNew *)

(** [join]: the seed's handler is called directly, not through the
    transport.  The result is the joining vnode and Go's pair of a handle and an error. *)
Definition join (r : Ring) (vn node : localVnode)
  : M (localVnode * (option Vnode * option error)) :=
  let* a := FindSuccessors r node 1 (VId (self vn)) in
  match snd a with
  | Some err => mret (vn, (None, Some err))
  | None =>
      let found := fst (fst (fst a)) in
      let* s0 := lift (slot found 0) in
      let* l := lift (store (successors vn) 0 s0) in
      let vn' := set_successors vn l in
      match s0 with
      | Some _ => mret (vn', (s0, None))
      | None => mret (vn', (None, Some ErrNoSuccessorsFound))
      end
  end.

(** The loop [for i := range successors { vn.successors[i] = successors[i] }],
    entered at index [i]. *)
Fixpoint assignFrom (dst : list (option Vnode)) (i : nat) (src : list (option Vnode))
  : Outcome (list (option Vnode)) :=
  match src with
  | [] => Ret dst
  | s :: src' => obind (store dst i s) (fun dst' => assignFrom dst' (S i) src')
  end.

(** [joinNew]; the log line reads [successors[0].Num], which panics on an
    empty answer and on a nil first entry. *)
Definition joinNew (r : Ring) (vn node : localVnode)
  : M (localVnode * (option Vnode * option error)) :=
  let* a := FindSuccessors r node (NumSuccessors (config r)) (VId (self vn)) in
  match snd a with
  | Some err => mret (vn, (None, Some err))
  | None =>
      let found := fst (fst (fst a)) in
      let* l := lift (assignFrom (successors vn) 0 found) in
      let* s0 := lift (slot found 0) in
      match s0 with
      | None => lift Panic
      | Some _ => mret (set_successors vn l, (s0, None))
      end
  end.

(** *** SkipSuccessor (RPC handler) *)

Definition SkipSuccessor (r : Ring) (vn : localVnode) (s : option Vnode)
  : M (localVnode * option error) :=
  let* head := lift (slot (successors vn) 0) in
  let* a := lift (Vnode_String head) in
  let* b := lift (Vnode_String s) in
  if String.eqb a b then
    do* invokeDelegate r (DSuccessorLeaving (self vn) head) in
    let known := knownSuccessors vn in
    let shifted := copy (successors vn) (drop 1 (successors vn)) in
    match known with
    | O => lift Panic
    | S k =>
        let* cleared := lift (store shifted k None) in
        mret (set_successors vn cleared, None)
    end
  else mret (vn, None).

(** ** The ring (ring.go) *)

(** [binary.Write(hash, binary.BigEndian, idx)] for a [uint16]. *)
Definition bigEndian16 (idx : Z) : list byte :=
  match Byte.of_N (Z.to_N ((idx mod 65536) / 256)),
        Byte.of_N (Z.to_N (idx mod 256)) with
  | Some hi, Some lo => [hi; lo]
  | _, _ => []
  end.

(** [genId(uint16(idx))] *)
Definition genId (conf : Config) (idx : Z) : Id :=
  HashFunc conf (list_byte_of_string (Hostname conf) ++ bigEndian16 idx).

(** [make([]T, n)]: panics for a negative size. *)
Definition make {A} (n : Z) (zero : A) : Outcome (list A) :=
  if n <? 0 then Panic else Ret (replicate (Z.to_nat n) zero).

(** [vn.init(idx)] *)
Definition init (conf : Config) (idx : Z) : M localVnode :=
  let v := {| Num := idx; VId := genId conf idx; Host := Hostname conf |} in
  let* succs := lift (make (NumSuccessors conf) None) in
  let* fingers := lift (make (hashBits conf) None) in
  do* emit (EvRegister v) in
  mret {| self := v; successors := succs; finger := fingers; last_finger := 0;
          predecessor := None; DataStore := Storage.NewDataStore;
          Shutdown := false |}.

(** [Less] of the [sort.Interface] instance. *)
Definition Less (a b : localVnode) : bool :=
  match bytes_Compare (VId (self a)) (VId (self b)) with
  | Lt => true
  | _ => false
  end.

(** [sort.Sort(r)].  The library sort is not stable; for vnodes with
    pairwise distinct identifiers its result is the one ascending
    arrangement, which this insertion sort computes. *)
Fixpoint insertVnode (x : localVnode) (l : list localVnode) : list localVnode :=
  match l with
  | [] => [x]
  | y :: l' => if Less y x then y :: insertVnode x l' else x :: l
  end.

Definition sortVnodes (l : list localVnode) : list localVnode :=
  foldr insertVnode [] l.

(** The loop of [Ring.init] creating vnodes [idx], [idx+1], ... *)
Fixpoint initVnodes (conf : Config) (count : nat) (idx : Z) : M (list localVnode) :=
  match count with
  | O => mret []
  | S count' =>
      let* vn := init conf idx in
      let* rest := initVnodes conf count' (idx + 1) in
      mret (vn :: rest)
  end.

(** [r.init(conf, trans)] *)
Definition Ring_init (conf : Config) (trans : Transport) : M Ring :=
  do* lift (make (NumVnodes conf) tt) in
  let* vns := initVnodes conf (Z.to_nat (NumVnodes conf)) 0 in
  mret {| config := conf; transport := trans; vnodes := sortVnodes vns;
          connectedAppendagesFailed := false |}.

(** The inner loop of [setLocalSuccessors] for the vnode at index [idx]:
    [vnode.successors[i] = &r.vnodes[(idx+i+1)%numV].Vnode]. *)
Fixpoint fillSuccessors (all : list localVnode) (idx : nat) (todo i : nat)
    (succs : list (option Vnode)) : Outcome (list (option Vnode)) :=
  match todo with
  | O => Ret succs
  | S todo' =>
      obind (slot all ((idx + i + 1) mod length all)) (fun target =>
      obind (store succs i (Some (self target))) (fun succs' =>
      fillSuccessors all idx todo' (S i) succs'))
  end.

(** The outer loop, entered at index [idx] with [rest] still to visit. *)
Fixpoint setLocalSuccessors_from (all : list localVnode) (numSuc : nat)
    (idx : nat) (rest : list localVnode) : Outcome (list localVnode) :=
  match rest with
  | [] => Ret []
  | vnode :: rest' =>
      obind (fillSuccessors all idx numSuc 0 (successors vnode)) (fun succs =>
      obind (setLocalSuccessors_from all numSuc (S idx) rest') (fun done =>
      Ret (set_successors vnode succs :: done)))
  end.

(** [r.setLocalSuccessors()]; [global.Min] is the minimum of two ints. *)
Definition setLocalSuccessors (r : Ring) : Outcome Ring :=
  let numV := Z.of_nat (length (vnodes r)) in
  let numSuc := Z.min (NumSuccessors (config r)) (numV - 1) in
  obind (setLocalSuccessors_from (vnodes r) (Z.to_nat numSuc) 0 (vnodes r))
    (fun vns => Ret (mkRing (config r) (transport r) vns
                       (connectedAppendagesFailed r))).

(** [Create(conf, trans)], up to the start of the timers. *)
Definition Create (conf : Config) (trans : Transport) : M Ring :=
  let conf' := mkConfig (Hostname conf) (NumVnodes conf) (HashFunc conf)
                 (HashSize conf) (StabilizeMin conf) (StabilizeMax conf)
                 (NumSuccessors conf) (Delegate conf) (HashSize conf * 8) in
  let* ring := Ring_init conf' trans in
  lift (setLocalSuccessors ring).

(** [r.nearestVnode(key)]: backward scan, entered with the vnodes below
    the current index in reverse order. *)
Fixpoint nearestVnode_scan (rev_vnodes : list localVnode) (key : Id)
  : option localVnode :=
  match rev_vnodes with
  | [] => None
  | vn :: rest =>
      match bytes_Compare (VId (self vn)) key with
      | Lt => Some vn
      | _ => nearestVnode_scan rest key
      end
  end.

Definition nearestVnode (r : Ring) (key : Id) : Outcome localVnode :=
  match nearestVnode_scan (rev (vnodes r)) key with
  | Some vn => Ret vn
  | None => slot (rev (vnodes r)) 0
  end.

(** The loop [for successors[len(successors)-1] == nil] of [Lookup], on
    the reversed slice. *)
Fixpoint trimNils_rev (rev_succs : list (option Vnode)) : Outcome (list (option Vnode)) :=
  match rev_succs with
  | [] => Panic
  | None :: rest => trimNils_rev rest
  | Some _ :: _ => Ret rev_succs
  end.

Definition trimNils (succs : list (option Vnode)) : Outcome (list (option Vnode)) :=
  obind (trimNils_rev (rev succs)) (fun l => Ret (rev l)).

(** [r.Lookup(n, key)] *)
Definition Lookup (r : Ring) (n : Z) (key : list byte)
  : M (list (option Vnode) * option error) :=
  if n >? NumSuccessors (config r) then mret ([], Some ErrTooManySuccessors)
  else
    let key_hash := HashFunc (config r) key in
    let* nearest := lift (nearestVnode r key_hash) in
    let* a := FindSuccessors r nearest n key_hash in
    match snd a with
    | Some err => mret ([], Some err)
    | None =>
        let* trimmed := lift (trimNils (fst (fst (fst a)))) in
        mret (trimmed, None)
    end.

(** *** The event generator *)

(** The branch taken by [generateEvents] for a draw [val]. *)
Definition eventOf (val : Z) : string :=
  if val <? 7 then "join"
  else if val <? 10 then "leave"
  else "fail".

(** [r.generateEvents(num)] *)
Fixpoint generateEvents_loop (todo : nat) (events : list string) : M (list string) :=
  match todo with
  | O => mret events
  | S todo' =>
      let* val := Intn 10 in
      generateEvents_loop todo' (events ++ [eventOf val])
  end.

Definition generateEvents (num : Z) : M (list string) :=
  generateEvents_loop (Z.to_nat num) [].

End Protocol.

(** ** The ring invariants (storage.go) *)

(** [vnode.Vnode.String()] for a local vnode. *)
Definition idString (vn : localVnode) : string := hex (VId (self vn)).

(** [succMap]: later vnodes overwrite earlier ones with the same key. *)
Definition succMapOf (vns : list localVnode) : gmap string localVnode :=
  foldl (fun m vn => <[idString vn := vn]> m) ∅ vns.

Definition ringListOf (vns : list localVnode) : list string :=
  map idString vns.

(** One step along [successor[0]]: [succMap[node.String()]] is nil for an
    id that is not a key, otherwise the next node is that vnode's
    [successors[0]]. *)
Definition nextHop (succMap : gmap string localVnode) (v : Vnode)
  : Outcome (option Vnode) :=
  match succMap !! hex (VId v) with
  | None => Ret None
  | Some lv => slot (successors lv) 0
  end.

(** The [for] loop shared by [atmostOneRing] and [orderedRing]: the ids
    appended to [succList] from [node] on, with [todo] = [len(ringList) -
    count] iterations allowed.  A node that is not in [succMap] is recorded
    and ends the walk. *)
Fixpoint ringWalk (succMap : gmap string localVnode) (first : string)
    (todo : nat) (node : option Vnode) : Outcome (list string) :=
  match node with
  | None => Ret []
  | Some v =>
      if String.eqb (hex (VId v)) first then Ret []
      else
        match todo with
        | O => Ret []
        | S todo' =>
            obind (nextHop succMap v) (fun next =>
            obind (ringWalk succMap first todo' next) (fun rest =>
            Ret (hex (VId v) :: rest)))
        end
  end.

(** [succList] as built by [atmostOneRing] and [orderedRing]. *)
Definition succListOf (r : Ring) : Outcome (list string) :=
  obind (slot (vnodes r) 0) (fun firstNode =>
  obind (slot (successors firstNode) 0) (fun node =>
  obind (ringWalk (succMapOf (vnodes r)) (idString firstNode)
           (length (ringListOf (vnodes r))) node) (fun walked =>
  Ret (idString firstNode :: walked)))).

(** [atmostOneRing(ring)].  The test [firstNode == nil] never succeeds: a
    nil element of [ring.vnodes] would have stopped the first loop. *)
Definition atmostOneRing (r : Ring) : Outcome bool :=
  obind (succListOf r) (fun succList =>
  if negb (length succList =? length (ringListOf (vnodes r)))%nat
  then Ret false else Ret true).

(** [orderedRing(ring)] *)
Fixpoint sameStrings (a b : list string) : bool :=
  match a, b with
  | [], [] => true
  | x :: a', y :: b' => String.eqb x y && sameStrings a' b'
  | _, _ => false
  end.

Definition orderedRing (r : Ring) : Outcome bool :=
  obind (succListOf r) (fun succList =>
  Ret (if (length (ringListOf (vnodes r)) =? length succList)%nat
       then sameStrings (ringListOf (vnodes r)) succList
       else false)).

(** [connectedAppendages(ring)] *)
Definition connectedAppendages (r : Ring) : bool :=
  let succMap := succMapOf (vnodes r) in
  forallb (fun vn =>
    existsb (fun s =>
      match s with
      | Some v => bool_decide (is_Some (succMap !! hex (VId v)))
      | None => false
      end) (successors vn)) (vnodes r).

(** The inner loop of [atleastOneRing] for one starting vnode. *)
Fixpoint reachesNum (succMap : gmap string localVnode) (firstNum : Z)
    (todo : nat) (node : option Vnode) : Outcome bool :=
  match node, todo with
  | Some v, S todo' =>
      if Num v =? firstNum then Ret true
      else
        obind (nextHop succMap v)
          (fun next => reachesNum succMap firstNum todo' next)
  | _, _ => Ret false
  end.

(** The outer loop of [atleastOneRing]. *)
Fixpoint atleastOneRing_from (succMap : gmap string localVnode) (len : nat)
    (rest : list localVnode) : Outcome bool :=
  match rest with
  | [] => Ret false
  | firstNode :: rest' =>
      obind (slot (successors firstNode) 0) (fun node =>
      obind (reachesNum succMap (Num (self firstNode)) len node) (fun hit =>
      if hit : bool then Ret true else atleastOneRing_from succMap len rest'))
  end.

Definition atleastOneRing (r : Ring) : Outcome bool :=
  atleastOneRing_from (succMapOf (vnodes r)) (length (vnodes r)) (vnodes r).

(** [CheckCorrectnessInvariants(ring)] *)
Definition CheckCorrectnessInvariants (r : Ring) : Outcome bool :=
  if negb (connectedAppendages r) then Ret false
  else
    obind (atleastOneRing r) (fun ok =>
    if negb ok then Ret false
    else
      obind (atmostOneRing r) (fun ok =>
      if negb ok then Ret false
      else
        obind (orderedRing r) (fun ok =>
        if negb ok then Ret false else Ret true))).

(** ** Instances of the parameters *)

Module SpecModel.

(** Modelled from the spec: [global.Between] is not among the sources.
    [between(a, b, x)] is true iff [x] lies strictly in the open arc from
    [a] clockwise to [b]; for [a = b] the arc is the whole circle minus
    [a]. *)
Definition Between (a b x : Id) : bool :=
  match bytes_Compare a b with
  | Lt => match bytes_Compare a x, bytes_Compare x b with
          | Lt, Lt => true
          | _, _ => false
          end
  | _ => match bytes_Compare a x, bytes_Compare x b with
         | Lt, _ => true
         | _, Lt => true
         | _, _ => false
         end
  end.

(** Modelled from the spec: [global.BetweenRightIncl] is not among the
    sources.  Same arc, closed at [b]; for [a = b] every [x] is inside. *)
Definition BetweenRightIncl (a b x : Id) : bool :=
  match bytes_Compare a b with
  | Lt => match bytes_Compare a x, bytes_Compare x b with
          | Lt, (Lt | Eq) => true
          | _, _ => false
          end
  | _ => match bytes_Compare a x, bytes_Compare x b with
         | Lt, _ => true
         | _, (Lt | Eq) => true
         | _, _ => false
         end
  end.

(** Modelled from the spec: [closestPreceedingVnodeIterator] is not among
    the sources.  It yields the non-nil finger entries (from the last slot
    down) and successor entries (from the last slot down) whose id lies
    strictly between the vnode's id and the key; the spec leaves the order
    in which the two streams are merged open, and nothing below depends on
    it. *)
Definition closestPreceeding (vn : localVnode) (key : Id) : list Vnode :=
  let keep := fun c : option Vnode =>
    match c with
    | Some v => if Between (VId (self vn)) key (VId v) then [v] else []
    | None => []
    end in
  flat_map keep (rev (finger vn)) ++ flat_map keep (rev (successors vn)).

(** A random source that always holds zero. *)
Definition randZero : World -> Z := fun _ => 0.

End SpecModel.

(** ** Concrete data used by the examples *)

Module Examples.

Definition vA : Vnode := {| Num := 0; VId := [x01]; Host := "local" |}.
Definition vB : Vnode := {| Num := 1; VId := [x02]; Host := "local" |}.
Definition vC : Vnode := {| Num := 2; VId := [x03]; Host := "local" |}.
Definition vD : Vnode := {| Num := 9; VId := [x0d]; Host := "local" |}.

Definition local (v : Vnode) (succs : list (option Vnode)) : localVnode :=
  {| self := v; successors := succs; finger := []; last_finger := 0;
     predecessor := None; DataStore := Storage.NewDataStore; Shutdown := false |}.

(** A configuration with a one-byte "hash" that keeps the last byte of
    its input. *)
Definition conf (numVnodes numSuccessors : Z) : Config :=
  {| Hostname := "local"; NumVnodes := numVnodes;
     HashFunc := fun bs => drop (length bs - 1) bs; HashSize := 1;
     StabilizeMin := 5; StabilizeMax := 10;
     NumSuccessors := numSuccessors; Delegate := false; hashBits := 8 |}.

Definition ringOf (numSuccessors : Z) (vns : list localVnode) : Ring :=
  {| config := conf (Z.of_nat (length vns)) numSuccessors;
     transport := BlackholeTransport; vnodes := vns;
     connectedAppendagesFailed := false |}.

(** The walk vnode whose second successor slot is nil. *)
Definition walker : localVnode := local vA [Some vB; None; Some vC].

(** A seed [vA] that knows [vC] and [vD], and a joiner [vB]. *)
Definition seed : localVnode := local vA [Some vC; Some vD].
Definition joiner : localVnode := local vB [None; None].
Definition joinRing : Ring := ringOf 2 [seed; local vC [Some vD; Some vA];
                                        local vD [Some vA; Some vC]].

(** A ring of three vnodes in one cycle. *)
Definition cycle3 : Ring :=
  ringOf 2 [local vA [Some vB; Some vC]; local vB [Some vC; Some vA];
            local vC [Some vA; Some vB]].

(** Two vnodes; the first points at [vD], which is not a member. *)
Definition strayRing : Ring :=
  ringOf 2 [local vA [Some vD; None]; local vB [Some vA; None]].

(** Three vnodes; the walk from [vA] runs into the cycle of [vB] and [vC]. *)
Definition tailRing : Ring :=
  ringOf 2 [local vA [Some vB; None]; local vB [Some vC; None];
            local vC [Some vB; None]].

End Examples.

(** ** Vocabulary of the statements *)

(** The condition under which [Notify] assigns the predecessor. *)
Definition shouldAdopt (Between : Id -> Id -> Id -> bool)
    (vn : localVnode) (caller : Vnode) : bool :=
  match predecessor vn with
  | None => true
  | Some p => Between (VId p) (VId (self vn)) (VId caller)
  end.

(** The ring with its transport replaced by the blackhole transport. *)
Definition withBlackhole (r : Ring) : Ring :=
  mkRing (config r) BlackholeTransport (vnodes r) (connectedAppendagesFailed r).

(** The walk of [atmostOneRing] records exactly the live ids, as a set. *)
Definition visitsLiveSet (r : Ring) : Prop :=
  exists succList,
    succListOf r = Ret succList /\
    forall x, x ∈ succList <-> x ∈ ringListOf (vnodes r).

(** A computation only adds events to the world. *)
Definition extends {A} (m : M A) : Prop :=
  forall w a w', m w = Ret (a, w') -> exists t, w' = w ++ t.

(** * Further code of the same files *)

(** Errors built by the functions below for which [error] has no
    constructor. *)
Inductive moreError : Type :=
| OfError (e : error)
| ErrSuccessorDead      (* notifySuccessor: "successor dead" *)
| ErrNoKnownSuccessors  (* fixFingerTable: "no known successors" *)
| ErrNotFound.          (* GetLocalNode: "not found" *)

Definition set_finger (vn : localVnode) (f : list (option Vnode)) : localVnode :=
  mkLocalVnode (self vn) (successors vn) f (last_finger vn) (predecessor vn)
    (DataStore vn) (Shutdown vn).

Definition set_last_finger (vn : localVnode) (k : Z) : localVnode :=
  mkLocalVnode (self vn) (successors vn) (finger vn) k (predecessor vn)
    (DataStore vn) (Shutdown vn).

(** [s[i] = x] for an [int] index. *)
Definition storeZ {A} (s : list A) (i : Z) (x : A) : Outcome (list A) :=
  if i <? 0 then Panic else store s (Z.to_nat i) x.

(** ** More of the ring (ring.go) *)

(** [NearestVnodeToKey(vnodes, key)]: the backward scan of [nearestVnode]
    over handles; reading the id of a nil handle panics. *)
Fixpoint NearestVnodeToKey_scan (rev_vnodes : list (option Vnode)) (key : Id)
  : Outcome (option Vnode) :=
  match rev_vnodes with
  | [] => Ret None
  | None :: _ => Panic
  | Some v :: rest =>
      match bytes_Compare (VId v) key with
      | Lt => Ret (Some v)
      | _ => NearestVnodeToKey_scan rest key
      end
  end.

Definition NearestVnodeToKey (vnodes : list (option Vnode)) (key : Id)
  : Outcome (option Vnode) :=
  obind (NearestVnodeToKey_scan (rev vnodes) key) (fun found =>
  match found with
  | Some v => Ret (Some v)
  | None => slot (rev vnodes) 0
  end).

(** The loop of [GetLocalNode] over the vnodes still to visit. *)
Fixpoint GetLocalNode_scan (rest : list localVnode) (id : Id) : option localVnode :=
  match rest with
  | [] => None
  | node :: rest' =>
      if bytes_Equal (VId (self node)) id then Some node
      else GetLocalNode_scan rest' id
  end.

(** [r.GetLocalNode(vnode)]: [inl] is the vnode found, [inr] the error.
    The handle is dereferenced once per vnode visited. *)
Definition GetLocalNode (r : Ring) (vnode : option Vnode)
  : Outcome (localVnode + moreError) :=
  match vnodes r, vnode with
  | [], _ => Ret (inr ErrNotFound)
  | _ :: _, None => Panic
  | _ :: _, Some v =>
      match GetLocalNode_scan (vnodes r) (VId v) with
      | Some node => Ret (inl node)
      | None => Ret (inr ErrNotFound)
      end
  end.

(** ** More of the local vnode (localNode.go) *)

(** RPC handler [GetPredecessor]. *)
Definition GetPredecessor (vn : localVnode) : option Vnode * option error :=
  (predecessor vn, None).

(** [checkPredecessor] *)
Definition checkPredecessor (r : Ring) (vn : localVnode)
  : M (localVnode * option error) :=
  match predecessor vn with
  | Some _ =>
      let* p := call (EvPing (predecessor vn))
                  (fun w => tr_Ping (transport r) w (predecessor vn)) in
      match snd p with
      | Some err => mret (vn, Some err)
      | None =>
          if negb (fst p) then mret (set_predecessor vn None, None)
          else mret (vn, None)
      end
  | None => mret (vn, None)
  end.

(** The loop of [notifySuccessor] that copies the answer into
    [successors[idx+1]], entered at index [idx] of the answer. *)
Fixpoint adoptSuccessors (selfStr : string) (succs : list (option Vnode))
    (idx : nat) (succ_list : list (option Vnode)) : Outcome (list (option Vnode)) :=
  match succ_list with
  | [] => Ret succs
  | None :: _ => Ret succs
  | Some s :: rest =>
      if String.eqb (hex (VId s)) selfStr then Ret succs
      else obind (store succs (S idx) (Some s)) (fun succs' =>
             adoptSuccessors selfStr succs' (S idx) rest)
  end.

Section Maintenance.

(** Parameters as in the section [Protocol], and two more: [global.PowerOffset],
    which is not among the sources, and what [transport.Notify] answers
    when [notifySuccessor] calls it (that call is the function's only
    effect, so it is written over the answer). *)
Variable BetweenRightIncl : Id -> Id -> Id -> bool.
Variable closestPreceeding : localVnode -> Id -> list Vnode.
Variable randSource : World -> Z.
Variable PowerOffset : Id -> Z -> Z -> Id.
Variable peerNotify : option Vnode -> Vnode ->
                      Outcome (list (option Vnode) * option error).

(** [notifySuccessor] *)
Definition notifySuccessor (r : Ring) (vn : localVnode)
  : Outcome (localVnode * option moreError) :=
  obind (slot (successors vn) 0) (fun succ =>
  match succ with
  | None => Ret (vn, Some ErrSuccessorDead)
  | Some _ =>
      obind (peerNotify succ (self vn)) (fun a =>
      match snd a with
      | Some err => Ret (vn, Some (OfError err))
      | None =>
          let max_succ := NumSuccessors (config r) in
          obind (if Z.of_nat (length (fst a)) >? max_succ - 1
                 then slice_to (fst a) (max_succ - 1)
                 else Ret (fst a)) (fun succ_list =>
          obind (adoptSuccessors (hex (VId (self vn))) (successors vn) 0 succ_list)
            (fun succs => Ret (set_successors vn succs, None)))
      end)
  end).

(** The loop of [fixFingerTable] that extends the finger found to the
    following slots; [todo] bounds the iterations. *)
Fixpoint skipFingers (hb : Z) (node : Vnode) (todo : nat) (vn : localVnode)
  : Outcome localVnode :=
  let next := last_finger vn + 1 in
  if next >=? hb then Ret vn
  else if BetweenRightIncl (VId (self vn)) (VId node)
            (PowerOffset (VId (self vn)) next hb)
  then
    match todo with
    | O => OutOfFuel
    | S todo' =>
        obind (storeZ (finger vn) next (Some node)) (fun f =>
        skipFingers hb node todo' (set_last_finger (set_finger vn f) next))
    end
  else Ret vn.

(** [fixFingerTable]; the vnode calls its own [FindSuccessors]. *)
Definition fixFingerTable (r : Ring) (vn : localVnode)
  : M (localVnode * option moreError) :=
  let hb := hashBits (config r) in
  let offset := PowerOffset (VId (self vn)) (last_finger vn) hb in
  let* a := FindSuccessors BetweenRightIncl closestPreceeding randSource
              r vn 1 offset in
  match fst (fst (fst a)), snd a with
  | [], err => mret (vn, option_map OfError err)
  | _ :: _, Some err => mret (vn, Some (OfError err))
  | node :: _, None =>
      match node with
      | None => mret (vn, Some ErrNoKnownSuccessors)
      | Some nd =>
          let* f := lift (storeZ (finger vn) (last_finger vn) node) in
          let* vn2 := lift (skipFingers hb nd (Z.to_nat (hb - last_finger vn))
                              (set_finger vn f)) in
          mret (set_last_finger vn2
                  (if last_finger vn2 + 1 =? hb then 0 else last_finger vn2 + 1),
                None)
      end
  end.

End Maintenance.

(** ** The query generator (performance.go) *)

Definition letterRunes : list ascii :=
  list_ascii_of_string "abcdefghijklmnopqrstuvwxyzABCDEFGHIJKLMNOPQRSTUVWXYZ".

Section Queries.
Variable randSource : World -> Z.

(** The loop [for i := range b] of [RandStringRunes], entered at index
    [i] with [todo] slots left. *)
Fixpoint RandStringRunes_loop (todo : nat) (b : list ascii) (i : nat)
  : M (list ascii) :=
  match todo with
  | O => mret b
  | S todo' =>
      let* x := Intn randSource (Z.of_nat (length letterRunes)) in
      let* c := lift (slot letterRunes (Z.to_nat x)) in
      let* b' := lift (store b i c) in
      RandStringRunes_loop todo' b' (S i)
  end.

(** [RandStringRunes(n)]; the runes are ASCII letters, so the string has
    one byte per rune. *)
Definition RandStringRunes (n : Z) : M string :=
  let* b := lift (make n "000"%char) in
  let* b' := RandStringRunes_loop (length b) b 0 in
  mret (string_of_list_ascii b').

(** [generateQueries(num)] *)
Fixpoint generateQueries_loop (todo : nat) (queries : list string)
  : M (list string) :=
  match todo with
  | O => mret queries
  | S todo' =>
      let* q := RandStringRunes 8 in
      generateQueries_loop todo' (queries ++ [q])
  end.

Definition generateQueries (num : Z) : M (list string) :=
  generateQueries_loop (Z.to_nat num) [].

End Queries.

(** ** Vocabulary for the further properties *)

(** The vnode [init] builds for index [idx]: nil successors and fingers,
    no predecessor, an empty store. *)
Definition freshVnode (conf : Config) (idx : Z) : localVnode :=
  {| self := {| Num := idx; VId := genId conf idx; Host := Hostname conf |};
     successors := replicate (Z.to_nat (NumSuccessors conf)) None;
     finger := replicate (Z.to_nat (hashBits conf)) None;
     last_finger := 0; predecessor := None;
     DataStore := Storage.NewDataStore; Shutdown := false |}.

(** ** More concrete data *)

Module MoreExamples.
Import Examples.

(** Three vnodes as [init] leaves them, two successor slots each. *)
Definition fresh3 : Ring :=
  ringOf 2 [local vA [None; None]; local vB [None; None]; local vC [None; None]].

(** Modelled from the spec: [global.PowerOffset] is not among the
    sources.  [power_offset(id, k, M)] is [(id + 2^k) mod 2^M] on the
    big-endian number the id spells, returned with the id's length. *)
Definition bytesToN (bs : list byte) : N :=
  foldl (fun acc b => (acc * 256 + Byte.to_N b)%N) 0%N bs.

Fixpoint bytesOfN (len : nat) (n : N) : list byte :=
  match len with
  | O => []
  | S len' =>
      bytesOfN len' (n / 256) ++
      match Byte.of_N (n mod 256) with Some b => [b] | None => [] end
  end.

Definition PowerOffset (id : Id) (k M : Z) : Id :=
  bytesOfN (length id) ((bytesToN id + 2 ^ Z.to_N k) mod 2 ^ Z.to_N M)%N.

(** [vA] with an empty finger table of eight slots, knowing [vB] and [vC]. *)
Definition fingered : localVnode :=
  {| self := vA; successors := [Some vB; Some vC];
     finger := replicate 8 None; last_finger := 0;
     predecessor := None; DataStore := Storage.NewDataStore; Shutdown := false |}.

(** A scripted peer for the examples: [alive] answers the pings, [pred] is
    the predecessor every peer reports (the call fails when it is absent),
    [answer] the successor list every peer returns. *)
Definition scripted (alive : option Vnode -> bool)
    (pred : option (option Vnode)) (answer : list (option Vnode)) : Transport := {|
  tr_Ping := fun _ vn => Ret (alive vn, None);
  tr_GetPredecessor := fun _ _ =>
    match pred with
    | Some p => Ret (p, None)
    | None => Ret (None, Some (ErrTransport "unreachable"))
    end;
  tr_FindSuccessors := fun _ _ _ _ => Ret (answer, 0, 0, None)
|}.

Definition scriptedRing (numSuccessors : Z) (tr : Transport) : Ring :=
  {| config := conf 0 numSuccessors; transport := tr; vnodes := [];
     connectedAppendagesFailed := false |}.

(** Every peer but [vB] answers the ping. *)
Definition allButB (vn : option Vnode) : bool :=
  match vn with
  | Some v => negb (Num v =? 1)
  | None => false
  end.

(** A peer set for the examples in which only the vnodes accepted by [ok]
    answer [FindSuccessors], each with [answer] after two jumps. *)
Definition relay (ok : option Vnode -> bool) (answer : list (option Vnode))
  : Transport := {|
  tr_Ping := fun _ vn => Ret (ok vn, None);
  tr_GetPredecessor := fun _ _ => Ret (None, Some (ErrTransport "unreachable"));
  tr_FindSuccessors := fun _ vn _ _ =>
    if ok vn then Ret (answer, 2, 0, None)
    else Ret ([], 0, 0, Some (ErrTransport "unreachable"))
|}.

End MoreExamples.

(** * Properties *)

(** ** Slices *)

Section SliceLaws.
Context {A : Type}.

Lemma length_copy (dst src : list A) : length (copy dst src) = length dst.
Proof. unfold copy. rewrite length_app, length_take, length_drop. lia. Qed.

Lemma store_in_range (s : list A) (i : nat) (x : A) :
  (i < length s)%nat -> store s i x = Ret (<[i := x]> s).
Proof. intros H. unfold store. by apply Nat.ltb_lt in H as ->. Qed.

Lemma slot_lookup (s : list A) (i : nat) (x : A) :
  s !! i = Some x -> slot s i = Ret x.
Proof. intros H. unfold slot. by rewrite H. Qed.

(** Shifting a slice left over itself keeps its last element twice. *)
Lemma copy_shift (x : A) (l : list A) :
  copy (x :: l) (drop 1 (x :: l)) = l ++ drop (length l) (x :: l).
Proof. unfold copy. simpl. rewrite drop_0. by rewrite take_ge by lia. Qed.

End SliceLaws.

(** ** Storage *)

Section StorageLaws.
Import Storage.

Lemma Get_Set_ d k v : Get (fst (Set_ d k v)) k = inl (bytes_of v).
Proof. unfold Get, Set_; simpl. by rewrite lookup_insert_eq. Qed.

Lemma Get_Delete d k : Get (fst (Delete d k)) k = inr ErrKeyNotFound.
Proof. unfold Get, Delete; simpl. by rewrite lookup_delete_eq. Qed.

Lemma Set__idempotent d k v : fst (Set_ (fst (Set_ d k v)) k v) = fst (Set_ d k v).
Proof. unfold Set_; simpl. by rewrite insert_insert_eq. Qed.

Lemma Delete_idempotent d k : fst (Delete (fst (Delete d k)) k) = fst (Delete d k).
Proof.
  unfold Delete; simpl. f_equal. apply delete_id. apply lookup_delete_eq.
Qed.

(** C8: on one vnode's store, [Get k] right after [Set k v] returns [v];
    [Get k] right after [Delete k] fails with the key-not-found error; [Set]
    and [Delete] always return a nil error; and doing [Set k v] or
    [Delete k] twice leaves the same store as doing it once. *)
Theorem dataStore_get_set_delete (d : dataStore) (k v : string) :
  Get (fst (Set_ d k v)) k = inl (bytes_of v) /\
  Get (fst (Delete d k)) k = inr ErrKeyNotFound /\
  snd (Set_ d k v) = None /\
  snd (Delete d k) = None /\
  fst (Set_ (fst (Set_ d k v)) k v) = fst (Set_ d k v) /\
  fst (Delete (fst (Delete d k)) k) = fst (Delete d k).
Proof.
  split; [apply Get_Set_|].
  split; [apply Get_Delete|].
  split; [reflexivity|].
  split; [reflexivity|].
  split; [apply Set__idempotent | apply Delete_idempotent].
Qed.

End StorageLaws.

(** ** The event generator *)

Section Events.
Variable randSource : World -> Z.

Lemma eventOf_in_range (val : Z) :
  0 <= val < 10 -> eventOf val = "join" \/ eventOf val = "leave".
Proof.
  intros Hval. unfold eventOf.
  destruct (val <? 7) eqn:H7; [by left|].
  destruct (val <? 10) eqn:H10; [by right|]. lia.
Qed.

Lemma Intn_range (n : Z) (w : World) :
  0 < n ->
  exists v, 0 <= v < n /\ Intn randSource n w = Ret (v, w ++ [EvRand n]).
Proof.
  intros Hn. unfold Intn.
  destruct (n <=? 0) eqn:E; [lia|].
  exists (randSource w mod n). split; [|done].
  apply Z.mod_pos_bound. lia.
Qed.

Lemma generateEvents_loop_spec (todo : nat) :
  forall (events : list string) (w : World),
    Forall (fun e => e = "join" \/ e = "leave") events ->
    exists evs w',
      generateEvents_loop randSource todo events w = Ret (evs, w') /\
      Forall (fun e => e = "join" \/ e = "leave") evs /\
      length evs = (length events + todo)%nat.
Proof.
  induction todo as [|todo IH]; intros events w Hev; simpl.
  - exists events, w. split; [done|]. split; [done|lia].
  - destruct (Intn_range 10 w) as (v & Hv & Hdraw); [lia|].
    unfold mbind'. rewrite Hdraw.
    destruct (IH (events ++ [eventOf v]) (w ++ [EvRand 10])) as (evs & w' & Hrun & Hall & Hlen).
    + apply Forall_app. split; [done|].
      constructor; [|constructor]. by apply eventOf_in_range.
    + exists evs, w'. split; [done|]. split; [done|].
      rewrite Hlen, length_app. simpl. lia.
Qed.

(** C3 (the code departs from the claim): the ten equiprobable values of
    the draw [rand.Intn(10)] map seven to "join", three to "leave" and none
    to "fail"; the draw 9, which the stated distribution gives to "fail",
    yields "leave", and no run of the generator ever produces "fail". *)
Theorem generateEvents_distribution :
  map eventOf [0; 1; 2; 3; 4; 5; 6; 7; 8; 9] =
    ["join"; "join"; "join"; "join"; "join"; "join"; "join";
     "leave"; "leave"; "leave"]%string /\
  eventOf 9 = "leave" /\
  forall (num : Z) (w : World),
    exists evs w',
      generateEvents randSource num w = Ret (evs, w') /\
      length evs = Z.to_nat num /\
      ~ In "fail"%string evs.
Proof.
  split; [reflexivity|]. split; [reflexivity|].
  intros num w.
  destruct (generateEvents_loop_spec (Z.to_nat num) [] w) as (evs & w' & Hrun & Hall & Hlen);
    [constructor|].
  exists evs, w'. split; [exact Hrun|]. split; [exact Hlen|].
  intros Hin. rewrite Forall_forall in Hall.
  apply list_elem_of_In in Hin.
  destruct (Hall _ Hin) as [H|H]; discriminate H.
Qed.

End Events.

(** ** The Notify handler *)

Section NotifyLaws.
Variable Between : Id -> Id -> Id -> bool.

(** C6: [Notify] makes the caller the vnode's predecessor exactly when the
    current predecessor is nil or the caller's id is strictly between the
    current predecessor's id and the vnode's id; otherwise the vnode is
    unchanged.  In both cases it returns the vnode's successor list and a
    nil error, and the only event it may leave is the delegate callback of
    an adoption. *)
Theorem Notify_adopts_iff_better (r : Ring) (vn : localVnode) (caller : Vnode)
    (w : World) :
  Notify Between r vn (Some caller) w =
    Ret ((if shouldAdopt Between vn caller
          then set_predecessor vn (Some caller) else vn,
          (successors vn, None)),
         if shouldAdopt Between vn caller && Delegate (config r)
         then w ++ [EvDelegate (DNewPredecessor (self vn) (Some caller) (predecessor vn))]
         else w).
Proof.
  unfold Notify, shouldAdopt, invokeDelegate, mbind', mret, emit.
  destruct (predecessor vn) as [p|] eqn:Hp; simpl.
  - destruct (Between (VId p) (VId (self vn)) (VId caller)); simpl; [|done].
    destruct (Delegate (config r)); simpl; done.
  - destruct (Delegate (config r)); simpl; done.
Qed.

End NotifyLaws.

(** ** Lookup *)

Section LookupLaws.
Variable BetweenRightIncl : Id -> Id -> Id -> bool.
Variable closestPreceeding : localVnode -> Id -> list Vnode.
Variable randSource : World -> Z.

(** C7: [Lookup(n, key)] with [n] above the configured [NumSuccessors]
    returns the configuration error and leaves the world as it was: no
    [FindSuccessors] handler is entered, no transport call is made and no
    random number is drawn.  ([Lookup] has read access only to the ring and
    its vnodes.) *)
Theorem Lookup_rejects_large_n (r : Ring) (n : Z) (key : list byte) (w : World) :
  n > NumSuccessors (config r) ->
  Lookup BetweenRightIncl closestPreceeding randSource r n key w =
    Ret (([], Some ErrTooManySuccessors), w).
Proof.
  intros Hn. unfold Lookup.
  destruct (n >? NumSuccessors (config r)) eqn:E; [reflexivity|].
  rewrite Z.gtb_ltb in E. apply Z.ltb_ge in E. lia.
Qed.

End LookupLaws.

Lemma Lookup_rejects_large_n_witness :
  9 > NumSuccessors (config (Examples.ringOf 8 [Examples.local Examples.vA [None]])) /\
  Lookup SpecModel.BetweenRightIncl SpecModel.closestPreceeding SpecModel.randZero
    (Examples.ringOf 8 [Examples.local Examples.vA [None]]) 9 [x66; x6f; x6f] [] =
    Ret (([], Some ErrTooManySuccessors), []).
Proof.
  split; [simpl; lia|].
  apply Lookup_rejects_large_n. simpl; lia.
Defined.


(** ** The SkipSuccessor handler *)

Section SkipSuccessorLaws.

Lemma knownSuccessors_from_ge (l : list (option Vnode)) :
  forall i acc, (acc <= i)%nat ->
    (acc <= knownSuccessors_from l i acc <= i + length l)%nat.
Proof.
  induction l as [|s l IH]; intros i acc Hacc; simpl; [lia|].
  destruct s as [v|].
  - specialize (IH (S i) (S i) ltac:(lia)). lia.
  - specialize (IH (S i) acc ltac:(lia)). lia.
Qed.

Lemma knownSuccessors_from_mono (l : list (option Vnode)) :
  forall i acc acc', (acc <= acc')%nat ->
    (knownSuccessors_from l i acc <= knownSuccessors_from l i acc')%nat.
Proof.
  induction l as [|s l IH]; intros i acc acc' H; simpl; [lia|].
  destruct s; apply IH; lia.
Qed.

Lemma knownSuccessors_head_bounds (vn : localVnode) (h : Vnode) (tail : list (option Vnode)) :
  successors vn = Some h :: tail ->
  (1 <= knownSuccessors vn <= length (successors vn))%nat.
Proof.
  intros Hs. unfold knownSuccessors. rewrite Hs. simpl.
  pose proof (knownSuccessors_from_ge tail 1 1 ltac:(lia)). lia.
Qed.

(** C10: [SkipSuccessor] reads the head of the successor list before the
    comparison.  On a vnode whose [successors[0]] is nil it panics, whoever
    the departing node is; on a vnode whose [successors[0]] is a handle it
    returns a nil error for every departing handle. *)
Theorem SkipSuccessor_needs_successor (r : Ring) (vn : localVnode) (w : World) :
  (forall (tail : list (option Vnode)) (s : option Vnode),
      SkipSuccessor r (set_successors vn (None :: tail)) s w = Panic) /\
  (forall (h : Vnode) (tail : list (option Vnode)) (s : Vnode),
      exists vn' w',
        SkipSuccessor r (set_successors vn (Some h :: tail)) (Some s) w =
          Ret ((vn', None), w')).
Proof.
  split.
  - intros tail s. reflexivity.
  - intros h tail s.
    unfold SkipSuccessor, mbind', lift, mret, invokeDelegate, emit.
    cbn [successors set_successors slot lookup list_lookup Vnode_String].
    destruct (String.eqb (hex (VId h)) (hex (VId s))); [|eauto].
    pose proof (knownSuccessors_head_bounds
                  (set_successors vn (Some h :: tail)) h tail eq_refl) as Hk.
    simpl in Hk.
    destruct (knownSuccessors (set_successors vn (Some h :: tail))) as [|k] eqn:Ek;
      [lia|].
    rewrite store_in_range by (rewrite length_copy; simpl; lia).
    destruct (Delegate (config r)); simpl; eauto.
Qed.

End SkipSuccessorLaws.

(** ** knownSuccessors *)

Section KnownSuccessorsLaws.

Lemma knownSuccessors_from_app (pre l : list (option Vnode)) :
  forall i acc,
    knownSuccessors_from (pre ++ l) i acc =
    knownSuccessors_from l (i + length pre) (knownSuccessors_from pre i acc).
Proof.
  induction pre as [|s pre IH]; intros i acc; simpl.
  - by rewrite Nat.add_0_r.
  - rewrite IH. f_equal. lia.
Qed.

Lemma knownSuccessors_from_nils (n : nat) :
  forall i acc, knownSuccessors_from (replicate n None) i acc = acc.
Proof. induction n as [|n IH]; intros i acc; simpl; [done|apply IH]. Qed.

Lemma knownSuccessors_from_last (pre : list (option Vnode)) (v : Vnode) (n : nat) :
  knownSuccessors_from (pre ++ Some v :: replicate n None) 0 0 = S (length pre).
Proof.
  rewrite knownSuccessors_from_app. simpl. apply knownSuccessors_from_nils.
Qed.

(** Every successor list is all nil, or has a last non-nil entry. *)
Lemma successors_shape (l : list (option Vnode)) :
  l = replicate (length l) None \/
  exists pre v n, l = pre ++ Some v :: replicate n None.
Proof.
  induction l as [|x l IH] using rev_ind; [by left|].
  destruct x as [v|].
  - right. exists l, v, 0%nat. done.
  - destruct IH as [IH|(pre & v & n & IH)].
    + left. rewrite length_app. simpl.
      rewrite Nat.add_1_r, replicate_S_end. by rewrite <- IH.
    + right. exists pre, v, (S n). rewrite IH at 1.
      rewrite replicate_S_end. by rewrite <- app_assoc.
Qed.

Lemma knownSuccessors_spec (vn : localVnode) :
  (knownSuccessors vn = 0%nat /\ Forall (fun s => s = None) (successors vn)) \/
  (exists k v,
      knownSuccessors vn = S k /\
      successors vn !! k = Some (Some v) /\
      successors vn = take k (successors vn) ++ Some v ::
                        replicate (length (successors vn) - S k) None).
Proof.
  unfold knownSuccessors.
  destruct (successors_shape (successors vn)) as [H|(pre & v & n & H)].
  - left. rewrite H. split; [apply knownSuccessors_from_nils|].
    apply Forall_forall. intros s Hs. by apply elem_of_replicate in Hs as [-> _].
  - right. exists (length pre), v. rewrite H.
    split; [apply knownSuccessors_from_last|].
    split; [by rewrite list_lookup_middle|].
    rewrite take_app_length. do 3 f_equal.
    rewrite length_app. simpl. rewrite length_replicate. lia.
Qed.

(** The element kept twice by a left shift is the last one. *)
Lemma drop_length_cons {A} (x : A) (l : list A) :
  exists z, drop (length l) (x :: l) = [z] /\ last (x :: l) = Some z.
Proof.
  induction l as [|y l _] using rev_ind.
  - exists x. done.
  - exists y. rewrite length_app. simpl.
    rewrite app_comm_cons, last_snoc. split; [|done].
    replace (length l + 1)%nat with (length (x :: l)) by (simpl; lia).
    by rewrite drop_app_length.
Qed.

(** One step of a walk or skip: shift left, then clear the slot that held
    the last known entry. *)
Lemma shift_clear (x : option Vnode) (front : list (option Vnode)) (m : nat) :
  <[length front := None]>
    (copy (x :: front ++ replicate m None)
          (drop 1 (x :: front ++ replicate m None))) =
  front ++ replicate (S m) None.
Proof.
  rewrite copy_shift.
  destruct (drop_length_cons x (front ++ replicate m None)) as (z & -> & Hz).
  destruct m as [|m].
  - simpl. rewrite app_nil_r.
    rewrite insert_app_r_alt by lia. by rewrite Nat.sub_diag.
  - rewrite replicate_S_end in Hz |- *.
    rewrite !app_comm_cons, !app_assoc, last_snoc in Hz.
    injection Hz as <-.
    rewrite <- !app_assoc. rewrite insert_app_r_alt by lia.
    rewrite Nat.sub_diag. f_equal.
    replace (replicate m None ++ [None] ++ [None])
      with (@None Vnode :: replicate m None ++ [None])
      by (by rewrite app_comm_cons, replicate_cons_app, <- app_assoc).
    simpl. f_equal. by rewrite <- replicate_cons_app.
Qed.

End KnownSuccessorsLaws.

(** ** checkNewSuccessor: the walk past dead successors *)

Section SuccessorWalkLaws.
Variable Between : Id -> Id -> Id -> bool.
Variable r : Ring.

Lemma set_successors_same (vn : localVnode) :
  set_successors vn (successors vn) = vn.
Proof. by destruct vn. Qed.

Lemma set_successors_twice (vn : localVnode) (l l' : list (option Vnode)) :
  set_successors (set_successors vn l) l' = set_successors vn l'.
Proof. reflexivity. Qed.

(** When every ping is answered "dead", the walk entered at index [i]
    pings the entries [i], [i+1], ... of the original list up to the last
    known one, nil entries included, and leaves the last known entry at the
    head of an otherwise empty list. *)
Lemma successorWalk_all_dead (known : nat) (l0 : list (option Vnode)) :
  (known <= length l0)%nat ->
  (forall e w, e ∈ take known l0 ->
     exists pe, tr_Ping (transport r) w e = Ret (false, pe)) ->
  forall (todo i : nat) (vn : localVnode) (w : World),
    (i + todo = known)%nat -> (0 < todo)%nat ->
    successors vn =
      drop i (take known l0) ++ replicate (length l0 - known + i) None ->
    successorWalk r known todo i vn w =
      Ret ((set_successors vn
              (drop (known - 1) (take known l0) ++
               replicate (length l0 - 1) None), AllDead),
           w ++ map EvPing (drop i (take known l0))).
Proof.
  intros Hlen Hdead todo.
  induction todo as [|todo IH]; intros i vn w Hi Htodo Hs; [lia|].
  assert (Hi' : (i < length (take known l0))%nat)
    by (rewrite length_take; lia).
  destruct (lookup_lt_is_Some_2 _ _ Hi') as [x Hx].
  pose proof (drop_S _ _ _ Hx) as Hdrop.
  destruct (Hdead x (w) (list_elem_of_lookup_2 _ _ _ Hx)) as [pe Hping].
  cbn [successorWalk]. unfold mbind', lift, call, mret.
  rewrite Hs, Hdrop. cbn [app slot lookup list_lookup].
  rewrite Hping. cbn [fst negb].
  destruct (i + 1 =? known)%nat eqn:Elast.
  - apply Nat.eqb_eq in Elast.
    assert (Hnil : drop (S i) (take known l0) = []).
    { apply drop_ge. rewrite length_take. lia. }
    replace (known - 1)%nat with i by lia.
    rewrite Hdrop, Hnil. simpl.
    replace (length l0 - 1)%nat with (length l0 - known + i)%nat by lia.
    rewrite Hnil in Hdrop. rewrite Hdrop in Hs. simpl in Hs.
    by rewrite <- Hs, set_successors_same.
  - apply Nat.eqb_neq in Elast.
    set (front := drop (S i) (take known l0)).
    assert (Hfront : length front = (known - 1 - i)%nat).
    { unfold front. rewrite length_drop, length_take. lia. }
    rewrite <- Hfront.
    rewrite store_in_range
      by (rewrite length_copy; simpl; rewrite length_app; lia).
    rewrite shift_clear.
    rewrite (IH (S i) _ (w ++ [EvPing x])); [|lia|lia|].
    + cbn [fst snd]. rewrite set_successors_twice.
      by rewrite <- app_assoc.
    + cbn [successors set_successors]. fold front. f_equal.
      f_equal. lia.
Qed.

Lemma take_S_last (l : list (option Vnode)) (k : nat) (x : option Vnode) :
  l !! k = Some x -> drop k (take (S k) l) = [x].
Proof.
  intros Hx. rewrite (take_S_r _ _ _ Hx).
  pose proof (lookup_lt_Some _ _ _ Hx) as Hlt.
  rewrite drop_app_length'; [done|]. rewrite length_take. lia.
Qed.

(** C5: when [GetPredecessor] on [successors[0]] fails and every known
    successor pings dead, [checkNewSuccessor] returns an error and the last
    known successor (the non-nil entry of highest index) is still in the
    list: it is the head of the list the call leaves behind. *)
Theorem checkNewSuccessor_keeps_last_known (fuel : nat) (vn : localVnode)
    (s : Vnode) (maybe_suc : option Vnode) (err : error) (w : World) :
  successors vn !! 0%nat = Some (Some s) ->
  tr_GetPredecessor (transport r) w (Some s) = Ret (maybe_suc, Some err) ->
  (forall e w', e ∈ take (knownSuccessors vn) (successors vn) ->
     exists pe, tr_Ping (transport r) w' e = Ret (false, pe)) ->
  exists (last : Vnode) (e' : error) (w' : World),
    successors vn !! (knownSuccessors vn - 1)%nat = Some (Some last) /\
    checkNewSuccessor Between (S fuel) r vn w =
      Ret ((set_successors vn
              (Some last :: replicate (length (successors vn) - 1) None),
            Some e'), w').
Proof.
  intros Hhead Hgp Hdead.
  destruct (knownSuccessors_spec vn) as [[_ Hall]|(k & last & Hk & Hlast & Hshape)].
  { rewrite Forall_forall in Hall.
    specialize (Hall _ (list_elem_of_lookup_2 _ _ _ Hhead)). discriminate. }
  pose proof (lookup_lt_Some _ _ _ Hlast) as Hklt.
  exists last.
  cbn [checkNewSuccessor]. unfold mbind', lift, call, mret.
  rewrite (slot_lookup _ _ _ Hhead), Hgp. cbn [snd fst].
  rewrite Hk. replace (S k - 1)%nat with k by lia.
  destruct (1 <? S k)%nat eqn:E1.
  - rewrite Hk in Hdead.
    rewrite (successorWalk_all_dead (S k) (successors vn)); [| lia | exact Hdead | lia | lia |].
    + cbn [snd fst]. replace (S k - 1)%nat with k by lia.
      rewrite (take_S_last _ _ _ Hlast). simpl. eauto.
    + rewrite drop_0, Nat.add_0_r, (take_S_r _ _ _ Hlast), <- app_assoc.
      exact Hshape.
  - apply Nat.ltb_ge in E1. assert (k = 0)%nat as -> by lia.
    exists err. eexists. split; [exact Hlast|].
    rewrite take_0 in Hshape. simpl in Hshape.
    by rewrite <- Hshape, set_successors_same.
Qed.

End SuccessorWalkLaws.

Example checkNewSuccessor_walk_example :
  checkNewSuccessor SpecModel.Between 1
    (Examples.ringOf 3 [])
    Examples.walker [] =
  Ret ((Examples.local Examples.vA [Some Examples.vC; None; None],
        Some ErrAllSuccessorsDead),
       [EvGetPredecessor (Some Examples.vB); EvPing (Some Examples.vB);
        EvPing None; EvPing (Some Examples.vC)]).
Proof. reflexivity. Qed.

Lemma checkNewSuccessor_keeps_last_known_witness :
  exists (last : Vnode) (e' : error) (w' : World),
    successors Examples.walker
      !! (knownSuccessors
            Examples.walker - 1)%nat
      = Some (Some last) /\
    checkNewSuccessor SpecModel.Between 1 (Examples.ringOf 3 [])
      Examples.walker [] =
      Ret ((set_successors
              Examples.walker
              (Some last :: replicate 2 None), Some e'), w').
Proof.
  apply (checkNewSuccessor_keeps_last_known SpecModel.Between
           (Examples.ringOf 3 []) 0
           Examples.walker
           Examples.vB None (ErrBlackhole "02") []).
  - reflexivity.
  - reflexivity.
  - intros e w' _. exists None. reflexivity.
Defined.

(** ** The uses of knownSuccessors *)

Section KnownSuccessorsUse.
Variable BetweenRightIncl : Id -> Id -> Id -> bool.

(** C9: [knownSuccessors] is one more than the index of the last non-nil
    entry of the successor list, and zero when every entry is nil.  Nil
    entries below the last non-nil one are counted, so the value is not the
    number of non-nil entries.  The operations that use it go through such
    nil entries: the fallback scan of [FindSuccessors] panics on the first
    one it reaches, the shift of [SkipSuccessor] moves them towards the
    head, and the walk of [checkNewSuccessor] (here against peers that all
    ping dead) pings every slot below the last known one, nil or not. *)
Theorem knownSuccessors_counts_interior_nils (r : Ring) (vn : localVnode) :
  ((knownSuccessors vn = 0%nat /\ Forall (fun s => s = None) (successors vn)) \/
   (exists k v,
       knownSuccessors vn = S k /\
       successors vn !! k = Some (Some v) /\
       successors vn = take k (successors vn) ++ Some v ::
                         replicate (length (successors vn) - S k) None)) /\
  (forall pre v n,
      knownSuccessors (set_successors vn (pre ++ Some v :: replicate n None)) =
        S (length pre)) /\
  (forall a c,
      knownSuccessors (set_successors vn [Some a; None; Some c]) = 3%nat /\
      length (filter is_Some [Some a; None; Some c]) = 2%nat) /\
  (forall pre post n key todo,
      scanSuccessors BetweenRightIncl
        (set_successors vn (pre ++ None :: post)) n key (S todo) (length pre) =
        Panic) /\
  (forall h pre v n w,
      exists w',
        SkipSuccessor r
          (set_successors vn (Some h :: pre ++ Some v :: replicate n None))
          (Some h) w =
        Ret ((set_successors vn (pre ++ Some v :: replicate (S n) None), None), w')) /\
  (forall pre v n w,
      successorWalk (withBlackhole r) (S (length pre)) (S (length pre)) 0
        (set_successors vn (pre ++ Some v :: replicate n None)) w =
      Ret ((set_successors vn (Some v :: replicate (length pre + n) None), AllDead),
           w ++ map EvPing (pre ++ [Some v]))).
Proof.
  split; [apply knownSuccessors_spec|].
  split; [intros; apply knownSuccessors_from_last|].
  split; [intros; split; reflexivity|].
  split; [|split].
  - intros pre post n key todo. simpl.
    unfold slot. by rewrite list_lookup_middle.
  - intros h pre v n w.
    unfold SkipSuccessor, mbind', lift, mret, invokeDelegate, emit.
    cbn [successors set_successors slot lookup list_lookup Vnode_String].
    rewrite String.eqb_refl.
    assert (Hk : knownSuccessors
                   (set_successors vn (Some h :: pre ++ Some v :: replicate n None)) =
                 S (S (length pre))).
    { unfold knownSuccessors. cbn [successors set_successors].
      change (Some h :: pre ++ Some v :: replicate n None)
        with ((Some h :: pre) ++ Some v :: replicate n None).
      by rewrite knownSuccessors_from_last. }
    rewrite Hk.
    rewrite store_in_range
      by (rewrite length_copy; simpl; rewrite length_app; simpl; lia).
    replace (pre ++ Some v :: replicate n None)
      with ((pre ++ [Some v]) ++ replicate n None)
      by (by rewrite <- app_assoc).
    replace (S (length pre)) with (length (pre ++ [Some v]))
      by (rewrite length_app; simpl; lia).
    rewrite shift_clear.
    destruct (Delegate (config r)); simpl; eexists;
      unfold set_successors; simpl; rewrite <- app_assoc; reflexivity.
  - intros pre v n w.
    set (l0 := pre ++ Some v :: replicate n None).
    assert (Hlen : length l0 = (length pre + S n)%nat)
      by (unfold l0; rewrite length_app; simpl; rewrite length_replicate; lia).
    assert (Htake : take (S (length pre)) l0 = pre ++ [Some v]).
    { unfold l0. rewrite (take_S_r _ _ (Some v)) by (by apply list_lookup_middle).
      by rewrite take_app_length. }
    rewrite (successorWalk_all_dead (withBlackhole r) (S (length pre)) l0);
      [| lia | intros e w' _; by exists None | lia | lia |].
    + rewrite Htake, drop_0. do 3 f_equal.
      replace (S (length pre) - 1)%nat with (length pre) by lia.
      rewrite drop_app_length. simpl. rewrite set_successors_twice.
      do 3 f_equal. lia.
    + cbn [successors set_successors]. rewrite Htake, drop_0.
      unfold l0 in Hlen |- *. rewrite <- app_assoc. simpl. rewrite Hlen.
      do 3 f_equal. lia.
Qed.

End KnownSuccessorsUse.

(** ** join and joinNew *)

Section JoinLaws.
Variable BetweenRightIncl : Id -> Id -> Id -> bool.
Variable closestPreceeding : localVnode -> Id -> list Vnode.
Variable randSource : World -> Z.

Lemma extends_mret {A} (a : A) : extends (mret a).
Proof. intros w a' w' [= <- <-]. exists []. by rewrite app_nil_r. Qed.

Lemma extends_lift {A} (o : Outcome A) : extends (lift o).
Proof.
  intros w a w'. unfold lift. destruct o; [|done..].
  intros [= <- <-]. exists []. by rewrite app_nil_r.
Qed.

Lemma extends_emit (e : Event) : extends (emit e).
Proof. intros w a w' [= <- <-]. by exists [e]. Qed.

Lemma extends_call {A} (e : Event) (answer : World -> Outcome A) :
  extends (call e answer).
Proof.
  intros w a w'. unfold call. destruct (answer w); [|done..].
  intros [= <- <-]. by exists [e].
Qed.

Lemma extends_Intn (n : Z) : extends (Intn randSource n).
Proof.
  intros w a w'. unfold Intn. destruct (n <=? 0); [done|].
  intros [= <- <-]. by exists [EvRand n].
Qed.

Lemma extends_bind {A B} (m : M A) (f : A -> M B) :
  extends m -> (forall a, extends (f a)) -> extends (mbind' m f).
Proof.
  intros Hm Hf w b w'. unfold mbind'.
  destruct (m w) as [[a w1]| |] eqn:E; [|done..].
  intros Hfa. destruct (Hm _ _ _ E) as [t ->].
  destruct (Hf _ _ _ _ Hfa) as [t' ->].
  exists (t ++ t'). by rewrite app_assoc.
Qed.

Ltac extends_step :=
  first [ apply extends_mret | apply extends_lift | apply extends_emit
        | apply extends_call | apply extends_Intn
        | apply extends_bind; [|intros ?] ].

Lemma extends_tryPreceeding (r : Ring) (n : Z) (key : Id) (cands : list Vnode) :
  extends (tryPreceeding randSource r n key cands).
Proof.
  induction cands as [|c cands IH]; simpl; [apply extends_mret|].
  apply extends_bind; [apply extends_call|]. intros a.
  destruct (snd a); [exact IH|]. repeat extends_step.
Qed.

Lemma extends_answerFromSuccessors (r : Ring) (vn : localVnode) (n : Z) :
  extends (answerFromSuccessors randSource r vn n).
Proof. unfold answerFromSuccessors. repeat extends_step. Qed.

(** A call of the [FindSuccessors] handler is the first thing it leaves in
    the world. *)
Lemma FindSuccessors_recorded (r : Ring) (vn : localVnode) (n : Z) (key : Id)
    (w w' : World) a :
  FindSuccessors BetweenRightIncl closestPreceeding randSource r vn n key w =
    Ret (a, w') ->
  exists t, w' = w ++ EvHandleFindSuccessors (self vn) n key :: t.
Proof.
  unfold FindSuccessors at 1. unfold mbind' at 1. cbn [emit].
  intros Hrun.
  match type of Hrun with
  | ?m (w ++ [?e]) = _ => assert (Hext : extends m)
  end.
  { apply extends_bind.
    - destruct (bytes_Equal key (VId (self vn))); repeat extends_step.
    - intros first. destruct first; [apply extends_answerFromSuccessors|].
      apply extends_bind; [apply extends_lift|]. intros s0.
      match goal with |- extends (if ?c then _ else _) => destruct c end;
        [apply extends_answerFromSuccessors|].
      apply extends_bind; [apply extends_tryPreceeding|]. intros found.
      destruct found as [[[res jumps] lookups]|]; [apply extends_mret|].
      apply extends_bind; [apply extends_lift|]. intros scanned.
      destruct scanned; apply extends_mret. }
  destruct (Hext _ _ _ Hrun) as [t ->].
  exists t. by rewrite <- app_assoc.
Qed.

Lemma assignFrom_spec (src : list (option Vnode)) :
  forall (dst : list (option Vnode)) (i : nat),
    (i + length src <= length dst)%nat ->
    assignFrom dst i src = Ret (take i dst ++ src ++ drop (i + length src) dst).
Proof.
  induction src as [|s src IH]; intros dst i Hlen; simpl.
  - by rewrite Nat.add_0_r, take_drop.
  - simpl in Hlen. rewrite store_in_range by lia. simpl.
    rewrite IH by (rewrite length_insert; lia).
    rewrite drop_insert_lt by lia.
    rewrite (take_S_r _ _ s) by (apply list_lookup_insert_eq; lia).
    rewrite take_insert_ge by lia.
    rewrite <- app_assoc. simpl. by rewrite Nat.add_succ_r.
Qed.

(** C4: the old join asks the seed for one successor of the joiner's id
    and writes the single vnode returned into [successors[0]], leaving every
    other slot as it was (nil on a vnode fresh from [init]); the corrected
    join asks the seed for [NumSuccessors] successors and copies the whole
    answer, in order, over the first slots of the successor list.  In both
    variants the world after the join is the world after the seed's
    [FindSuccessors], whose first event is that call. *)
Theorem join_old_and_new (r : Ring) (vn seed : localVnode) (w : World) :
  (forall found jumps lookups w1 s,
      FindSuccessors BetweenRightIncl closestPreceeding randSource r seed
        1 (VId (self vn)) w = Ret ((found, jumps, lookups, None), w1) ->
      found !! 0%nat = Some (Some s) ->
      (0 < length (successors vn))%nat ->
      join BetweenRightIncl closestPreceeding randSource r vn seed w =
        Ret ((set_successors vn (Some s :: drop 1 (successors vn)),
              (Some s, None)), w1) /\
      (successors vn = replicate (length (successors vn)) None ->
       Some s :: drop 1 (successors vn) =
         Some s :: replicate (length (successors vn) - 1) None) /\
      exists t, w1 = w ++ EvHandleFindSuccessors (self seed) 1 (VId (self vn)) :: t) /\
  (forall found jumps lookups w1 s,
      FindSuccessors BetweenRightIncl closestPreceeding randSource r seed
        (NumSuccessors (config r)) (VId (self vn)) w =
        Ret ((found, jumps, lookups, None), w1) ->
      found !! 0%nat = Some (Some s) ->
      (length found <= length (successors vn))%nat ->
      joinNew BetweenRightIncl closestPreceeding randSource r vn seed w =
        Ret ((set_successors vn (found ++ drop (length found) (successors vn)),
              (Some s, None)), w1) /\
      exists t, w1 = w ++ EvHandleFindSuccessors (self seed)
                            (NumSuccessors (config r)) (VId (self vn)) :: t).
Proof.
  split.
  - intros found jumps lookups w1 s Hfind Hs Hlen.
    split; [|split; [|by eapply FindSuccessors_recorded]].
    2:{ intros Hfresh. f_equal. rewrite Hfresh at 1.
        rewrite drop_replicate. done. }
    unfold join, mbind'. rewrite Hfind. cbn [snd fst].
    unfold lift. rewrite (slot_lookup _ _ _ Hs).
    rewrite store_in_range by lia.
    destruct (successors vn) as [|x l]; [simpl in Hlen; lia|].
    reflexivity.
  - intros found jumps lookups w1 s Hfind Hs Hlen.
    split; [|by eapply FindSuccessors_recorded].
    unfold joinNew, mbind'. rewrite Hfind. cbn [snd fst].
    unfold lift. rewrite assignFrom_spec by (simpl; lia).
    rewrite (slot_lookup _ _ _ Hs). reflexivity.
Qed.

End JoinLaws.

Lemma join_old_and_new_witness :
  join SpecModel.BetweenRightIncl SpecModel.closestPreceeding SpecModel.randZero
    Examples.joinRing Examples.joiner Examples.seed [] =
    Ret ((Examples.local Examples.vB [Some Examples.vC; None],
          (Some Examples.vC, None)),
         [EvHandleFindSuccessors Examples.vA 1 [x02]; EvRand 3]) /\
  joinNew SpecModel.BetweenRightIncl SpecModel.closestPreceeding SpecModel.randZero
    Examples.joinRing Examples.joiner Examples.seed [] =
    Ret ((Examples.local Examples.vB [Some Examples.vC; Some Examples.vD],
          (Some Examples.vC, None)),
         [EvHandleFindSuccessors Examples.vA 2 [x02]; EvRand 3]).
Proof.
  pose proof (join_old_and_new SpecModel.BetweenRightIncl
                SpecModel.closestPreceeding SpecModel.randZero
                Examples.joinRing Examples.joiner Examples.seed [])
    as [Hold Hnew].
  split.
  - apply (Hold [Some Examples.vC] 1 (-1)
             [EvHandleFindSuccessors Examples.vA 1 [x02]; EvRand 3] Examples.vC);
      [reflexivity | reflexivity | simpl; lia].
  - apply (Hnew [Some Examples.vC; Some Examples.vD] 1 (-1)
             [EvHandleFindSuccessors Examples.vA 2 [x02]; EvRand 3] Examples.vC);
      [reflexivity | reflexivity | simpl; lia].
Defined.

(** ** Create on a single vnode *)

Section SingleVnode.
Variable BetweenRightIncl : Id -> Id -> Id -> bool.
Variable closestPreceeding : localVnode -> Id -> list Vnode.
Variable randSource : World -> Z.

Lemma make_nonneg {A} (n : Z) (zero : A) :
  0 <= n -> make n zero = Ret (replicate (Z.to_nat n) zero).
Proof. intros H. unfold make. destruct (n <? 0) eqn:E; [lia|done]. Qed.

(** The vnode that [init] builds for index 0. *)
Lemma Create_single (conf : Config) (trans : Transport) (w : World) :
  NumVnodes conf = 1 -> 0 <= NumSuccessors conf -> 0 <= HashSize conf ->
  exists ring vn w',
    Create conf trans w = Ret (ring, w') /\
    vnodes ring = [vn] /\
    NumSuccessors (config ring) = NumSuccessors conf /\
    successors vn = replicate (Z.to_nat (NumSuccessors conf)) None.
Proof.
  intros HN HR HH.
  unfold Create, Ring_init, mbind', lift.
  cbn [NumVnodes NumSuccessors hashBits]. rewrite HN.
  change (make 1 ()) with (Ret [()]).
  change (Z.to_nat 1) with 1%nat. cbn [initVnodes].
  unfold mbind', init, lift, emit. cbn [NumSuccessors hashBits].
  rewrite (make_nonneg (NumSuccessors conf)) by lia.
  rewrite (make_nonneg (HashSize conf * 8)) by lia.
  cbv [mbind' mret]. cbn [sortVnodes foldr insertVnode].
  unfold setLocalSuccessors. cbn [vnodes config NumSuccessors length].
  replace (Z.to_nat (Z.min (NumSuccessors conf) (Z.of_nat 1 - 1))) with 0%nat by lia.
  cbn [setLocalSuccessors_from fillSuccessors obind].
  eexists _, _, _. split; [reflexivity|]. repeat split.
Qed.

Lemma FindSuccessors_no_successor (r : Ring) (vn : localVnode) (k : nat)
    (key : Id) (w : World) :
  successors vn = replicate (S k) None ->
  FindSuccessors BetweenRightIncl closestPreceeding randSource r vn 1 key w =
    Ret (([None], 1, randSource (w ++ [EvHandleFindSuccessors (self vn) 1 key]) mod 3
                     + NumSuccessors (config r) - 3, None),
         w ++ [EvHandleFindSuccessors (self vn) 1 key] ++ [EvRand 3]).
Proof.
  intros Hs.
  unfold FindSuccessors, answerFromSuccessors, mbind', emit, lift, mret,
    slice_to, Intn.
  rewrite !Hs, length_replicate.
  assert ((0 <=? 1) && (1 <=? Z.of_nat (S k)) = true) as ->
    by (apply andb_true_intro; split; [reflexivity|apply Z.leb_le; lia]).
  destruct (bytes_Equal key (VId (self vn))); simpl; by rewrite <- app_assoc.
Qed.

(** [Lookup] on such a vnode: the list returned by [FindSuccessors] holds
    nil entries only, and the loop that trims them runs off its front. *)
Lemma Lookup_no_successor_panics (r : Ring) (vn : localVnode) (k : nat)
    (key : list byte) (w : World) :
  vnodes r = [vn] -> successors vn = replicate (S k) None ->
  1 <= NumSuccessors (config r) ->
  Lookup BetweenRightIncl closestPreceeding randSource r 1 key w = Panic.
Proof.
  intros Hv Hs HR. unfold Lookup.
  destruct (1 >? NumSuccessors (config r)) eqn:E; [lia|].
  unfold mbind', lift, nearestVnode. rewrite Hv. cbn [rev app nearestVnode_scan].
  assert (Hn : match
                 match bytes_Compare (VId (self vn)) (HashFunc (config r) key) with
                 | Lt => Some vn
                 | _ => None
                 end
               with
               | Some vn0 => Ret vn0
               | None => slot [vn] 0
               end = Ret vn)
    by (destruct (bytes_Compare _ _); reflexivity).
  rewrite Hn.
  by rewrite (FindSuccessors_no_successor r vn k _ w Hs).
Qed.

(** C2, as the code has it: on a ring created with one vnode, every slot
    of that vnode's successor list is nil, [successors[0]] included; the
    vnode is the nearest one for every key, and its [FindSuccessors(1, key)]
    answers, without error or panic, with the single nil slot. *)
Theorem Create_single_vnode_no_successor (conf : Config) (trans : Transport)
    (w : World) :
  NumVnodes conf = 1 -> 1 <= NumSuccessors conf -> 0 <= HashSize conf ->
  exists ring vn w',
    Create conf trans w = Ret (ring, w') /\
    vnodes ring = [vn] /\
    Forall (fun s => s = None) (successors vn) /\
    successors vn !! 0%nat = Some None /\
    (forall key, nearestVnode ring key = Ret vn) /\
    (forall key w0, exists lookups w1,
        FindSuccessors BetweenRightIncl closestPreceeding randSource
          ring vn 1 key w0 = Ret (([None], 1, lookups, None), w1)).
Proof.
  intros HN HR HH.
  destruct (Create_single conf trans w HN ltac:(lia) HH)
    as (ring & vn & w' & Hc & Hv & HRr & Hs).
  destruct (Z.to_nat (NumSuccessors conf)) as [|k] eqn:Ek; [lia|].
  exists ring, vn, w'.
  split; [exact Hc|]. split; [exact Hv|].
  split.
  { rewrite Hs. apply Forall_forall. intros s Hin.
    by apply elem_of_replicate in Hin as [-> _]. }
  split; [by rewrite Hs|].
  split.
  - intros key. unfold nearestVnode. rewrite Hv. cbn [rev app nearestVnode_scan].
    destruct (bytes_Compare _ _); reflexivity.
  - intros key w0. eexists _, _.
    apply (FindSuccessors_no_successor ring vn k key w0 Hs).
Qed.

End SingleVnode.

Lemma Create_single_vnode_no_successor_witness :
  exists ring vn w',
    Create (Examples.conf 1 8) BlackholeTransport [] = Ret (ring, w') /\
    vnodes ring = [vn] /\
    Forall (fun s => s = None) (successors vn) /\
    successors vn !! 0%nat = Some None /\
    (forall key, nearestVnode ring key = Ret vn) /\
    (forall key w0, exists lookups w1,
        FindSuccessors SpecModel.BetweenRightIncl SpecModel.closestPreceeding
          SpecModel.randZero ring vn 1 key w0 =
          Ret (([None], 1, lookups, None), w1)).
Proof.
  apply (Create_single_vnode_no_successor SpecModel.BetweenRightIncl
           SpecModel.closestPreceeding SpecModel.randZero
           (Examples.conf 1 8) BlackholeTransport []);
    [reflexivity | simpl; lia | simpl; lia].
Defined.

(** The claim C2 as stated fails on a ring created with one vnode and
    eight successor slots: the vnode's first successor is nil, not the
    vnode itself, and [Lookup(1, key)] panics. *)
Lemma Create_single_vnode_not_own_successor :
  exists ring vn w',
    Create (Examples.conf 1 8) BlackholeTransport [] = Ret (ring, w') /\
    vnodes ring = [vn] /\
    successors vn !! 0%nat <> Some (Some (self vn)) /\
    Lookup SpecModel.BetweenRightIncl SpecModel.closestPreceeding
      SpecModel.randZero ring 1 [x66; x6f; x6f] w' = Panic.
Proof.
  eexists _, _, _. split; [reflexivity|]. split; [reflexivity|].
  split; [discriminate|reflexivity].
Qed.

(** ** The at-most-one-ring check *)

Section AtMostOneRing.
Variable succMap : gmap string localVnode.
Variable first : string.

(** What a non-empty result says about the walk that produced it. *)
Lemma ringWalk_cons (todo : nat) (node : option Vnode) (x : string)
    (rest : list string) :
  ringWalk succMap first todo node = Ret (x :: rest) ->
  exists v todo' next,
    node = Some v /\ hex (VId v) = x /\ todo = S todo' /\
    String.eqb x first = false /\
    nextHop succMap v = Ret next /\
    ringWalk succMap first todo' next = Ret rest.
Proof.
  destruct node as [v|]; [|destruct todo; discriminate].
  destruct todo as [|todo']; simpl.
  - destruct (String.eqb (hex (VId v)) first); discriminate.
  - destruct (String.eqb (hex (VId v)) first) eqn:E; [discriminate|].
    destruct (nextHop succMap v) as [next| |] eqn:En; simpl; [|discriminate..].
    destruct (ringWalk succMap first todo' next) as [l| |] eqn:Ew; simpl;
      [|discriminate..].
    intros [= <- <-]. exists v, todo', next. done.
Qed.

(** The walk looks at the id of a node only. *)
Lemma ringWalk_same_id (todo : nat) (v v' : Vnode) :
  hex (VId v) = hex (VId v') ->
  ringWalk succMap first todo (Some v) = ringWalk succMap first todo (Some v').
Proof.
  intros H. destruct todo; simpl; unfold nextHop; by rewrite H.
Qed.

(** A walk that stopped before its bound is not changed by a larger one. *)
Lemma ringWalk_more_steps (todo : nat) :
  forall (node : option Vnode) (l : list string) (extra : nat),
    ringWalk succMap first todo node = Ret l ->
    (length l < todo)%nat ->
    ringWalk succMap first (todo + extra) node = Ret l.
Proof.
  induction todo as [|todo IH]; intros node l extra Hrun Hlen; [lia|].
  destruct node as [v|]; [|exact Hrun].
  simpl in Hrun |- *.
  destruct (String.eqb (hex (VId v)) first); [exact Hrun|].
  destruct (nextHop succMap v) as [next| |]; simpl in *; [|discriminate..].
  destruct (ringWalk succMap first todo next) as [rest| |] eqn:E;
    simpl in *; [|discriminate..].
  injection Hrun as <-. simpl in Hlen.
  by rewrite (IH next rest extra E ltac:(lia)).
Qed.

(** The part of a walk from a later id on is itself a walk, from a node
    with that id and with the steps that were left. *)
Lemma ringWalk_suffix (t1 : list string) :
  forall (todo : nat) (node : option Vnode) (x : string) (t2 : list string),
    ringWalk succMap first todo node = Ret (t1 ++ x :: t2) ->
    exists v, hex (VId v) = x /\
      ringWalk succMap first (todo - length t1) (Some v) = Ret (x :: t2).
Proof.
  induction t1 as [|y t1 IH]; intros todo node x t2 Hrun; simpl in Hrun.
  - destruct (ringWalk_cons _ _ _ _ Hrun) as (v & _ & _ & -> & Hv & _).
    exists v. split; [exact Hv|]. by rewrite Nat.sub_0_r.
  - destruct (ringWalk_cons _ _ _ _ Hrun)
      as (v & todo' & next & _ & _ & -> & _ & _ & Hrest).
    apply IH in Hrest as (v' & Hv' & Hrest). by exists v'.
Qed.

Lemma ringWalk_not_first (todo : nat) :
  forall (node : option Vnode) (l : list string),
    ringWalk succMap first todo node = Ret l -> first ∉ l.
Proof.
  induction todo as [|todo IH]; intros node l Hrun.
  - destruct node as [v|]; simpl in Hrun;
      [destruct (String.eqb (hex (VId v)) first)|];
      injection Hrun as <-; apply not_elem_of_nil.
  - destruct l as [|x rest]; [apply not_elem_of_nil|].
    destruct (ringWalk_cons _ _ _ _ Hrun)
      as (v & todo' & next & _ & _ & [= <-] & Hne & _ & Hrest).
    apply not_elem_of_cons. split; [|by eapply IH].
    intros <-. by rewrite String.eqb_refl in Hne.
Qed.

(** A walk that stopped before its bound visited no id twice. *)
Lemma ringWalk_NoDup (todo : nat) :
  forall (node : option Vnode) (l : list string),
    ringWalk succMap first todo node = Ret l ->
    (length l < todo)%nat ->
    NoDup l.
Proof.
  induction todo as [|todo IH]; intros node l Hrun Hlen; [lia|].
  destruct l as [|x rest]; [constructor|].
  destruct (ringWalk_cons _ _ _ _ Hrun)
    as (v & todo' & next & -> & Hx & [= <-] & Hne & Hnext & Hrest).
  simpl in Hlen.
  apply NoDup_cons. split; [|by apply (IH next); [|lia]].
  intros Hin. apply list_elem_of_split in Hin as (t1 & t2 & ->).
  destruct (ringWalk_suffix _ _ _ _ _ Hrest) as (v' & Hv' & Hsuf).
  rewrite <- (ringWalk_same_id _ v v') in Hsuf by congruence.
  rewrite length_app in Hlen. simpl in Hlen.
  apply (ringWalk_more_steps _ _ _ (S (length t1))) in Hsuf; [|simpl; lia].
  replace (todo - length t1 + S (length t1))%nat with (S todo) in Hsuf by lia.
  rewrite Hrun in Hsuf. injection Hsuf as Hsuf.
  apply (f_equal length) in Hsuf. rewrite length_app in Hsuf. simpl in Hsuf. lia.
Qed.

End AtMostOneRing.

Section AtMostOneRingCheck.

Lemma succListOf_inv (r : Ring) (succList : list string) :
  succListOf r = Ret succList ->
  exists firstNode node walked,
    vnodes r !! 0%nat = Some firstNode /\
    ringWalk (succMapOf (vnodes r)) (idString firstNode)
      (length (vnodes r)) node = Ret walked /\
    succList = idString firstNode :: walked.
Proof.
  unfold succListOf, slot, ringListOf. rewrite length_map.
  destruct (vnodes r !! 0%nat) as [firstNode|]; simpl; [|discriminate].
  destruct (successors firstNode !! 0%nat) as [node|]; simpl; [|discriminate].
  destruct (ringWalk _ _ _ node) as [walked| |] eqn:E; simpl; [|discriminate..].
  intros [= <-]. eauto 10.
Qed.

Lemma atmostOneRing_length (r : Ring) (succList : list string) :
  succListOf r = Ret succList ->
  atmostOneRing r = Ret true <-> length succList = length (vnodes r).
Proof.
  intros Hl. unfold atmostOneRing, ringListOf. rewrite Hl, length_map. simpl.
  destruct (length succList =? length (vnodes r))%nat eqn:E; simpl.
  - apply Nat.eqb_eq in E. done.
  - apply Nat.eqb_neq in E. split; [discriminate|done].
Qed.

(** C1, as the code has it: [atmostOneRing] returns true exactly when the
    list of ids recorded by the walk (the id of [vnodes[0]], then the id of
    every node stepped onto, an id outside the live set included) has as
    many entries as the ring has vnodes.  On a snapshot where every recorded
    id is a live one, that is the case exactly when the recorded list is a
    permutation of the live ids: the walk visits every member once. *)
Theorem atmostOneRing_counts_walk (r : Ring) (succList : list string) :
  succListOf r = Ret succList ->
  (atmostOneRing r = Ret true <-> length succList = length (vnodes r)) /\
  ((forall x, x ∈ succList -> x ∈ ringListOf (vnodes r)) ->
   (atmostOneRing r = Ret true <-> succList ≡ₚ ringListOf (vnodes r))).
Proof.
  intros Hl. split; [by apply atmostOneRing_length|].
  intros Hlive. rewrite (atmostOneRing_length r succList Hl).
  split.
  - intros Hlen.
    destruct (succListOf_inv r succList Hl)
      as (firstNode & node & walked & Hfirst & Hwalk & ->).
    simpl in Hlen.
    apply submseteq_length_Permutation;
      [|unfold ringListOf; rewrite length_map; simpl; lia].
    apply NoDup_submseteq; [|exact Hlive].
    apply NoDup_cons. split.
    + by eapply ringWalk_not_first.
    + eapply ringWalk_NoDup; [exact Hwalk|lia].
  - intros Hperm. apply Permutation_length in Hperm.
    unfold ringListOf in Hperm. by rewrite length_map in Hperm.
Qed.

End AtMostOneRingCheck.

Lemma atmostOneRing_counts_walk_witness :
  (atmostOneRing Examples.cycle3 = Ret true <->
   length ["01"; "02"; "03"]%string = length (vnodes Examples.cycle3)) /\
  ((forall x, x ∈ ["01"; "02"; "03"]%string ->
              x ∈ ringListOf (vnodes Examples.cycle3)) ->
   (atmostOneRing Examples.cycle3 = Ret true <->
    ["01"; "02"; "03"]%string ≡ₚ ringListOf (vnodes Examples.cycle3))).
Proof.
  apply (atmostOneRing_counts_walk Examples.cycle3 ["01"; "02"; "03"]%string).
  vm_compute. reflexivity.
Defined.

(** The claim C1 as stated fails on a snapshot whose first vnode points at
    an id that is not a member: the check returns true although the ids
    visited, 01 and 0d, are not the live ids, 01 and 02.  It also fails the
    other way round when the walk runs into a cycle that leaves the start
    out: all three live ids are visited and the check returns false. *)
Lemma atmostOneRing_not_set_equality :
  (atmostOneRing Examples.strayRing = Ret true /\
   ~ visitsLiveSet Examples.strayRing) /\
  (atmostOneRing Examples.tailRing = Ret false /\
   visitsLiveSet Examples.tailRing).
Proof.
  split; split.
  - vm_compute. reflexivity.
  - intros (l & Hl & Hset).
    assert (l = ["01"; "0d"]%string) as ->
      by (vm_compute in Hl; congruence).
    assert (Hin : "02"%string ∈ ringListOf (vnodes Examples.strayRing)).
    { change (ringListOf (vnodes Examples.strayRing)) with ["01"; "02"]%string.
      apply list_elem_of_In. simpl. auto. }
    apply Hset, list_elem_of_In in Hin. simpl in Hin.
    destruct Hin as [H|[H|[]]]; discriminate H.
  - vm_compute. reflexivity.
  - exists ["01"; "02"; "03"; "02"]%string. split; [vm_compute; reflexivity|].
    intros x. change (ringListOf (vnodes Examples.tailRing))
      with ["01"; "02"; "03"]%string.
    rewrite !list_elem_of_In. simpl. tauto.
Qed.

(** * Further properties *)

(** ** Identifiers: comparison and printing *)

Section IdentifierLaws.

Lemma bytes_Compare_refl (a : list byte) : bytes_Compare a a = Eq.
Proof. induction a as [|x a IH]; simpl; [done|]. by rewrite N.compare_refl. Qed.

Lemma bytes_Compare_eq (a : list byte) :
  forall b, bytes_Compare a b = Eq -> a = b.
Proof.
  induction a as [|x a IH]; intros [|y b]; simpl; try done.
  destruct (N.compare (Byte.to_N x) (Byte.to_N y)) eqn:E; try done.
  intros H. apply N.compare_eq in E.
  assert (Some x = Some y) as [= ->]
    by (rewrite <- (Byte.of_to_N x), <- (Byte.of_to_N y); by rewrite E).
  by rewrite (IH b H).
Qed.

Lemma bytes_Compare_antisym (a : list byte) :
  forall b, bytes_Compare b a = CompOpp (bytes_Compare a b).
Proof.
  induction a as [|x a IH]; intros [|y b]; simpl; try done.
  rewrite (N.compare_antisym (Byte.to_N x) (Byte.to_N y)).
  destruct (N.compare (Byte.to_N x) (Byte.to_N y)); simpl; auto.
Qed.

Lemma bytes_Compare_lt_trans (a : list byte) :
  forall b c, bytes_Compare a b = Lt -> bytes_Compare b c = Lt ->
              bytes_Compare a c = Lt.
Proof.
  induction a as [|x a IH]; intros [|y b] [|z c]; simpl; try done.
  destruct (N.compare (Byte.to_N x) (Byte.to_N y)) eqn:Exy; try done;
    destruct (N.compare (Byte.to_N y) (Byte.to_N z)) eqn:Eyz; try done;
    intros H1 H2.
  - apply N.compare_eq in Exy, Eyz. rewrite Exy, Eyz, N.compare_refl. eauto.
  - apply N.compare_eq in Exy. by rewrite Exy, Eyz.
  - apply N.compare_eq in Eyz. by rewrite <- Eyz, Exy.
  - rewrite N.compare_lt_iff in Exy, Eyz.
    assert (Byte.to_N x < Byte.to_N z)%N as Hxz by lia.
    apply N.compare_lt_iff in Hxz. by rewrite Hxz.
Qed.

Lemma bytes_Equal_eq (a b : list byte) : bytes_Equal a b = true <-> a = b.
Proof.
  unfold bytes_Equal. split.
  - destruct (bytes_Compare a b) eqn:E; try done. intros _. by apply bytes_Compare_eq.
  - intros ->. by rewrite bytes_Compare_refl.
Qed.

(** X1: [Less], the order handed to [sort.Sort], is a strict total order
    on the vnodes' ids: no vnode is below itself, the order is transitive
    and asymmetric, and two vnodes neither of which is below the other have
    the same id. *)
Theorem Less_strict_total_order (a b c : localVnode) :
  Less a a = false /\
  (Less a b = true -> Less b c = true -> Less a c = true) /\
  (Less a b = true -> Less b a = false) /\
  (Less a b = false -> Less b a = false -> VId (self a) = VId (self b)).
Proof.
  unfold Less. split; [by rewrite bytes_Compare_refl|]. split; [|split].
  - destruct (bytes_Compare (VId (self a)) (VId (self b))) eqn:E1; try done.
    destruct (bytes_Compare (VId (self b)) (VId (self c))) eqn:E2; try done.
    by rewrite (bytes_Compare_lt_trans _ _ _ E1 E2).
  - rewrite (bytes_Compare_antisym (VId (self a)) (VId (self b))).
    by destruct (bytes_Compare (VId (self a)) (VId (self b))).
  - rewrite (bytes_Compare_antisym (VId (self a)) (VId (self b))).
    destruct (bytes_Compare (VId (self a)) (VId (self b))) eqn:E; try done.
    intros _ _. by apply bytes_Compare_eq.
Qed.

Lemma hex_digit_inj (n m : N) :
  (n < 16)%N -> (m < 16)%N -> hex_digit n = hex_digit m -> n = m.
Proof.
  intros Hn Hm.
  destruct n as [|p]; [|do 4 (try destruct p as [p|p|])]; try lia;
    (destruct m as [|q]; [|do 4 (try destruct q as [q|q|])]; try lia;
     intros H; first [reflexivity | discriminate H]).
Qed.

Lemma hex_inj (a : list byte) : forall b, hex a = hex b -> a = b.
Proof.
  induction a as [|x a IH]; intros [|y b]; simpl; try done.
  intros [= H1 H2 H3].
  pose proof (Byte.to_N_bounded x) as Hx. pose proof (Byte.to_N_bounded y) as Hy.
  apply hex_digit_inj in H1;
    [| apply N.Div0.div_lt_upper_bound; lia | apply N.Div0.div_lt_upper_bound; lia].
  apply hex_digit_inj in H2; [| apply N.mod_lt; lia | apply N.mod_lt; lia].
  assert (Byte.to_N x = Byte.to_N y) as E.
  { rewrite (N.div_mod' (Byte.to_N x) 16), (N.div_mod' (Byte.to_N y) 16). congruence. }
  assert (Some x = Some y) as [= ->]
    by (rewrite <- (Byte.of_to_N x), <- (Byte.of_to_N y); by rewrite E).
  by rewrite (IH b H3).
Qed.

(** X2: [Vnode.String] identifies a vnode's id: two handles print the same
    string exactly when their ids are equal, and the string has two
    characters per byte of the id.  A nil handle has no string: the call
    panics. *)
Theorem Vnode_String_identifies_id (v v' : Vnode) :
  (Vnode_String (Some v) = Vnode_String (Some v') <-> VId v = VId v') /\
  (exists s, Vnode_String (Some v) = Ret s /\
             String.length s = (2 * length (VId v))%nat) /\
  Vnode_String None = Panic.
Proof.
  split; [|split; [|done]].
  - simpl. split; [intros [= H]; by apply hex_inj | by intros ->].
  - exists (hex (VId v)). split; [done|].
    induction (VId v) as [|x a IH]; simpl; [done|]. rewrite IH. lia.
Qed.

End IdentifierLaws.

Lemma Less_strict_total_order_witness :
  Less (Examples.local Examples.vA []) (Examples.local Examples.vC []) = true.
Proof.
  apply (Less_strict_total_order (Examples.local Examples.vA [])
           (Examples.local Examples.vB []) (Examples.local Examples.vC []));
    reflexivity.
Defined.

(** ** Finding vnodes in the ring *)

Section NearestLaws.

Lemma nearestVnode_scan_Some (rl : list localVnode) (key : Id) (vn : localVnode) :
  nearestVnode_scan rl key = Some vn ->
  exists skipped rest,
    rl = skipped ++ vn :: rest /\
    bytes_Compare (VId (self vn)) key = Lt /\
    Forall (fun v => bytes_Compare (VId (self v)) key <> Lt) skipped.
Proof.
  induction rl as [|x rl IH]; simpl; [done|].
  destruct (bytes_Compare (VId (self x)) key) eqn:E.
  - intros H. destruct (IH H) as (sk & rest & -> & Hlt & Hall).
    exists (x :: sk), rest. repeat split; [done|]. constructor; [congruence|done].
  - intros [= <-]. exists [], rl. repeat split; [done|constructor].
  - intros H. destruct (IH H) as (sk & rest & -> & Hlt & Hall).
    exists (x :: sk), rest. repeat split; [done|]. constructor; [congruence|done].
Qed.

Lemma nearestVnode_scan_None (rl : list localVnode) (key : Id) :
  nearestVnode_scan rl key = None ->
  Forall (fun v => bytes_Compare (VId (self v)) key <> Lt) rl.
Proof.
  induction rl as [|x rl IH]; simpl; [constructor|].
  destruct (bytes_Compare (VId (self x)) key) eqn:E; try done;
    intros H; constructor; auto; congruence.
Qed.

(** X3: [nearestVnode] panics on a ring without vnodes; on any other ring
    it returns a member: the vnode of highest index whose id is below the
    key, and the last vnode when no id is below the key. *)
Theorem nearestVnode_last_below (r : Ring) (key : Id) :
  (vnodes r = [] -> nearestVnode r key = Panic) /\
  (vnodes r <> [] ->
   exists vn,
     nearestVnode r key = Ret vn /\ vn ∈ vnodes r /\
     ((exists before after,
          vnodes r = before ++ vn :: after /\
          bytes_Compare (VId (self vn)) key = Lt /\
          Forall (fun v => bytes_Compare (VId (self v)) key <> Lt) after) \/
      (last (vnodes r) = Some vn /\
       Forall (fun v => bytes_Compare (VId (self v)) key <> Lt) (vnodes r)))).
Proof.
  unfold nearestVnode. split.
  - intros ->. reflexivity.
  - intros Hne.
    destruct (nearestVnode_scan (rev (vnodes r)) key) as [vn|] eqn:E.
    + destruct (nearestVnode_scan_Some _ _ _ E) as (sk & rest & Hrev & Hlt & Hall).
      assert (Hv : vnodes r = rev rest ++ vn :: rev sk).
      { rewrite <- (rev_involutive (vnodes r)), Hrev, rev_app_distr. simpl.
        by rewrite <- app_assoc. }
      exists vn. split; [done|]. split.
      { rewrite Hv. apply list_elem_of_In, in_elt. }
      left. exists (rev rest), (rev sk). split; [done|]. split; [done|].
      apply Forall_forall. intros v Hin. rewrite Forall_forall in Hall.
      apply Hall. apply list_elem_of_In. apply in_rev.
      by apply list_elem_of_In.
    + apply nearestVnode_scan_None in E.
      destruct (vnodes r) as [|x l] eqn:Hv using rev_ind; [done|].
      rewrite rev_app_distr in E |- *. simpl.
      exists x. split; [done|]. split; [apply list_elem_of_In, in_elt|].
      right. split; [by rewrite last_snoc|].
      apply Forall_forall. intros v Hin. rewrite Forall_forall in E.
      apply E. apply list_elem_of_In. change (x :: rev l) with (rev [x] ++ rev l).
      rewrite <- rev_app_distr. apply in_rev. rewrite rev_involutive.
      by apply list_elem_of_In.
Qed.

Lemma NearestVnodeToKey_scan_handles (rl : list localVnode) (key : Id) :
  NearestVnodeToKey_scan (map (fun vn => Some (self vn)) rl) key =
  Ret (option_map self (nearestVnode_scan rl key)).
Proof.
  induction rl as [|x rl IH]; simpl; [done|].
  destruct (bytes_Compare (VId (self x)) key); done.
Qed.

(** X4: [NearestVnodeToKey] over the handles of a ring's vnodes picks the
    handle of the vnode that [nearestVnode] picks; on a list that holds a
    nil handle which the backward scan reaches, it panics. *)
Theorem NearestVnodeToKey_agrees (r : Ring) (key : Id) :
  NearestVnodeToKey (map (fun vn => Some (self vn)) (vnodes r)) key =
    obind (nearestVnode r key) (fun vn => Ret (Some (self vn))) /\
  (forall before : list (option Vnode),
      NearestVnodeToKey (before ++ [None]) key = Panic).
Proof.
  split.
  - unfold NearestVnodeToKey, nearestVnode.
    rewrite <- map_rev, NearestVnodeToKey_scan_handles. simpl.
    destruct (nearestVnode_scan (rev (vnodes r)) key); simpl; [done|].
    unfold slot. rewrite list_lookup_fmap.
    by destruct (rev (vnodes r) !! 0%nat).
  - intros before. unfold NearestVnodeToKey.
    rewrite rev_app_distr. reflexivity.
Qed.

Lemma GetLocalNode_scan_Some (l : list localVnode) (id : Id) (node : localVnode) :
  GetLocalNode_scan l id = Some node ->
  exists before after,
    l = before ++ node :: after /\ VId (self node) = id /\
    Forall (fun v => VId (self v) <> id) before.
Proof.
  induction l as [|x l IH]; simpl; [done|].
  destruct (bytes_Equal (VId (self x)) id) eqn:E.
  - intros [= <-]. apply bytes_Equal_eq in E.
    exists [], l. repeat split; [done|constructor].
  - intros H. destruct (IH H) as (b & a & -> & Hid & Hall).
    exists (x :: b), a. repeat split; [done|].
    constructor; [|done]. intros Heq. apply bytes_Equal_eq in Heq. congruence.
Qed.

Lemma GetLocalNode_scan_None (l : list localVnode) (id : Id) :
  GetLocalNode_scan l id = None <-> Forall (fun v => VId (self v) <> id) l.
Proof.
  induction l as [|x l IH]; simpl; [split; [constructor|done]|].
  destruct (bytes_Equal (VId (self x)) id) eqn:E.
  - apply bytes_Equal_eq in E. split; [done|]. intros H. by inversion H.
  - rewrite IH. split.
    + intros H. constructor; [|done]. intros Heq.
      apply bytes_Equal_eq in Heq. congruence.
    + intros H. by inversion H.
Qed.

(** X5: for a non-nil handle, [GetLocalNode] never panics: it returns the
    first vnode of the ring whose id is the handle's id, and the "not found"
    error exactly when no vnode has that id.  On a ring whose ids are
    pairwise distinct, looking up the handle of a member returns that
    member. *)
Theorem GetLocalNode_first_with_id (r : Ring) (v : Vnode) :
  (exists answer, GetLocalNode r (Some v) = Ret answer) /\
  (forall node,
      GetLocalNode r (Some v) = Ret (inl node) <->
      exists before after,
        vnodes r = before ++ node :: after /\ VId (self node) = VId v /\
        Forall (fun x => VId (self x) <> VId v) before) /\
  (GetLocalNode r (Some v) = Ret (inr ErrNotFound) <->
   Forall (fun x => VId (self x) <> VId v) (vnodes r)) /\
  (NoDup (map (fun x => VId (self x)) (vnodes r)) ->
   forall node, node ∈ vnodes r -> GetLocalNode r (Some (self node)) = Ret (inl node)).
Proof.
  assert (Hscan : GetLocalNode r (Some v) =
                  match GetLocalNode_scan (vnodes r) (VId v) with
                  | Some node => Ret (inl node)
                  | None => Ret (inr ErrNotFound)
                  end).
  { unfold GetLocalNode. by destruct (vnodes r). }
  assert (Hfound : forall (l : list localVnode) id node before after,
             l = before ++ node :: after -> VId (self node) = id ->
             Forall (fun x => VId (self x) <> id) before ->
             GetLocalNode_scan l id = Some node).
  { intros l id node before. revert l.
    induction before as [|x before IH]; intros l after -> Hid Hall; simpl.
    - apply bytes_Equal_eq in Hid. by rewrite Hid.
    - inversion Hall as [|? ? Hx Hrest]; subst.
      destruct (bytes_Equal (VId (self x)) (VId (self node))) eqn:E;
        [by apply bytes_Equal_eq in E|].
      by apply (IH _ after). }
  split; [|split; [|split]].
  - rewrite Hscan. destruct (GetLocalNode_scan _ _); eauto.
  - intros node. rewrite Hscan. split.
    + destruct (GetLocalNode_scan (vnodes r) (VId v)) as [n|] eqn:E; [|done].
      intros [= <-]. by apply GetLocalNode_scan_Some.
    + intros (before & after & Hv & Hid & Hall).
      by rewrite (Hfound _ _ _ _ _ Hv Hid Hall).
  - rewrite Hscan, <- GetLocalNode_scan_None.
    destruct (GetLocalNode_scan _ _); split; done.
  - intros Hnd node Hin.
    assert (Hscan' : GetLocalNode r (Some (self node)) =
                     match GetLocalNode_scan (vnodes r) (VId (self node)) with
                     | Some n => Ret (inl n)
                     | None => Ret (inr ErrNotFound)
                     end)
      by (unfold GetLocalNode; by destruct (vnodes r)).
    rewrite Hscan'.
    apply list_elem_of_split in Hin as (before & after & Hv).
    rewrite (Hfound _ _ node before after Hv eq_refl); [done|].
    rewrite Hv, map_app in Hnd. simpl in Hnd.
    apply NoDup_app in Hnd as (_ & Hdisj & _).
    apply Forall_forall. intros x Hx Heq.
    apply (Hdisj (VId (self x))).
    + apply list_elem_of_fmap. by exists x.
    + rewrite Heq. apply list_elem_of_here.
Qed.

End NearestLaws.

Lemma nearestVnode_last_below_witness :
  exists vn, nearestVnode Examples.cycle3 [x02] = Ret vn /\
             VId (self vn) = [x01].
Proof.
  destruct (proj2 (nearestVnode_last_below Examples.cycle3 [x02]) ltac:(discriminate))
    as (vn & Hvn & _).
  exists vn. split; [exact Hvn|].
  vm_compute in Hvn. by injection Hvn as <-.
Defined.

Lemma GetLocalNode_first_with_id_witness :
  GetLocalNode Examples.cycle3 (Some Examples.vB) =
    Ret (inl (Examples.local Examples.vB [Some Examples.vC; Some Examples.vA])).
Proof.
  refine (proj2 (proj2 (proj2
            (GetLocalNode_first_with_id Examples.cycle3 Examples.vB))) _
            (Examples.local Examples.vB [Some Examples.vC; Some Examples.vA]) _).
  - simpl. repeat (apply NoDup_cons; split);
      [intros H%list_elem_of_In; simpl in H; intuition discriminate ..
      |apply NoDup_nil_2].
  - apply list_elem_of_In. simpl. auto.
Defined.

(** ** The invariant checks *)

Section InvariantLaws.

Lemma succMapOf_snoc (l : list localVnode) (x : localVnode) :
  succMapOf (l ++ [x]) = <[idString x := x]> (succMapOf l).
Proof. unfold succMapOf. by rewrite foldl_app. Qed.

Lemma succMapOf_Some (l : list localVnode) (k : string) (vn : localVnode) :
  succMapOf l !! k = Some vn -> vn ∈ l /\ idString vn = k.
Proof.
  induction l as [|x l IH] using rev_ind; [done|].
  rewrite succMapOf_snoc, lookup_insert.
  case_decide as Hk.
  - intros [= <-]. split; [|done]. apply elem_of_app. right. apply list_elem_of_here.
  - intros H. destruct (IH H) as [Hin Hid]. split; [|done].
    apply elem_of_app. by left.
Qed.

Lemma succMapOf_is_Some (l : list localVnode) (k : string) :
  is_Some (succMapOf l !! k) <-> k ∈ ringListOf l.
Proof.
  unfold ringListOf. split.
  - intros [vn H]. apply succMapOf_Some in H as [Hin <-].
    apply list_elem_of_fmap. by exists vn.
  - induction l as [|x l IH] using rev_ind;
      [intros H; by apply elem_of_nil in H|].
    rewrite map_app, elem_of_app, succMapOf_snoc, lookup_insert.
    case_decide as Hk; [by eauto|].
    intros [H|H]; [by apply IH|].
    simpl in H. apply list_elem_of_singleton in H. congruence.
Qed.

Lemma succMapOf_NoDup (l : list localVnode) (vn : localVnode) :
  NoDup (ringListOf l) -> vn ∈ l -> succMapOf l !! idString vn = Some vn.
Proof.
  unfold ringListOf.
  induction l as [|x l IH] using rev_ind; [intros _ H; by apply elem_of_nil in H|].
  rewrite map_app, succMapOf_snoc. simpl.
  intros Hnd Hin. apply NoDup_app in Hnd as (Hl & Hdisj & _).
  apply elem_of_app in Hin as [Hin|Hin].
  - rewrite lookup_insert_ne; [by apply IH|].
    intros Heq. apply (Hdisj (idString vn)).
    + apply list_elem_of_fmap. by exists vn.
    + rewrite Heq. apply list_elem_of_here.
  - apply list_elem_of_singleton in Hin as ->. apply lookup_insert_eq.
Qed.

Lemma sameStrings_eq (a : list string) : forall b, sameStrings a b = true <-> a = b.
Proof.
  induction a as [|x a IH]; intros [|y b]; simpl; try done.
  rewrite andb_true_iff, String.eqb_eq, IH. split; [by intros [-> ->]|by intros [= -> ->]].
Qed.

Lemma orderedRing_true (r : Ring) :
  orderedRing r = Ret true <-> succListOf r = Ret (ringListOf (vnodes r)).
Proof.
  unfold orderedRing.
  destruct (succListOf r) as [succList| |]; simpl; [|split; discriminate..].
  destruct (length (ringListOf (vnodes r)) =? length succList)%nat eqn:E.
  - split.
    + intros [= H]. apply sameStrings_eq in H. by rewrite H.
    + intros [= ->]. f_equal. by apply sameStrings_eq.
  - split; [discriminate|]. intros [= ->]. by rewrite Nat.eqb_refl in E.
Qed.

Lemma orderedRing_atmostOneRing (r : Ring) :
  orderedRing r = Ret true -> atmostOneRing r = Ret true.
Proof.
  intros H. apply orderedRing_true in H. unfold atmostOneRing.
  rewrite H. simpl. by rewrite Nat.eqb_refl.
Qed.

(** X6: [orderedRing] returns true exactly when the ids recorded by the
    walk from [vnodes[0]] are the ids of [ring.vnodes], in that order; when
    it does, [atmostOneRing] returns true as well. *)
Theorem orderedRing_walk_is_vnodes (r : Ring) :
  (orderedRing r = Ret true <-> succListOf r = Ret (ringListOf (vnodes r))) /\
  (orderedRing r = Ret true -> atmostOneRing r = Ret true).
Proof. split; [apply orderedRing_true | apply orderedRing_atmostOneRing]. Qed.

Lemma connectedAppendages_true (r : Ring) :
  connectedAppendages r = true <->
  Forall (fun vn =>
            exists v member,
              Some v ∈ successors vn /\ member ∈ vnodes r /\
              VId (self member) = VId v) (vnodes r).
Proof.
  unfold connectedAppendages.
  rewrite forallb_forall, Forall_forall.
  split; intros H vn Hin.
  - apply list_elem_of_In in Hin. apply H in Hin.
    apply existsb_exists in Hin as ([v|] & Hs & Hv); [|done].
    apply bool_decide_eq_true in Hv as [member Hm].
    apply succMapOf_Some in Hm as [Hmem Hid].
    exists v, member. split; [by apply list_elem_of_In|]. split; [done|].
    by apply hex_inj.
  - apply list_elem_of_In in Hin. destruct (H vn Hin) as (v & member & Hs & Hmem & Hid).
    apply existsb_exists. exists (Some v). split; [by apply list_elem_of_In|].
    apply bool_decide_eq_true, succMapOf_is_Some.
    unfold ringListOf. apply list_elem_of_fmap. exists member.
    split; [|done]. unfold idString. by rewrite Hid.
Qed.

(** X7: [connectedAppendages] returns true exactly when every vnode of
    the ring has, somewhere in its successor list, the handle of a vnode of
    the ring (a handle whose id is a member's id). *)
Theorem connectedAppendages_member_successor (r : Ring) :
  connectedAppendages r = true <->
  Forall (fun vn =>
            exists v member,
              Some v ∈ successors vn /\ member ∈ vnodes r /\
              VId (self member) = VId v) (vnodes r).
Proof. apply connectedAppendages_true. Qed.


End InvariantLaws.

Lemma orderedRing_walk_is_vnodes_witness :
  atmostOneRing Examples.cycle3 = Ret true.
Proof.
  apply (proj2 (orderedRing_walk_is_vnodes Examples.cycle3)).
  vm_compute. reflexivity.
Defined.


(** ** Rings of neighbours *)

Section NeighbourRing.
Variable r : Ring.
Hypothesis Hdistinct : NoDup (ringListOf (vnodes r)).
Hypothesis Hnext :
  forall idx vn, vnodes r !! idx = Some vn ->
    exists t, vnodes r !! ((idx + 1) mod length (vnodes r))%nat = Some t /\
              successors vn !! 0%nat = Some (Some (self t)).

Lemma neighbour_nextHop (idx : nat) (vn : localVnode) :
  vnodes r !! idx = Some vn ->
  exists t, vnodes r !! ((idx + 1) mod length (vnodes r))%nat = Some t /\
            nextHop (succMapOf (vnodes r)) (self vn) = Ret (Some (self t)).
Proof.
  intros Hvn. destruct (Hnext idx vn Hvn) as (t & Ht & Hs).
  exists t. split; [done|]. unfold nextHop.
  change (hex (VId (self vn))) with (idString vn).
  rewrite (succMapOf_NoDup _ vn Hdistinct (list_elem_of_lookup_2 _ _ _ Hvn)).
  by apply slot_lookup.
Qed.

Lemma neighbour_ringWalk (first : localVnode) :
  vnodes r !! 0%nat = Some first ->
  forall (d k todo : nat) (t : localVnode),
    (k + d = length (vnodes r))%nat -> (1 <= k)%nat -> (d <= todo)%nat ->
    vnodes r !! (k mod length (vnodes r))%nat = Some t ->
    ringWalk (succMapOf (vnodes r)) (idString first) todo (Some (self t)) =
      Ret (drop k (ringListOf (vnodes r))).
Proof.
  intros Hfirst d. induction d as [|d IH]; intros k todo t Hk Hk1 Hd Ht.
  - rewrite Nat.add_0_r in Hk. subst k. rewrite Nat.Div0.mod_same in Ht.
    assert (t = first) as -> by congruence.
    rewrite drop_ge by (unfold ringListOf; rewrite length_map; lia).
    destruct todo; simpl; unfold idString; by rewrite String.eqb_refl.
  - rewrite Nat.mod_small in Ht by lia.
    assert (Hid : ringListOf (vnodes r) !! k = Some (idString t))
      by (unfold ringListOf; by rewrite list_lookup_fmap, Ht).
    assert (Hid0 : ringListOf (vnodes r) !! 0%nat = Some (idString first))
      by (unfold ringListOf; by rewrite list_lookup_fmap, Hfirst).
    assert (Hne : String.eqb (hex (VId (self t))) (idString first) = false).
    { apply String.eqb_neq. intros Heq.
      assert (k = 0)%nat; [|lia].
      eapply NoDup_lookup; [exact Hdistinct|exact Hid|].
      unfold idString in *. by rewrite Heq. }
    destruct todo as [|todo]; [lia|]. simpl. rewrite Hne.
    destruct (neighbour_nextHop k t Ht) as (t2 & Ht2 & ->). simpl.
    rewrite (IH (S k) todo t2); [| lia | lia | lia |
      by replace (S k) with (k + 1)%nat by lia].
    simpl. by rewrite (drop_S _ _ _ Hid).
Qed.

Lemma neighbour_first :
  vnodes r <> [] ->
  exists first, vnodes r !! 0%nat = Some first /\ (1 <= length (vnodes r))%nat.
Proof. destruct (vnodes r) as [|x l]; [done|]. intros _. exists x. simpl. split; [done|lia]. Qed.

Lemma neighbour_succListOf :
  vnodes r <> [] -> succListOf r = Ret (ringListOf (vnodes r)).
Proof.
  intros Hne. destruct (neighbour_first Hne) as (first & Hfirst & Hlen).
  destruct (Hnext 0 first Hfirst) as (t & Ht & Hs).
  unfold succListOf.
  rewrite (slot_lookup _ _ _ Hfirst). cbn [obind].
  rewrite (slot_lookup _ _ _ Hs). cbn [obind].
  rewrite (neighbour_ringWalk first Hfirst (length (vnodes r) - 1) 1 _ t);
    [| lia | lia | unfold ringListOf; rewrite length_map; lia | exact Ht].
  simpl. f_equal. symmetry.
  rewrite <- (drop_0 (ringListOf (vnodes r))) at 1. apply drop_S.
  unfold ringListOf. by rewrite list_lookup_fmap, Hfirst.
Qed.

Lemma neighbour_reachesNum (first : localVnode) :
  vnodes r !! 0%nat = Some first ->
  forall (d k todo : nat) (t : localVnode),
    (k + d = length (vnodes r))%nat -> (1 <= k)%nat -> (d < todo)%nat ->
    vnodes r !! (k mod length (vnodes r))%nat = Some t ->
    reachesNum (succMapOf (vnodes r)) (Num (self first)) todo (Some (self t)) =
      Ret true.
Proof.
  intros Hfirst d. induction d as [|d IH]; intros k todo t Hk Hk1 Hd Ht.
  - rewrite Nat.add_0_r in Hk. subst k. rewrite Nat.Div0.mod_same in Ht.
    assert (t = first) as -> by congruence.
    destruct todo; [lia|]. simpl. by rewrite Z.eqb_refl.
  - rewrite Nat.mod_small in Ht by lia.
    destruct todo as [|todo]; [lia|]. simpl.
    destruct (Num (self t) =? Num (self first)); [done|].
    destruct (neighbour_nextHop k t Ht) as (t2 & Ht2 & ->). simpl.
    apply (IH (S k)); [lia | lia | lia | by replace (S k) with (k + 1)%nat by lia].
Qed.

Lemma atleastOneRing_first (first : localVnode) (node : option Vnode) :
  vnodes r !! 0%nat = Some first ->
  successors first !! 0%nat = Some node ->
  reachesNum (succMapOf (vnodes r)) (Num (self first)) (length (vnodes r)) node =
    Ret true ->
  atleastOneRing r = Ret true.
Proof.
  unfold atleastOneRing. destruct (vnodes r) as [|x l]; [done|].
  simpl. intros [= ->] Hs Hreach.
  rewrite (slot_lookup _ _ _ Hs). cbn [obind].
  simpl in Hreach. by rewrite Hreach.
Qed.

Lemma neighbour_atleastOneRing :
  vnodes r <> [] -> atleastOneRing r = Ret true.
Proof.
  intros Hne. destruct (neighbour_first Hne) as (first & Hfirst & Hlen).
  destruct (Hnext 0 first Hfirst) as (t & Ht & Hs).
  apply (atleastOneRing_first first (Some (self t)) Hfirst Hs).
  apply (neighbour_reachesNum first Hfirst (length (vnodes r) - 1) 1 _ t);
    [lia | lia | lia | exact Ht].
Qed.

Lemma neighbour_connectedAppendages : connectedAppendages r = true.
Proof.
  apply connectedAppendages_true, Forall_forall. intros vn Hin.
  apply list_elem_of_lookup_1 in Hin as [idx Hvn].
  destruct (Hnext idx vn Hvn) as (t & Ht & Hs).
  exists (self t), t. split; [by eapply list_elem_of_lookup_2|].
  split; [by eapply list_elem_of_lookup_2|done].
Qed.

Lemma neighbour_ring_passes_check_from :
  vnodes r <> [] -> CheckCorrectnessInvariants r = Ret true.
Proof.
  intros Hne. unfold CheckCorrectnessInvariants.
  rewrite neighbour_connectedAppendages. simpl.
  rewrite (neighbour_atleastOneRing Hne). simpl.
  assert (Hord : orderedRing r = Ret true)
    by (apply orderedRing_true, neighbour_succListOf, Hne).
  rewrite (orderedRing_atmostOneRing r Hord). simpl. by rewrite Hord.
Qed.

(** X9: a ring with at least one vnode, pairwise distinct ids, and in
    which the first successor of every vnode is the handle of the vnode
    that follows it in [ring.vnodes] (the first vnode following the last)
    passes [CheckCorrectnessInvariants].  The order of the ids plays no part:
    the check compares the walk with the order of the array. *)
Theorem neighbour_ring_passes_check :
  vnodes r <> [] -> CheckCorrectnessInvariants r = Ret true.
Proof. apply neighbour_ring_passes_check_from. Qed.

End NeighbourRing.

Lemma neighbour_ring_passes_check_witness :
  CheckCorrectnessInvariants Examples.cycle3 = Ret true.
Proof.
  apply neighbour_ring_passes_check.
  - simpl. repeat (apply NoDup_cons; split);
      [intros H%list_elem_of_In; simpl in H; intuition discriminate ..
      |apply NoDup_nil_2].
  - intros [|[|[|idx]]] vn; simpl; intros [= <-]; eexists; split; reflexivity.
  - discriminate.
Defined.

(** ** setLocalSuccessors and Create *)

Section SetLocalSuccessorsLaws.

Lemma neighbour_index_other (n idx k : nat) :
  (idx < n)%nat -> (0 < k < n)%nat -> ((idx + k) mod n)%nat <> idx.
Proof.
  intros Hidx Hk Heq.
  destruct (Nat.lt_ge_cases (idx + k) n) as [Hlt|Hge].
  - rewrite Nat.mod_small in Heq by lia. lia.
  - replace (idx + k)%nat with ((idx + k - n) + 1 * n)%nat in Heq by lia.
    rewrite Nat.Div0.mod_add, Nat.mod_small in Heq by lia. lia.
Qed.

Lemma fillSuccessors_spec (all : list localVnode) (idx : nat) :
  all <> [] ->
  forall (todo i : nat) (succs : list (option Vnode)),
    (i + todo <= length succs)%nat ->
    exists succs',
      fillSuccessors all idx todo i succs = Ret succs' /\
      length succs' = length succs /\
      (forall j, (i <= j < i + todo)%nat ->
         exists t, all !! ((idx + j + 1) mod length all)%nat = Some t /\
                   succs' !! j = Some (Some (self t))) /\
      (forall j, (j < i \/ i + todo <= j)%nat -> succs' !! j = succs !! j).
Proof.
  intros Hall todo.
  assert (Hlen : length all <> 0%nat) by (by destruct all).
  induction todo as [|todo IH]; intros i succs Hi; simpl.
  - exists succs. split; [done|]. split; [done|]. split; [intros j Hj; lia|done].
  - assert (is_Some (all !! ((idx + i + 1) mod length all)%nat)) as [t Ht]
      by (apply lookup_lt_is_Some_2, Nat.mod_upper_bound, Hlen).
    rewrite (slot_lookup _ _ _ Ht). simpl.
    rewrite store_in_range by lia. simpl.
    destruct (IH (S i) (<[i := Some (self t)]> succs))
      as (succs' & Hrun & Hl & Hnew & Hold); [rewrite length_insert; lia|].
    exists succs'. split; [exact Hrun|]. rewrite length_insert in Hl.
    split; [exact Hl|]. split.
    + intros j Hj. destruct (decide (j = i)) as [->|Hne].
      * exists t. split; [exact Ht|].
        rewrite Hold by lia. apply list_lookup_insert_eq. lia.
      * apply Hnew. lia.
    + intros j Hj. rewrite Hold by lia. apply list_lookup_insert_ne. lia.
Qed.

Lemma setLocalSuccessors_from_spec (all : list localVnode) (numSuc : nat) :
  all <> [] ->
  forall (rest : list localVnode) (idx : nat),
    Forall (fun vn => (numSuc <= length (successors vn))%nat) rest ->
    exists rest',
      setLocalSuccessors_from all numSuc idx rest = Ret rest' /\
      length rest' = length rest /\
      forall j vn, rest !! j = Some vn ->
        exists succs,
          rest' !! j = Some (set_successors vn succs) /\
          length succs = length (successors vn) /\
          (forall i, (i < numSuc)%nat ->
             exists t, all !! ((idx + j + i + 1) mod length all)%nat = Some t /\
                       succs !! i = Some (Some (self t))) /\
          (forall i, (numSuc <= i)%nat -> succs !! i = successors vn !! i).
Proof.
  intros Hall rest. induction rest as [|vnode rest IH]; intros idx Hlong; simpl.
  - exists []. repeat split. intros j vn H. done.
  - inversion Hlong as [|? ? Hv Hrest]; subst.
    destruct (fillSuccessors_spec all idx Hall numSuc 0 (successors vnode))
      as (succs & Hfill & Hl & Hnew & Hold); [simpl; lia|].
    rewrite Hfill. simpl.
    destruct (IH (S idx) Hrest) as (rest' & Hrun & Hl' & Hspec).
    rewrite Hrun. simpl.
    exists (set_successors vnode succs :: rest').
    split; [done|]. split; [simpl; lia|].
    intros [|j] vn; simpl.
    + intros [= <-]. exists succs. split; [done|]. split; [done|]. split.
      * intros i Hi. destruct (Hnew i ltac:(lia)) as (t & Ht & Hs).
        exists t. split; [|done]. by rewrite Nat.add_0_r.
      * intros i Hi. apply Hold. lia.
    + intros Hj. destruct (Hspec j vn Hj) as (s' & H1 & H2 & H3 & H4).
      exists s'. split; [done|]. split; [done|]. split; [|done].
      intros i Hi. destruct (H3 i Hi) as (t & Ht & Hs).
      exists t. split; [|done].
      by replace (idx + S j + i + 1)%nat with (S idx + j + i + 1)%nat by lia.
Qed.

Lemma setLocalSuccessors_spec (r : Ring) :
  Forall (fun vn =>
            (Z.to_nat (Z.min (NumSuccessors (config r))
                         (Z.of_nat (length (vnodes r)) - 1))
             <= length (successors vn))%nat) (vnodes r) ->
  exists r',
    setLocalSuccessors r = Ret r' /\
    config r' = config r /\ transport r' = transport r /\
    length (vnodes r') = length (vnodes r) /\
    forall idx vn, vnodes r !! idx = Some vn ->
      exists succs,
        vnodes r' !! idx = Some (set_successors vn succs) /\
        length succs = length (successors vn) /\
        (forall i, (Z.of_nat i < Z.min (NumSuccessors (config r))
                               (Z.of_nat (length (vnodes r)) - 1)) ->
           exists t,
             vnodes r !! ((idx + i + 1) mod length (vnodes r))%nat = Some t /\
             succs !! i = Some (Some (self t)) /\
             ((idx + i + 1) mod length (vnodes r))%nat <> idx) /\
        (forall i, (Z.min (NumSuccessors (config r))
                      (Z.of_nat (length (vnodes r)) - 1) <= Z.of_nat i) ->
           succs !! i = successors vn !! i).
Proof.
  intros Hlong. unfold setLocalSuccessors.
  destruct (vnodes r) as [|x l] eqn:Hv.
  { simpl. eexists. split; [reflexivity|]. repeat split. intros idx vn H. done. }
  rewrite <- Hv in *.
  assert (Hall : vnodes r <> []) by (by rewrite Hv).
  destruct (setLocalSuccessors_from_spec (vnodes r) _ Hall (vnodes r) 0 Hlong)
    as (rest' & Hrun & Hl & Hspec).
  rewrite Hrun. simpl. eexists. split; [reflexivity|]. simpl.
  split; [done|]. split; [done|]. split; [done|].
  intros idx vn Hvn. destruct (Hspec idx vn Hvn) as (succs & H1 & H2 & H3 & H4).
  exists succs. split; [done|]. split; [done|]. split.
  - intros i Hi. destruct (H3 i ltac:(lia)) as (t & Ht & Hs).
    exists t. simpl in Ht. split; [done|]. split; [done|].
    replace (idx + i + 1)%nat with (idx + (i + 1))%nat by lia.
    apply neighbour_index_other; [by eapply lookup_lt_Some|lia].
  - intros i Hi. apply H4. lia.
Qed.

(** X10: [setLocalSuccessors] keeps every vnode and its handle and
    rewrites only the first [min(NumSuccessors, N-1)] slots of each successor
    list: slot [i] of the vnode at index [idx] becomes the handle of the
    vnode at index [(idx+i+1) mod N], which is never the vnode itself; the
    slots behind are left as they were. *)
Theorem setLocalSuccessors_neighbours (r : Ring) :
  Forall (fun vn =>
            (Z.to_nat (Z.min (NumSuccessors (config r))
                         (Z.of_nat (length (vnodes r)) - 1))
             <= length (successors vn))%nat) (vnodes r) ->
  exists r',
    setLocalSuccessors r = Ret r' /\
    config r' = config r /\ transport r' = transport r /\
    length (vnodes r') = length (vnodes r) /\
    forall idx vn, vnodes r !! idx = Some vn ->
      exists succs,
        vnodes r' !! idx = Some (set_successors vn succs) /\
        length succs = length (successors vn) /\
        (forall i, (Z.of_nat i < Z.min (NumSuccessors (config r))
                               (Z.of_nat (length (vnodes r)) - 1)) ->
           exists t,
             vnodes r !! ((idx + i + 1) mod length (vnodes r))%nat = Some t /\
             succs !! i = Some (Some (self t)) /\
             ((idx + i + 1) mod length (vnodes r))%nat <> idx) /\
        (forall i, (Z.min (NumSuccessors (config r))
                      (Z.of_nat (length (vnodes r)) - 1) <= Z.of_nat i) ->
           succs !! i = successors vn !! i).
Proof. apply setLocalSuccessors_spec. Qed.

Lemma setLocalSuccessors_invariants_from (r : Ring) :
  (2 <= length (vnodes r))%nat ->
  1 <= NumSuccessors (config r) ->
  NoDup (ringListOf (vnodes r)) ->
  Forall (fun vn => NumSuccessors (config r) <= Z.of_nat (length (successors vn)))
    (vnodes r) ->
  exists r',
    setLocalSuccessors r = Ret r' /\ CheckCorrectnessInvariants r' = Ret true.
Proof.
  intros HN HR Hnd Hlong.
  destruct (setLocalSuccessors_spec r) as (r' & Hrun & _ & _ & Hlen & Hspec).
  { eapply Forall_impl; [exact Hlong|]. intros vn H. simpl in H. lia. }
  exists r'. split; [exact Hrun|].
  assert (Hself : forall idx vn', vnodes r' !! idx = Some vn' ->
            exists vn, vnodes r !! idx = Some vn /\ self vn' = self vn /\
              exists t, vnodes r !! ((idx + 1) mod length (vnodes r))%nat = Some t /\
                        successors vn' !! 0%nat = Some (Some (self t))).
  { intros idx vn' Hvn'.
    assert (is_Some (vnodes r !! idx)) as [vn Hvn]
      by (apply lookup_lt_is_Some_2; rewrite <- Hlen; by eapply lookup_lt_Some).
    destruct (Hspec idx vn Hvn) as (succs & H1 & _ & H3 & _).
    rewrite H1 in Hvn'. injection Hvn' as <-.
    exists vn. split; [done|]. split; [done|].
    destruct (H3 0%nat ltac:(lia)) as (t & Ht & Hs & _).
    exists t. by rewrite Nat.add_0_r in Ht. }
  assert (Hids : ringListOf (vnodes r') = ringListOf (vnodes r)).
  { unfold ringListOf. apply list_eq. intros idx. rewrite !list_lookup_fmap.
    destruct (vnodes r' !! idx) as [vn'|] eqn:E.
    - destruct (Hself idx vn' E) as (vn & -> & Hs & _). simpl.
      unfold idString. by rewrite Hs.
    - apply lookup_ge_None in E. rewrite Hlen in E.
      apply lookup_ge_None in E. by rewrite E. }
  apply neighbour_ring_passes_check_from.
  - by rewrite Hids.
  - intros idx vn' Hvn'.
    destruct (Hself idx vn' Hvn') as (vn & Hvn & _ & t & Ht & Hs).
    assert (is_Some (vnodes r' !! ((idx + 1) mod length (vnodes r'))%nat)) as [t' Ht']
      by (apply lookup_lt_is_Some_2, Nat.mod_upper_bound; lia).
    exists t'. split; [exact Ht'|].
    destruct (Hself _ t' Ht') as (t0 & Ht0 & Hst & _).
    rewrite Hlen in Ht0. rewrite Hs. by assert (t0 = t) as -> by congruence; rewrite Hst.
  - intros Hnil. rewrite Hnil in Hlen. simpl in Hlen. lia.
Qed.

(** X11: on a ring of at least two vnodes with pairwise distinct ids, at
    least one successor slot configured and successor lists long enough for
    them, [setLocalSuccessors] succeeds and the ring it leaves passes
    [CheckCorrectnessInvariants]. *)
Theorem setLocalSuccessors_establishes_invariants (r : Ring) :
  (2 <= length (vnodes r))%nat ->
  1 <= NumSuccessors (config r) ->
  NoDup (ringListOf (vnodes r)) ->
  Forall (fun vn => NumSuccessors (config r) <= Z.of_nat (length (successors vn)))
    (vnodes r) ->
  exists r',
    setLocalSuccessors r = Ret r' /\ CheckCorrectnessInvariants r' = Ret true.
Proof. apply setLocalSuccessors_invariants_from. Qed.

End SetLocalSuccessorsLaws.

Lemma setLocalSuccessors_neighbours_witness :
  exists r', setLocalSuccessors MoreExamples.fresh3 = Ret r' /\
             length (vnodes r') = 3%nat.
Proof.
  destruct (setLocalSuccessors_neighbours MoreExamples.fresh3)
    as (r' & Hrun & _ & _ & Hlen & _).
  - repeat (apply Forall_cons; split; [simpl; lia|]). apply Forall_nil_2.
  - exists r'. split; [exact Hrun|exact Hlen].
Defined.

Lemma setLocalSuccessors_establishes_invariants_witness :
  exists r', setLocalSuccessors MoreExamples.fresh3 = Ret r' /\
             CheckCorrectnessInvariants r' = Ret true.
Proof.
  apply setLocalSuccessors_establishes_invariants.
  - simpl. lia.
  - simpl. lia.
  - simpl. repeat (apply NoDup_cons; split);
      [intros H%list_elem_of_In; simpl in H; intuition discriminate ..
      |apply NoDup_nil_2].
  - repeat (apply Forall_cons; split; [simpl; lia|]). apply Forall_nil_2.
Defined.

Example setLocalSuccessors_fresh3 :
  setLocalSuccessors MoreExamples.fresh3 = Ret Examples.cycle3.
Proof. reflexivity. Qed.

(** ** A ring created with one vnode *)

Section SingleVnodeCheck.

(** X12: a ring created with a single vnode does not pass
    [CheckCorrectnessInvariants]: its only vnode has no successor that is a
    member, so the first check, [connectedAppendages], fails. *)
Theorem Create_single_vnode_fails_check (conf : Config) (trans : Transport)
    (w : World) :
  NumVnodes conf = 1 -> 0 <= NumSuccessors conf -> 0 <= HashSize conf ->
  exists ring w',
    Create conf trans w = Ret (ring, w') /\
    connectedAppendages ring = false /\
    CheckCorrectnessInvariants ring = Ret false.
Proof.
  intros HN HR HH.
  destruct (Create_single conf trans w HN HR HH)
    as (ring & vn & w' & Hc & Hv & _ & Hs).
  exists ring, w'. split; [exact Hc|].
  assert (Hca : connectedAppendages ring = false).
  { unfold connectedAppendages. rewrite Hv. simpl. rewrite Hs.
    rewrite andb_true_r. clear Hs.
    induction (Z.to_nat (NumSuccessors conf)) as [|n IH]; [done|exact IH]. }
  split; [exact Hca|].
  unfold CheckCorrectnessInvariants. by rewrite Hca.
Qed.

End SingleVnodeCheck.

Lemma Create_single_vnode_fails_check_witness :
  exists ring w',
    Create (Examples.conf 1 8) BlackholeTransport [] = Ret (ring, w') /\
    connectedAppendages ring = false /\
    CheckCorrectnessInvariants ring = Ret false.
Proof.
  apply Create_single_vnode_fails_check; [reflexivity | simpl; lia | simpl; lia].
Defined.

(** ** What Lookup returns *)

Section LookupResult.
Variable BetweenRightIncl : Id -> Id -> Id -> bool.
Variable closestPreceeding : localVnode -> Id -> list Vnode.
Variable randSource : World -> Z.

Lemma trimNils_rev_Ret (rl rl' : list (option Vnode)) :
  trimNils_rev rl = Ret rl' ->
  exists k v rest, rl = replicate k None ++ rl' /\ rl' = Some v :: rest.
Proof.
  induction rl as [|[v|] rl IH]; simpl; [done| |].
  - intros [= <-]. by exists 0%nat, v, rl.
  - intros H. destruct (IH H) as (k & v & rest & -> & ->).
    by exists (S k), v, rest.
Qed.

Lemma trimNils_Ret (l l' : list (option Vnode)) :
  trimNils l = Ret l' ->
  exists k v front, l = l' ++ replicate k None /\ l' = front ++ [Some v].
Proof.
  unfold trimNils.
  destruct (trimNils_rev (rev l)) as [rl'| |] eqn:E; simpl; [|done..].
  intros [= <-].
  destruct (trimNils_rev_Ret _ _ E) as (k & v & rest & Hrev & ->).
  exists k, v, (rev rest). split; [|done].
  rewrite <- (rev_involutive l), Hrev, rev_app_distr. f_equal.
  clear. induction k as [|k IH]; [done|].
  simpl. rewrite IH. by rewrite <- replicate_S_end.
Qed.

(** X13: when [Lookup] returns, an error comes with a nil list, and a list
    returned without error is not empty, ends in a non-nil handle, and is
    the answer of the nearest vnode's [FindSuccessors] without its trailing
    nil entries; the world is the one that call left. *)
Theorem Lookup_result_trimmed (r : Ring) (n : Z) (key : list byte)
    (res : list (option Vnode)) (err : option error) (w w' : World) :
  Lookup BetweenRightIncl closestPreceeding randSource r n key w =
    Ret ((res, err), w') ->
  match err with
  | Some _ => res = []
  | None =>
      n <= NumSuccessors (config r) /\
      exists nearest found jumps lookups k v front,
        nearestVnode r (HashFunc (config r) key) = Ret nearest /\
        FindSuccessors BetweenRightIncl closestPreceeding randSource
          r nearest n (HashFunc (config r) key) w =
          Ret ((found, jumps, lookups, None), w') /\
        found = res ++ replicate k None /\
        res = front ++ [Some v]
  end.
Proof.
  unfold Lookup.
  destruct (n >? NumSuccessors (config r)) eqn:En.
  { intros [= <- <- <-]. done. }
  unfold mbind', lift.
  destruct (nearestVnode r (HashFunc (config r) key)) as [nearest| |] eqn:Hn;
    [|done..].
  destruct (FindSuccessors _ _ _ r nearest n _ w)
    as [[[[[found jumps] lookups] e] w1]| |] eqn:Hf; [|done..].
  cbn [snd fst]. destruct e as [e|].
  { intros [= <- <- <-]. done. }
  destruct (trimNils found) as [trimmed| |] eqn:Ht; [|done..].
  intros [= <- <- <-].
  split; [rewrite Z.gtb_ltb in En; apply Z.ltb_ge in En; lia|].
  destruct (trimNils_Ret _ _ Ht) as (k & v & front & Hfound & Htrim).
  exists nearest, found, jumps, lookups, k, v, front. done.
Qed.

End LookupResult.

Lemma Lookup_result_trimmed_witness :
  1 <= NumSuccessors (config Examples.cycle3) /\
  exists nearest found jumps lookups k v front,
    nearestVnode Examples.cycle3 (HashFunc (config Examples.cycle3) [x02]) =
      Ret nearest /\
    FindSuccessors SpecModel.BetweenRightIncl SpecModel.closestPreceeding
      SpecModel.randZero Examples.cycle3 nearest 1
      (HashFunc (config Examples.cycle3) [x02]) [] =
      Ret ((found, jumps, lookups, None),
           [EvHandleFindSuccessors Examples.vA 1 [x02]; EvRand 3]) /\
    found = [Some Examples.vB] ++ replicate k None /\
    [Some Examples.vB] = front ++ [Some v].
Proof.
  apply (Lookup_result_trimmed SpecModel.BetweenRightIncl
           SpecModel.closestPreceeding SpecModel.randZero
           Examples.cycle3 1 [x02] [Some Examples.vB] None []
           [EvHandleFindSuccessors Examples.vA 1 [x02]; EvRand 3]).
  reflexivity.
Defined.

(** ** checkPredecessor *)

Section CheckPredecessorLaws.

(** X14: [checkPredecessor] pings only a non-nil predecessor and touches
    nothing but the predecessor field: an error from the transport is
    returned and leaves the predecessor in place, an answer "dead" without
    error clears it, an answer "alive" keeps it.  Against the blackhole
    transport, whose ping always answers "dead" without error, every
    non-nil predecessor is cleared. *)
Theorem checkPredecessor_clears_dead (r : Ring) (vn : localVnode) (w : World) :
  (predecessor vn = None -> checkPredecessor r vn w = Ret ((vn, None), w)) /\
  (forall p alive err,
      predecessor vn = Some p ->
      tr_Ping (transport r) w (Some p) = Ret (alive, err) ->
      checkPredecessor r vn w =
        Ret ((match err with
              | Some _ => vn
              | None => if alive then vn else set_predecessor vn None
              end, err), w ++ [EvPing (Some p)])) /\
  (forall p,
      predecessor vn = Some p ->
      checkPredecessor (withBlackhole r) vn w =
        Ret ((set_predecessor vn None, None), w ++ [EvPing (Some p)])).
Proof.
  unfold checkPredecessor, mbind', call, mret. split; [|split].
  - by intros ->.
  - intros p alive err -> Hping. rewrite Hping. simpl.
    destruct err; [done|]. by destruct alive.
  - by intros p ->.
Qed.

End CheckPredecessorLaws.

Lemma checkPredecessor_clears_dead_witness :
  checkPredecessor (Examples.ringOf 2 [])
    (set_predecessor (Examples.local Examples.vB []) (Some Examples.vA)) [] =
  Ret ((set_predecessor (Examples.local Examples.vB []) None, None),
       [EvPing (Some Examples.vA)]).
Proof.
  apply (proj1 (proj2 (checkPredecessor_clears_dead (Examples.ringOf 2 [])
           (set_predecessor (Examples.local Examples.vB []) (Some Examples.vA)) []))
           Examples.vA false None); reflexivity.
Defined.

(** ** notifySuccessor *)

Section NotifySuccessorLaws.
Variable peerNotify : option Vnode -> Vnode ->
                      Outcome (list (option Vnode) * option error).




End NotifySuccessorLaws.

Example notifySuccessor_stops_at_self :
  notifySuccessor (fun _ _ => Ret ([Some Examples.vC; Some Examples.vA;
                                    Some Examples.vD], None))
    (Examples.ringOf 4 [])
    (Examples.local Examples.vA [Some Examples.vB; None; None; None]) =
  Ret (Examples.local Examples.vA [Some Examples.vB; Some Examples.vC; None; None],
       None).
Proof. reflexivity. Qed.


(** ** fixFingerTable *)

Section FixFingerTableLaws.
Variable BetweenRightIncl : Id -> Id -> Id -> bool.
Variable closestPreceeding : localVnode -> Id -> list Vnode.
Variable randSource : World -> Z.
Variable PowerOffset : Id -> Z -> Z -> Id.

Lemma storeZ_in_range {A} (s : list A) (i : Z) (x : A) :
  0 <= i < Z.of_nat (length s) -> storeZ s i x = Ret (<[Z.to_nat i := x]> s).
Proof.
  intros H. unfold storeZ. destruct (i <? 0) eqn:E; [lia|].
  apply store_in_range. lia.
Qed.

Lemma skipFingers_spec (hb : Z) (node : Vnode) (todo : nat) :
  forall vn : localVnode,
    0 <= last_finger vn < hb ->
    hb <= Z.of_nat (length (finger vn)) ->
    hb - 1 - last_finger vn <= Z.of_nat todo ->
    exists f k,
      skipFingers BetweenRightIncl PowerOffset hb node todo vn =
        Ret (set_last_finger (set_finger vn f) k) /\
      last_finger vn <= k < hb /\
      length f = length (finger vn) /\
      forall i, f !! i = finger vn !! i \/
                (f !! i = Some (Some node) /\ (last_finger vn < Z.of_nat i <= k)).
Proof.
  induction todo as [|todo IH]; intros vn Hlf Hlen Hfuel.
  - assert ((last_finger vn + 1 >=? hb) = true) as Hstop by lia.
    simpl. rewrite Hstop. exists (finger vn), (last_finger vn).
    split; [by destruct vn|]. split; [lia|]. split; [done|]. by left.
  - simpl. destruct (last_finger vn + 1 >=? hb) eqn:Hstop.
    { exists (finger vn), (last_finger vn).
      split; [by destruct vn|]. split; [lia|]. split; [done|]. by left. }
    destruct (BetweenRightIncl _ _ _).
    2:{ exists (finger vn), (last_finger vn).
        split; [by destruct vn|]. split; [lia|]. split; [done|]. by left. }
    rewrite storeZ_in_range by lia. simpl.
    destruct (IH (set_last_finger
                    (set_finger vn (<[Z.to_nat (last_finger vn + 1) := Some node]>
                                      (finger vn)))
                    (last_finger vn + 1)))
      as (f & k & Hrun & Hk & Hf & Hslots);
      [simpl; lia | simpl; rewrite length_insert; lia | simpl; lia |].
    simpl in *. rewrite length_insert in Hf.
    exists f, k. split; [exact Hrun|]. split; [lia|]. split; [exact Hf|].
    intros i. destruct (Hslots i) as [Hi|[Hi Hr]]; [|right; split; [done|lia]].
    destruct (decide (i = Z.to_nat (last_finger vn + 1))) as [->|Hne].
    + right. rewrite Hi. split; [apply list_lookup_insert_eq; lia|lia].
    + left. rewrite Hi. by apply list_lookup_insert_ne.
Qed.

(** X16: on a vnode whose finger table has [hashBits] slots and whose
    [last_finger] is an index into it, [fixFingerTable] never panics or
    loops on its own: it returns whenever the vnode's [FindSuccessors]
    returns, leaving the world of that call.  The index stays inside the
    table and the table keeps its length; an error (or an empty answer)
    leaves the vnode as it was; otherwise the slot at the old index holds
    the vnode found and every slot that changed holds that same vnode. *)
Theorem fixFingerTable_keeps_index_in_table (r : Ring) (vn : localVnode)
    (w w1 : World) (answer : list (option Vnode)) (jumps lookups : Z)
    (ferr : option error) :
  0 <= last_finger vn < hashBits (config r) ->
  Z.of_nat (length (finger vn)) = hashBits (config r) ->
  FindSuccessors BetweenRightIncl closestPreceeding randSource r vn 1
    (PowerOffset (VId (self vn)) (last_finger vn) (hashBits (config r))) w =
    Ret ((answer, jumps, lookups, ferr), w1) ->
  exists f k e,
    fixFingerTable BetweenRightIncl closestPreceeding randSource PowerOffset
      r vn w = Ret ((set_last_finger (set_finger vn f) k, e), w1) /\
    0 <= k < hashBits (config r) /\
    length f = length (finger vn) /\
    match e with
    | Some _ => f = finger vn /\ k = last_finger vn
    | None =>
        match answer with
        | [] => f = finger vn /\ k = last_finger vn
        | first :: _ =>
            exists node, first = Some node /\
              f !! Z.to_nat (last_finger vn) = Some (Some node) /\
              forall i, f !! i = finger vn !! i \/ f !! i = Some (Some node)
        end
    end.
Proof.
  intros Hlf Hlen Hfind. unfold fixFingerTable, mbind'. rewrite Hfind.
  cbn [fst snd].
  destruct answer as [|first rest].
  { exists (finger vn), (last_finger vn), (option_map OfError ferr).
    split; [unfold mret; by destruct vn|]. split; [lia|]. split; [done|].
    by destruct ferr. }
  destruct ferr as [ferr|].
  { exists (finger vn), (last_finger vn), (Some (OfError ferr)).
    split; [unfold mret; by destruct vn|]. split; [lia|]. done. }
  destruct first as [node|].
  2:{ exists (finger vn), (last_finger vn), (Some ErrNoKnownSuccessors).
      split; [unfold mret; by destruct vn|]. split; [lia|]. done. }
  unfold lift. rewrite storeZ_in_range by lia.
  set (hb := hashBits (config r)) in *.
  destruct (skipFingers_spec hb node (Z.to_nat (hb - last_finger vn))
              (set_finger vn (<[Z.to_nat (last_finger vn) := Some node]> (finger vn))))
    as (f & k & Hrun & Hk & Hf & Hslots);
    [simpl; lia | simpl; rewrite length_insert; lia | simpl; lia |].
  rewrite Hrun. simpl in *. rewrite length_insert in Hf.
  exists f, (if k + 1 =? hb then 0 else k + 1), None.
  split; [reflexivity|]. split; [destruct (k + 1 =? hb) eqn:E; lia|].
  split; [exact Hf|].
  exists node. split; [done|]. split.
  - destruct (Hslots (Z.to_nat (last_finger vn))) as [Hi|[Hi _]]; [|done].
    rewrite Hi. apply list_lookup_insert_eq. lia.
  - intros i. destruct (Hslots i) as [Hi|[Hi _]]; [|by right].
    destruct (decide (i = Z.to_nat (last_finger vn))) as [->|Hne].
    + right. rewrite Hi. apply list_lookup_insert_eq. lia.
    + left. rewrite Hi. by apply list_lookup_insert_ne.
Qed.

End FixFingerTableLaws.

Lemma fixFingerTable_keeps_index_in_table_witness :
  exists f k e,
    fixFingerTable SpecModel.BetweenRightIncl SpecModel.closestPreceeding
      SpecModel.randZero MoreExamples.PowerOffset Examples.cycle3
      MoreExamples.fingered [] =
      Ret ((set_last_finger (set_finger MoreExamples.fingered f) k, e),
           [EvHandleFindSuccessors Examples.vA 1 [x02]; EvRand 3]) /\
    0 <= k < 8 /\
    length f = 8%nat /\
    match e with
    | Some _ => f = replicate 8 None /\ k = 0
    | None =>
        exists node, Some Examples.vB = Some node /\
          f !! 0%nat = Some (Some node) /\
          forall i, f !! i = replicate 8 None !! i \/ f !! i = Some (Some node)
    end.
Proof.
  apply (fixFingerTable_keeps_index_in_table SpecModel.BetweenRightIncl
           SpecModel.closestPreceeding SpecModel.randZero MoreExamples.PowerOffset
           Examples.cycle3 MoreExamples.fingered []
           [EvHandleFindSuccessors Examples.vA 1 [x02]; EvRand 3]
           [Some Examples.vB] 1 (-1) None).
  - simpl. lia.
  - reflexivity.
  - reflexivity.
Defined.

Example fixFingerTable_fingered :
  fixFingerTable SpecModel.BetweenRightIncl SpecModel.closestPreceeding
    SpecModel.randZero MoreExamples.PowerOffset Examples.cycle3
    MoreExamples.fingered [] =
  Ret ((set_last_finger
          (set_finger MoreExamples.fingered
             (Some Examples.vB :: replicate 7 None)) 1, None),
       [EvHandleFindSuccessors Examples.vA 1 [x02]; EvRand 3]).
Proof. reflexivity. Qed.

(** ** join and joinNew: the failure paths *)

Section JoinFailures.
Variable BetweenRightIncl : Id -> Id -> Id -> bool.
Variable closestPreceeding : localVnode -> Id -> list Vnode.
Variable randSource : World -> Z.

Lemma FindSuccessors_head_nil (r : Ring) (vn : localVnode) (k : nat) (n : Z)
    (key : Id) (w : World) :
  successors vn = replicate (S k) None ->
  FindSuccessors BetweenRightIncl closestPreceeding randSource r vn n key w =
    answerFromSuccessors randSource r vn n
      (w ++ [EvHandleFindSuccessors (self vn) n key]).
Proof.
  intros Hs. unfold FindSuccessors, mbind', emit, lift, mret.
  rewrite Hs. cbn [replicate slot lookup list_lookup].
  by destruct (bytes_Equal key (VId (self vn))).
Qed.

Lemma assignFrom_returns_or_panics (src dst : list (option Vnode)) (i : nat) :
  assignFrom dst i src <> OutOfFuel.
Proof.
  revert dst i. induction src as [|x src IH]; intros dst i; [done|].
  cbn [assignFrom]. unfold store.
  destruct (i <? length dst)%nat; [apply IH|done].
Qed.

Lemma joinNew_seed_without_successor (r : Ring) (vn seed : localVnode)
    (k : nat) (w : World) :
  successors seed = replicate (S k) None ->
  joinNew BetweenRightIncl closestPreceeding randSource r vn seed w = Panic.
Proof.
  intros Hs. unfold joinNew, mbind'.
  rewrite (FindSuccessors_head_nil r seed k _ _ w Hs).
  unfold answerFromSuccessors, mbind', lift, slice_to, Intn, mret. rewrite Hs.
  destruct ((0 <=? NumSuccessors (config r)) &&
            (NumSuccessors (config r) <=? Z.of_nat (length (replicate (S k) None))));
    [|done].
  cbn [Z.leb Z.compare]. cbn [fst snd].
  pose proof (assignFrom_returns_or_panics
                (take (Z.to_nat (NumSuccessors (config r))) (replicate (S k) None))
                (successors vn) 0) as Hfuel.
  destruct (assignFrom (successors vn) 0 _) as [l| |]; [|reflexivity|done].
  destruct (Z.to_nat (NumSuccessors (config r))); reflexivity.
Qed.

(** X17: when the seed's [FindSuccessors] returns an error, [join] and
    [joinNew] return that error and leave the joining vnode as it was.  When
    the seed has no successor at all (a ring of one vnode), its answer holds
    nil entries only: [join] then stores nil in [successors[0]] and returns
    the error "no successors found", while [joinNew] panics. *)
Theorem join_failure_paths (r : Ring) (vn seed : localVnode) (w : World) :
  (forall found jumps lookups err w1,
      FindSuccessors BetweenRightIncl closestPreceeding randSource r seed
        1 (VId (self vn)) w = Ret ((found, jumps, lookups, Some err), w1) ->
      join BetweenRightIncl closestPreceeding randSource r vn seed w =
        Ret ((vn, (None, Some err)), w1)) /\
  (forall found jumps lookups err w1,
      FindSuccessors BetweenRightIncl closestPreceeding randSource r seed
        (NumSuccessors (config r)) (VId (self vn)) w =
        Ret ((found, jumps, lookups, Some err), w1) ->
      joinNew BetweenRightIncl closestPreceeding randSource r vn seed w =
        Ret ((vn, (None, Some err)), w1)) /\
  (forall k,
      successors seed = replicate (S k) None ->
      joinNew BetweenRightIncl closestPreceeding randSource r vn seed w = Panic /\
      ((0 < length (successors vn))%nat ->
       exists w1,
         join BetweenRightIncl closestPreceeding randSource r vn seed w =
           Ret ((set_successors vn (None :: drop 1 (successors vn)),
                 (None, Some ErrNoSuccessorsFound)), w1))).
Proof.
  split; [|split].
  - intros found jumps lookups err w1 Hf. unfold join, mbind'. by rewrite Hf.
  - intros found jumps lookups err w1 Hf. unfold joinNew, mbind'. by rewrite Hf.
  - intros k Hs. split; [by eapply joinNew_seed_without_successor|].
    intros Hlen. unfold join, mbind'.
    rewrite (FindSuccessors_no_successor _ _ _ r seed k _ w Hs).
    cbn [fst snd]. unfold lift. cbn [slot lookup list_lookup].
    rewrite store_in_range by lia.
    destruct (successors vn) as [|x l]; [simpl in Hlen; lia|].
    eexists. reflexivity.
Qed.

End JoinFailures.

Lemma join_failure_paths_witness :
  joinNew SpecModel.BetweenRightIncl SpecModel.closestPreceeding
    SpecModel.randZero (Examples.ringOf 2 []) Examples.joiner
    (Examples.local Examples.vA [None; None]) [] = Panic /\
  exists w1,
    join SpecModel.BetweenRightIncl SpecModel.closestPreceeding
      SpecModel.randZero (Examples.ringOf 2 []) Examples.joiner
      (Examples.local Examples.vA [None; None]) [] =
      Ret ((set_successors Examples.joiner [None; None],
            (None, Some ErrNoSuccessorsFound)), w1).
Proof.
  destruct (proj2 (proj2 (join_failure_paths SpecModel.BetweenRightIncl
              SpecModel.closestPreceeding SpecModel.randZero
              (Examples.ringOf 2 []) Examples.joiner
              (Examples.local Examples.vA [None; None]) [])) 1%nat eq_refl)
    as [Hnew Hold].
  split; [exact Hnew|]. apply Hold. simpl. lia.
Defined.

(** ** checkNewSuccessor: the other paths *)

Section CheckNewSuccessorPaths.
Variable Between : Id -> Id -> Id -> bool.
Variable r : Ring.

Lemma copy_same_length {A} (dst src : list A) :
  length src = length dst -> copy dst src = src.
Proof.
  intros H. unfold copy. rewrite H, drop_all, app_nil_r.
  apply take_ge. lia.
Qed.

(** X18: [checkNewSuccessor] on a vnode whose first successor answers
    [GetPredecessor].  If the successor reports no predecessor, or one that
    is not between the vnode and the successor, nothing changes.  If it
    reports a predecessor [p] in between, [p] replaces [successors[0]] at
    once; then [p] is asked for [NumSuccessors - 1] successors: if that call
    fails the error is returned with [p] already in place and the other
    slots untouched, otherwise the first [NumSuccessors - 1] entries of the
    answer overwrite the slots behind [p]. *)
Theorem checkNewSuccessor_reachable_successor (fuel : nat) (vn : localVnode)
    (s : Vnode) (tail : list (option Vnode)) (w : World) :
  successors vn = Some s :: tail ->
  (forall maybe_suc,
      tr_GetPredecessor (transport r) w (Some s) = Ret (maybe_suc, None) ->
      match maybe_suc with
      | Some p => Between (VId (self vn)) (VId s) (VId p) = false
      | None => True
      end ->
      checkNewSuccessor Between (S fuel) r vn w =
        Ret ((vn, None), w ++ [EvGetPredecessor (Some s)])) /\
  (forall p answer jumps lookups ferr,
      tr_GetPredecessor (transport r) w (Some s) = Ret (Some p, None) ->
      Between (VId (self vn)) (VId s) (VId p) = true ->
      tr_FindSuccessors (transport r) (w ++ [EvGetPredecessor (Some s)])
        (Some p) (NumSuccessors (config r) - 1) (VId p) =
        Ret (answer, jumps, lookups, ferr) ->
      match ferr with
      | Some e =>
          checkNewSuccessor Between (S fuel) r vn w =
            Ret ((set_successors vn (Some p :: tail), Some e),
                 w ++ [EvGetPredecessor (Some s);
                       EvFindSuccessors (Some p) (NumSuccessors (config r) - 1)
                         (VId p)])
      | None =>
          0 <= NumSuccessors (config r) - 1 <= Z.of_nat (length answer) ->
          checkNewSuccessor Between (S fuel) r vn w =
            Ret ((set_successors vn
                    (Some p :: copy tail
                                 (take (Z.to_nat (NumSuccessors (config r) - 1))
                                    answer)), None),
                 w ++ [EvGetPredecessor (Some s);
                       EvFindSuccessors (Some p) (NumSuccessors (config r) - 1)
                         (VId p)]) /\
          (length tail = Z.to_nat (NumSuccessors (config r) - 1) ->
           copy tail (take (Z.to_nat (NumSuccessors (config r) - 1)) answer) =
             take (Z.to_nat (NumSuccessors (config r) - 1)) answer)
      end).
Proof.
  intros Hs. split.
  - intros maybe_suc Hgp Hno.
    cbn [checkNewSuccessor]. unfold mbind', lift, call, mret.
    rewrite Hs. cbn [slot lookup list_lookup]. rewrite Hgp. cbn [snd fst].
    destruct maybe_suc as [p|]; [|done]. by rewrite Hno.
  - intros p answer jumps lookups ferr Hgp Hbetween Hfs.
    cbn [checkNewSuccessor]. unfold mbind', lift, call, mret.
    rewrite Hs. cbn [slot lookup list_lookup]. rewrite Hgp. cbn [snd fst].
    rewrite Hbetween. unfold store. cbn [length Nat.ltb Nat.leb].
    rewrite Hfs. cbn [snd fst].
    destruct ferr as [e|].
    + simpl. by rewrite <- app_assoc.
    + intros Hrange. split.
      * unfold slice_to.
        assert ((0 <=? NumSuccessors (config r) - 1) &&
                (NumSuccessors (config r) - 1 <=? Z.of_nat (length answer)) = true)
          as -> by (apply andb_true_iff; split; apply Z.leb_le; lia).
        simpl. by rewrite <- app_assoc.
      * intros Hlen. apply copy_same_length. rewrite length_take. lia.
Qed.

Lemma successorWalk_dead_then_live (known : nat) (l0 : list (option Vnode))
    (j : nat) (x : option Vnode) :
  (known <= length l0)%nat -> (j < known)%nat ->
  (forall e w, e ∈ take j l0 ->
     exists pe, tr_Ping (transport r) w e = Ret (false, pe)) ->
  l0 !! j = Some x ->
  (forall w, exists pe, tr_Ping (transport r) w x = Ret (true, pe)) ->
  forall (d i todo : nat) (vn : localVnode) (w : World),
    (i + d = j)%nat -> (i + todo = known)%nat ->
    successors vn =
      drop i (take known l0) ++ replicate (length l0 - known + i) None ->
    successorWalk r known todo i vn w =
      Ret ((set_successors vn
              (drop j (take known l0) ++
               replicate (length l0 - known + j) None), FoundLive),
           w ++ map EvPing (drop i (take (S j) l0))).
Proof.
  intros Hlen Hj Hdead Hx Hlive d.
  assert (Hxk : take known l0 !! j = Some x) by (by rewrite lookup_take_lt).
  induction d as [|d IH]; intros i todo vn w Hi Htodo Hs.
  - rewrite Nat.add_0_r in Hi. subst i.
    destruct todo as [|todo]; [lia|].
    pose proof (drop_S _ _ _ Hxk) as Hdrop.
    destruct (Hlive w) as [pe Hping].
    cbn [successorWalk]. unfold mbind', lift, call, mret.
    rewrite Hs, Hdrop. cbn [app slot lookup list_lookup].
    rewrite Hping. cbn [fst negb].
    rewrite app_comm_cons, <- Hdrop, <- Hs, set_successors_same.
    rewrite (take_S_r _ _ _ Hx), drop_app_length'; [done|].
    rewrite length_take. apply lookup_lt_Some in Hx. lia.
  - destruct todo as [|todo]; [lia|].
    assert (Hi' : (i < length (take known l0))%nat) by (rewrite length_take; lia).
    destruct (lookup_lt_is_Some_2 _ _ Hi') as [y Hy].
    pose proof (drop_S _ _ _ Hy) as Hdrop.
    assert (Hyj : take j l0 !! i = Some y).
    { rewrite lookup_take_lt in Hy by lia. by rewrite lookup_take_lt by lia. }
    destruct (Hdead y w (list_elem_of_lookup_2 _ _ _ Hyj)) as [pe Hping].
    cbn [successorWalk]. unfold mbind', lift, call, mret.
    rewrite Hs, Hdrop. cbn [app slot lookup list_lookup].
    rewrite Hping. cbn [fst negb].
    assert ((i + 1 =? known)%nat = false) as -> by (apply Nat.eqb_neq; lia).
    set (front := drop (S i) (take known l0)).
    assert (Hfront : length front = (known - 1 - i)%nat)
      by (unfold front; rewrite length_drop, length_take; lia).
    rewrite <- Hfront.
    rewrite store_in_range
      by (rewrite length_copy; simpl; rewrite length_app; lia).
    rewrite shift_clear.
    rewrite (IH (S i) todo _ (w ++ [EvPing y])); [|lia|lia|].
    + rewrite set_successors_twice. do 2 f_equal.
      rewrite <- app_assoc. simpl. do 2 f_equal.
      assert (Hy' : take (S j) l0 !! i = Some y).
      { rewrite lookup_take_lt in Hy by lia. by rewrite lookup_take_lt by lia. }
      by rewrite (drop_S _ _ _ Hy').
    + cbn [successors set_successors]. fold front. do 2 f_equal. lia.
Qed.

Lemma known_prefix (vn : localVnode) :
  successors vn =
    take (knownSuccessors vn) (successors vn) ++
    replicate (length (successors vn) - knownSuccessors vn) None /\
  (knownSuccessors vn <= length (successors vn))%nat.
Proof.
  destruct (knownSuccessors_spec vn) as [[-> Hall]|(k & v & -> & Hk & Hshape)].
  - rewrite take_0, Nat.sub_0_r. simpl. split; [|lia].
    apply list_eq. intros i. rewrite Forall_forall in Hall.
    destruct (successors vn !! i) as [x|] eqn:E.
    + rewrite (Hall x (list_elem_of_lookup_2 _ _ _ E)).
      symmetry. apply lookup_replicate. split; [done|]. by eapply lookup_lt_Some.
    + symmetry. apply lookup_ge_None. rewrite length_replicate.
      by apply lookup_ge_None.
  - pose proof (lookup_lt_Some _ _ _ Hk) as Hlt. split; [|lia].
    rewrite (take_S_r _ _ _ Hk), <- app_assoc. exact Hshape.
Qed.

(** X19: the walk past dead successors.  When [GetPredecessor] on
    [successors[0]] fails, more than one successor is known, the first [j]
    entries of the list ping dead and entry [j], still a known one, pings
    alive, [checkNewSuccessor] shifts the list left by [j], fills the end
    with nil, and starts over on the shifted list. *)
Theorem checkNewSuccessor_skips_dead (fuel : nat) (vn : localVnode) (s : Vnode)
    (maybe_suc : option Vnode) (err : error) (j : nat) (x : option Vnode)
    (w : World) :
  successors vn !! 0%nat = Some (Some s) ->
  tr_GetPredecessor (transport r) w (Some s) = Ret (maybe_suc, Some err) ->
  (1 < knownSuccessors vn)%nat -> (j < knownSuccessors vn)%nat ->
  (forall e w', e ∈ take j (successors vn) ->
     exists pe, tr_Ping (transport r) w' e = Ret (false, pe)) ->
  successors vn !! j = Some x ->
  (forall w', exists pe, tr_Ping (transport r) w' x = Ret (true, pe)) ->
  checkNewSuccessor Between (S fuel) r vn w =
    checkNewSuccessor Between fuel r
      (set_successors vn (drop j (successors vn) ++ replicate j None))
      (w ++ EvGetPredecessor (Some s) ::
            map EvPing (take (S j) (successors vn))).
Proof.
  intros Hhead Hgp Hknown Hj Hdead Hx Hlive.
  destruct (known_prefix vn) as [Hshape Hkl].
  cbn [checkNewSuccessor]. unfold mbind', lift, call.
  rewrite (slot_lookup _ _ _ Hhead), Hgp. cbn [snd fst].
  assert ((1 <? knownSuccessors vn)%nat = true) as -> by (by apply Nat.ltb_lt).
  rewrite (successorWalk_dead_then_live (knownSuccessors vn) (successors vn)
             j x Hkl Hj Hdead Hx Hlive j 0);
    [| lia | lia | by rewrite drop_0, Nat.add_0_r].
  cbn [snd fst]. rewrite drop_0, <- app_assoc. simpl.
  do 2 f_equal.
  rewrite Hshape at 3.
  rewrite drop_app_le by (rewrite length_take; lia).
  rewrite <- app_assoc, <- replicate_add. done.
Qed.

(** X20: [checkNewSuccessor] does not terminate while [successors[0]]
    answers every ping "alive", fails every [GetPredecessor], and more than
    one successor is known: the walk finds the live head at once and jumps
    back to the call that failed.  No amount of fuel lets the model
    return. *)
Theorem checkNewSuccessor_spins_on_live_head (vn : localVnode) (s : Vnode) :
  successors vn !! 0%nat = Some (Some s) ->
  (1 < knownSuccessors vn)%nat ->
  (forall w, exists maybe_suc err,
      tr_GetPredecessor (transport r) w (Some s) = Ret (maybe_suc, Some err)) ->
  (forall w, exists pe, tr_Ping (transport r) w (Some s) = Ret (true, pe)) ->
  forall (fuel : nat) (w : World),
    checkNewSuccessor Between fuel r vn w = OutOfFuel.
Proof.
  intros Hhead Hknown Hgp Hlive fuel.
  induction fuel as [|fuel IH]; intros w; [done|].
  destruct (Hgp w) as (maybe_suc & err & Hg).
  destruct (Hlive (w ++ [EvGetPredecessor (Some s)])) as [pe Hp].
  cbn [checkNewSuccessor]. unfold mbind', lift, call.
  rewrite (slot_lookup _ _ _ Hhead), Hg. cbn [snd fst].
  assert ((1 <? knownSuccessors vn)%nat = true) as -> by (by apply Nat.ltb_lt).
  destruct (knownSuccessors vn) as [|known]; [lia|].
  cbn [successorWalk]. unfold mbind', lift, call, mret.
  rewrite (slot_lookup _ _ _ Hhead), Hp. cbn [fst snd negb].
  apply IH.
Qed.

End CheckNewSuccessorPaths.

Lemma checkNewSuccessor_reachable_successor_witness :
  checkNewSuccessor SpecModel.Between 1
    (MoreExamples.scriptedRing 2
       (MoreExamples.scripted (fun _ => true) (Some (Some Examples.vB))
          [Some Examples.vC; Some Examples.vD]))
    Examples.seed [] =
    Ret ((set_successors Examples.seed [Some Examples.vB; Some Examples.vC], None),
         [EvGetPredecessor (Some Examples.vC);
          EvFindSuccessors (Some Examples.vB) 1 [x02]]).
Proof.
  refine (proj1 (proj2 (checkNewSuccessor_reachable_successor SpecModel.Between
            (MoreExamples.scriptedRing 2
               (MoreExamples.scripted (fun _ => true) (Some (Some Examples.vB))
                  [Some Examples.vC; Some Examples.vD]))
            0 Examples.seed Examples.vC [Some Examples.vD] [] eq_refl)
          Examples.vB [Some Examples.vC; Some Examples.vD] 0 0 None
          eq_refl eq_refl eq_refl _)).
  simpl. lia.
Defined.

Lemma checkNewSuccessor_skips_dead_witness :
  checkNewSuccessor SpecModel.Between 1
    (MoreExamples.scriptedRing 3
       (MoreExamples.scripted MoreExamples.allButB None []))
    (Examples.local Examples.vA
       [Some Examples.vB; Some Examples.vC; Some Examples.vD]) [] =
  checkNewSuccessor SpecModel.Between 0
    (MoreExamples.scriptedRing 3
       (MoreExamples.scripted MoreExamples.allButB None []))
    (Examples.local Examples.vA [Some Examples.vC; Some Examples.vD; None])
    [EvGetPredecessor (Some Examples.vB); EvPing (Some Examples.vB);
     EvPing (Some Examples.vC)].
Proof.
  apply (checkNewSuccessor_skips_dead SpecModel.Between
           (MoreExamples.scriptedRing 3
              (MoreExamples.scripted MoreExamples.allButB None []))
           0 (Examples.local Examples.vA
                [Some Examples.vB; Some Examples.vC; Some Examples.vD])
           Examples.vB None (ErrTransport "unreachable") 1
           (Some Examples.vC) []).
  - reflexivity.
  - reflexivity.
  - vm_compute. lia.
  - vm_compute. lia.
  - intros e w' He. exists None.
    apply list_elem_of_In in He. simpl in He.
    destruct He as [<-|[]]. reflexivity.
  - reflexivity.
  - intros w'. exists None. reflexivity.
Defined.

Lemma checkNewSuccessor_spins_on_live_head_witness :
  checkNewSuccessor SpecModel.Between 5
    (MoreExamples.scriptedRing 2
       (MoreExamples.scripted (fun _ => true) None []))
    Examples.seed [] = OutOfFuel.
Proof.
  apply (checkNewSuccessor_spins_on_live_head SpecModel.Between
           (MoreExamples.scriptedRing 2
              (MoreExamples.scripted (fun _ => true) None []))
           Examples.seed Examples.vC).
  - reflexivity.
  - vm_compute. lia.
  - intros w. exists None, (ErrTransport "unreachable"). reflexivity.
  - intros w. exists None. reflexivity.
Defined.

(** ** The query generator *)

Section QueryLaws.
Variable randSource : World -> Z.

Lemma length_string_of_list_ascii (l : list ascii) :
  String.length (string_of_list_ascii l) = length l.
Proof. induction l as [|c l IH]; simpl; congruence. Qed.

Lemma letterRunes_length : Z.of_nat (length letterRunes) = 52.
Proof. reflexivity. Qed.

Lemma RandStringRunes_loop_spec (todo : nat) :
  forall (b : list ascii) (i : nat) (w : World),
    (i + todo = length b)%nat ->
    (forall c, c ∈ take i b -> c ∈ letterRunes) ->
    exists b',
      RandStringRunes_loop randSource todo b i w =
        Ret (b', w ++ replicate todo (EvRand 52)) /\
      length b' = length b /\
      (forall c, c ∈ b' -> c ∈ letterRunes).
Proof.
  induction todo as [|todo IH]; intros b i w Hi Hpre.
  - exists b. simpl. unfold mret. rewrite app_nil_r.
    split; [done|split; [done|]]. intros c Hc. apply Hpre.
    by rewrite take_ge by lia.
  - cbn [RandStringRunes_loop]. unfold mbind', Intn, lift.
    rewrite letterRunes_length. cbn [Z.leb Z.compare].
    pose proof (Z.mod_pos_bound (randSource w) 52 ltac:(lia)) as Hx.
    assert (Hlt : (Z.to_nat (randSource w mod 52) < length letterRunes)%nat)
      by (pose proof letterRunes_length; lia).
    destruct (lookup_lt_is_Some_2 _ _ Hlt) as [c Hc].
    rewrite (slot_lookup _ _ _ Hc), store_in_range by lia.
    destruct (IH (<[i := c]> b) (S i) (w ++ [EvRand 52])) as (b' & Hrun & Hlen & Hall).
    + rewrite length_insert. lia.
    + intros c' Hc'.
      assert (Hib : (i < length b)%nat) by lia.
      destruct (lookup_lt_is_Some_2 _ _ Hib) as [old Hold].
      assert (<[i := c]> b !! i = Some c) as Hnew
        by (by apply list_lookup_insert_eq).
      rewrite (take_S_r _ _ _ Hnew), take_insert_ge in Hc' by lia.
      apply elem_of_app in Hc' as [Hc'|Hc']; [by apply Hpre|].
      apply list_elem_of_singleton in Hc' as ->.
      by eapply list_elem_of_lookup_2.
    + exists b'. rewrite Hrun, <- app_assoc.
      rewrite length_insert in Hlen. done.
Qed.

Lemma RandStringRunes_spec (n : Z) (w : World) :
  0 <= n ->
  exists q,
    RandStringRunes randSource n w =
      Ret (q, w ++ replicate (Z.to_nat n) (EvRand 52)) /\
    String.length q = Z.to_nat n /\
    (forall c, c ∈ list_ascii_of_string q -> c ∈ letterRunes).
Proof.
  intros Hn. unfold RandStringRunes, mbind', lift, make, mret.
  assert ((n <? 0) = false) as -> by lia.
  rewrite length_replicate.
  destruct (RandStringRunes_loop_spec (Z.to_nat n)
              (replicate (Z.to_nat n) "000"%char) 0 w)
    as (b' & Hrun & Hlen & Hall).
  - rewrite length_replicate. lia.
  - intros c Hc. rewrite take_0 in Hc. by apply elem_of_nil in Hc.
  - rewrite Hrun. exists (string_of_list_ascii b').
    rewrite length_string_of_list_ascii, list_ascii_of_string_of_list_ascii.
    rewrite length_replicate in Hlen. done.
Qed.

Lemma generateQueries_loop_spec (todo : nat) :
  forall (queries : list string) (w : World),
    exists qs,
      generateQueries_loop randSource todo queries w =
        Ret (queries ++ qs, w ++ replicate (8 * todo) (EvRand 52)) /\
      length qs = todo /\
      (forall q, q ∈ qs ->
         String.length q = 8%nat /\
         forall c, c ∈ list_ascii_of_string q -> c ∈ letterRunes).
Proof.
  induction todo as [|todo IH]; intros queries w.
  - exists []. simpl. unfold mret. rewrite !app_nil_r.
    split; [done|split; [done|]]. intros q Hq. by apply elem_of_nil in Hq.
  - cbn [generateQueries_loop]. unfold mbind'.
    destruct (RandStringRunes_spec 8 w ltac:(lia)) as (q & Hrun & Hlen & Hall).
    rewrite Hrun.
    destruct (IH (queries ++ [q]) (w ++ replicate (Z.to_nat 8) (EvRand 52)))
      as (qs & Hrest & Hcount & Hqs).
    exists (q :: qs). rewrite Hrest, <- !app_assoc. split; [|split].
    + rewrite <- replicate_add.
      replace (Z.to_nat 8 + 8 * todo)%nat with (8 * S todo)%nat by lia.
      done.
    + simpl. lia.
    + intros q' Hq'. apply elem_of_cons in Hq' as [->|Hq']; [|by apply Hqs].
      split; [exact Hlen|exact Hall].
Qed.

(** X21: [generateQueries(num)] returns [num] strings (none for a negative
    [num]); each has eight characters, all of them ASCII letters, and the
    random source is read eight times per string, always with bound 52.
    [RandStringRunes] itself panics on a negative length. *)
Theorem generateQueries_eight_letters (num : Z) (w : World) :
  (exists qs,
     generateQueries randSource num w =
       Ret (qs, w ++ replicate (8 * Z.to_nat num) (EvRand 52)) /\
     length qs = Z.to_nat num /\
     (forall q, q ∈ qs ->
        String.length q = 8%nat /\
        forall c, c ∈ list_ascii_of_string q -> c ∈ letterRunes)) /\
  (forall n, n < 0 -> RandStringRunes randSource n w = Panic).
Proof.
  split.
  - destruct (generateQueries_loop_spec (Z.to_nat num) [] w) as (qs & H).
    exists qs. exact H.
  - intros n Hn. unfold RandStringRunes, mbind', lift, make.
    by assert ((n <? 0) = true) as -> by lia.
Qed.

End QueryLaws.

(** ** Ring.init *)

Section RingInit.

Lemma insertVnode_Permutation (x : localVnode) (l : list localVnode) :
  insertVnode x l ≡ₚ x :: l.
Proof.
  induction l as [|y l IH]; [done|]. simpl.
  destruct (Less y x); [|done].
  rewrite IH. apply Permutation_swap.
Qed.

Lemma sortVnodes_Permutation (l : list localVnode) : sortVnodes l ≡ₚ l.
Proof.
  induction l as [|x l IH]; [done|]. simpl.
  by rewrite insertVnode_Permutation, IH.
Qed.

Lemma Less_false_trans (a b c : localVnode) :
  Less b a = false -> Less c b = false -> Less c a = false.
Proof.
  unfold Less. intros Hba Hcb.
  destruct (bytes_Compare (VId (self c)) (VId (self a))) eqn:Hca; [done| |done].
  destruct (bytes_Compare (VId (self c)) (VId (self b))) eqn:E; [|done|].
  - apply bytes_Compare_eq in E. rewrite <- E, Hca in Hba. done.
  - assert (bytes_Compare (VId (self b)) (VId (self c)) = Lt) as Hbc
      by (by rewrite (bytes_Compare_antisym (VId (self c))), E).
    by rewrite (bytes_Compare_lt_trans _ _ _ Hbc Hca) in Hba.
Qed.

Lemma Less_true_false (a b : localVnode) : Less a b = true -> Less b a = false.
Proof.
  unfold Less. rewrite (bytes_Compare_antisym (VId (self a)) (VId (self b))).
  by destruct (bytes_Compare (VId (self a)) (VId (self b))).
Qed.

(** Ascending: no vnode is [Less] than one before it. *)
Lemma insertVnode_ascending (x : localVnode) (l : list localVnode) :
  StronglySorted (fun a b => Less b a = false) l ->
  StronglySorted (fun a b => Less b a = false) (insertVnode x l).
Proof.
  induction l as [|y l IH]; intros Hl; simpl.
  - repeat constructor.
  - apply StronglySorted_inv in Hl as [Hl Hy].
    destruct (Less y x) eqn:Hyx.
    + constructor; [by apply IH|].
      rewrite insertVnode_Permutation. constructor; [|done].
      by apply Less_true_false.
    + constructor; [by constructor|].
      constructor; [done|].
      eapply Forall_impl; [exact Hy|].
      intros z Hz. simpl in Hz. by eapply Less_false_trans.
Qed.

Lemma sortVnodes_ascending (l : list localVnode) :
  StronglySorted (fun a b => Less b a = false) (sortVnodes l).
Proof.
  induction l as [|x l IH]; [constructor|].
  simpl. by apply insertVnode_ascending.
Qed.

Lemma StronglySorted_lookup {A} (R : A -> A -> Prop) (l : list A) :
  StronglySorted R l ->
  forall i j a b, (i < j)%nat -> l !! i = Some a -> l !! j = Some b -> R a b.
Proof.
  induction 1 as [|x l Hl IH Hx]; intros i j a b Hij Ha Hb; [done|].
  destruct j as [|j]; [lia|]. destruct i as [|i].
  - simpl in Ha, Hb. injection Ha as <-.
    rewrite Forall_forall in Hx. apply Hx.
    by eapply list_elem_of_lookup_2.
  - simpl in Ha, Hb. eapply (IH i j); [lia|done..].
Qed.

Lemma initVnodes_spec (conf : Config) (count : nat) :
  0 <= NumSuccessors conf -> 0 <= hashBits conf ->
  forall (idx : Z) (w : World),
    initVnodes conf count idx w =
      Ret (map (freshVnode conf) (seqZ idx (Z.of_nat count)),
           w ++ map (fun i => EvRegister (self (freshVnode conf i)))
                  (seqZ idx (Z.of_nat count))).
Proof.
  intros Hs Hb. induction count as [|count IH]; intros idx w.
  - simpl. unfold mret. by rewrite app_nil_r.
  - rewrite seqZ_cons by lia.
    replace (Z.pred (Z.of_nat (S count))) with (Z.of_nat count) by lia.
    cbn [initVnodes]. unfold mbind', init, mbind', lift, make, emit, mret.
    assert ((NumSuccessors conf <? 0) = false) as -> by lia.
    assert ((hashBits conf <? 0) = false) as -> by lia.
    replace (idx + 1) with (Z.succ idx) by lia.
    rewrite IH. simpl. by rewrite <- app_assoc.
Qed.

Lemma bigEndian16_wraps (idx : Z) : bigEndian16 (idx + 65536) = bigEndian16 idx.
Proof.
  unfold bigEndian16.
  replace ((idx + 65536) mod 65536) with (idx mod 65536)
    by (symmetry; apply (Z_mod_plus_full idx 1 65536)).
  replace ((idx + 65536) mod 256) with (idx mod 256)
    by (symmetry; apply (Z_mod_plus_full idx 256 256)).
  done.
Qed.

Lemma Ring_init_spec (conf : Config) (trans : Transport) (w : World) :
  0 <= NumVnodes conf -> 0 <= NumSuccessors conf -> 0 <= hashBits conf ->
  exists r,
    Ring_init conf trans w =
      Ret (r, w ++ map (fun i => EvRegister (self (freshVnode conf i)))
                     (seqZ 0 (NumVnodes conf))) /\
    config r = conf /\ transport r = trans /\
    vnodes r ≡ₚ map (freshVnode conf) (seqZ 0 (NumVnodes conf)) /\
    (forall i j a b, (i < j)%nat ->
       vnodes r !! i = Some a -> vnodes r !! j = Some b ->
       Less b a = false).
Proof.
  intros Hv Hs Hb.
  unfold Ring_init, mbind', lift, make, mret.
  assert ((NumVnodes conf <? 0) = false) as -> by lia.
  rewrite (initVnodes_spec conf _ Hs Hb 0 w).
  rewrite Z2Nat.id by lia.
  eexists. split; [reflexivity|]. cbn [config transport vnodes].
  split; [done|]. split; [done|]. split.
  - apply sortVnodes_Permutation.
  - intros i j a b Hij Ha Hb'.
    exact (StronglySorted_lookup _ _ (sortVnodes_ascending _) i j a b Hij Ha Hb').
Qed.

(** X22: [Ring.init] with non-negative sizes registers the vnodes
    [0 .. NumVnodes-1] with the transport in index order, and leaves the
    ring holding exactly these vnodes, each in its initial state (nil
    successors and fingers, no predecessor), arranged in ascending order of
    identifier.  The identifier is computed from the index cut to sixteen
    bits, so two indices 65536 apart get the same identifier. *)
Theorem Ring_init_sorted_fresh (conf : Config) (trans : Transport) (w : World) :
  0 <= NumVnodes conf -> 0 <= NumSuccessors conf -> 0 <= hashBits conf ->
  (exists r,
     Ring_init conf trans w =
       Ret (r, w ++ map (fun i => EvRegister (self (freshVnode conf i)))
                      (seqZ 0 (NumVnodes conf))) /\
     config r = conf /\ transport r = trans /\
     vnodes r ≡ₚ map (freshVnode conf) (seqZ 0 (NumVnodes conf)) /\
     (forall i j a b, (i < j)%nat ->
        vnodes r !! i = Some a -> vnodes r !! j = Some b ->
        Less b a = false)) /\
  (forall idx, VId (self (freshVnode conf (idx + 65536))) =
               VId (self (freshVnode conf idx))).
Proof.
  intros Hv Hs Hb. split.
  - by apply Ring_init_spec.
  - intros idx. simpl. unfold genId. by rewrite bigEndian16_wraps.
Qed.

(** X27: [Create] for two or more vnodes whose generated identifiers are
    pairwise distinct, with at least one successor slot, returns a ring of
    [NumVnodes] vnodes that passes [CheckCorrectnessInvariants]: the fresh
    ring is one cycle through all its vnodes in the order of the array. *)
Theorem Create_passes_check (conf : Config) (trans : Transport) (w : World) :
  2 <= NumVnodes conf -> 1 <= NumSuccessors conf -> 0 <= HashSize conf ->
  NoDup (map (genId conf) (seqZ 0 (NumVnodes conf))) ->
  exists r w',
    Create conf trans w = Ret (r, w') /\
    Z.of_nat (length (vnodes r)) = NumVnodes conf /\
    CheckCorrectnessInvariants r = Ret true.
Proof.
  intros HN HR HH Hids.
  unfold Create, mbind', lift.
  match goal with
  | |- context [Ring_init ?c trans w] => set (conf' := c)
  end.
  destruct (Ring_init_spec conf' trans w) as (r0 & Hrun & Hc & _ & Hperm & _);
    [simpl; lia..|].
  rewrite Hrun.
  assert (Hlen : Z.of_nat (length (vnodes r0)) = NumVnodes conf).
  { rewrite Hperm, length_map, length_seqZ. simpl. lia. }
  destruct (setLocalSuccessors_invariants_from r0) as (r' & Hset & Hcheck).
  - lia.
  - by rewrite Hc.
  - unfold ringListOf. rewrite Hperm, map_map.
    apply NoDup_fmap_2_strong; [|apply NoDup_seqZ].
    intros i j Hi Hj Heq. unfold idString in Heq. simpl in Heq.
    apply hex_inj in Heq.
    assert (Hinj : forall l : list Z, NoDup (map (genId conf) l) ->
              forall a b, a ∈ l -> b ∈ l -> genId conf a = genId conf b -> a = b).
    { clear. induction l as [|x l IH]; intros Hnd a b Ha Hb Hab.
      - by apply elem_of_nil in Ha.
      - simpl in Hnd. apply NoDup_cons in Hnd as [Hx Hnd].
        apply elem_of_cons in Ha as [->|Ha]; apply elem_of_cons in Hb as [->|Hb].
        + done.
        + exfalso. apply Hx. rewrite Hab. by apply (list_elem_of_fmap_2 (genId conf)).
        + exfalso. apply Hx. rewrite <- Hab. by apply (list_elem_of_fmap_2 (genId conf)).
        + by apply IH. }
    by apply (Hinj _ Hids).
  - rewrite Forall_forall. intros vn Hvn. rewrite Hperm in Hvn.
    apply list_elem_of_fmap in Hvn as (i & -> & _). rewrite Hc. simpl.
    rewrite length_replicate. lia.
  - rewrite Hset. exists r', (w ++ map (fun i => EvRegister (self (freshVnode conf' i)))
                        (seqZ 0 (NumVnodes conf'))).
    split; [done|]. split; [|done].
    destruct (setLocalSuccessors_spec r0) as (r'' & Hset' & _ & _ & Hlen' & _).
    + rewrite Forall_forall. intros vn Hvn. rewrite Hperm in Hvn.
      apply list_elem_of_fmap in Hvn as (i & -> & _). rewrite Hc. simpl.
      rewrite length_replicate. lia.
    + rewrite Hset in Hset'. injection Hset' as <-. by rewrite Hlen'.
Qed.

End RingInit.

Lemma Ring_init_sorted_fresh_witness :
  exists r,
    Ring_init (Examples.conf 3 2) BlackholeTransport [] =
      Ret (r, [] ++ map (fun i => EvRegister (self (freshVnode (Examples.conf 3 2) i)))
                      (seqZ 0 3)) /\
    config r = Examples.conf 3 2 /\ transport r = BlackholeTransport /\
    vnodes r ≡ₚ map (freshVnode (Examples.conf 3 2)) (seqZ 0 3) /\
    (forall i j a b, (i < j)%nat ->
       vnodes r !! i = Some a -> vnodes r !! j = Some b ->
       Less b a = false).
Proof.
  refine (proj1 (Ring_init_sorted_fresh (Examples.conf 3 2) BlackholeTransport []
                   _ _ _)); simpl; lia.
Defined.

(** ** FindSuccessors: the four ways out *)

Section FindSuccessorsPaths.
Variable BetweenRightIncl : Id -> Id -> Id -> bool.
Variable closestPreceeding : localVnode -> Id -> list Vnode.
Variable randSource : World -> Z.
Variable r : Ring.

(** X23: when the key is the vnode's own id, or [successors[0]] is nil, or
    the key lies between the vnode and [successors[0]] (right end
    included), [FindSuccessors] answers from its own list without calling
    any peer: the first [n] entries, one jump.  It panics when [n] is
    negative or larger than the list. *)
Theorem FindSuccessors_answers_locally (vn : localVnode) (n : Z) (key : Id)
    (w : World) :
  bytes_Equal key (VId (self vn)) = true \/
  successors vn !! 0%nat = Some None \/
  (exists s, successors vn !! 0%nat = Some (Some s) /\
             BetweenRightIncl (VId (self vn)) (VId s) key = true) ->
  (0 <= n <= Z.of_nat (length (successors vn)) ->
   FindSuccessors BetweenRightIncl closestPreceeding randSource r vn n key w =
     Ret ((take (Z.to_nat n) (successors vn), 1,
           randSource (w ++ [EvHandleFindSuccessors (self vn) n key]) mod 3
             + NumSuccessors (config r) - 3, None),
          w ++ [EvHandleFindSuccessors (self vn) n key; EvRand 3])) /\
  (n < 0 \/ Z.of_nat (length (successors vn)) < n ->
   FindSuccessors BetweenRightIncl closestPreceeding randSource r vn n key w =
     Panic).
Proof.
  intros Hlocal.
  assert (FindSuccessors BetweenRightIncl closestPreceeding randSource r vn n key w =
          answerFromSuccessors randSource r vn n
            (w ++ [EvHandleFindSuccessors (self vn) n key])) as ->.
  { unfold FindSuccessors, mbind', emit, lift, mret.
    destruct Hlocal as [->|[H0|(s & H0 & Hb)]]; [done| |].
    - rewrite (slot_lookup _ _ _ H0).
      by destruct (bytes_Equal key (VId (self vn))).
    - rewrite (slot_lookup _ _ _ H0), Hb.
      by destruct (bytes_Equal key (VId (self vn))). }
  unfold answerFromSuccessors, mbind', lift, slice_to, Intn, mret.
  split.
  - intros Hn.
    assert ((0 <=? n) && (n <=? Z.of_nat (length (successors vn))) = true) as ->
      by (apply andb_true_iff; split; apply Z.leb_le; lia).
    cbn [Z.leb Z.compare]. by rewrite <- app_assoc.
  - intros Hn.
    assert ((0 <=? n) && (n <=? Z.of_nat (length (successors vn))) = false) as ->
      by (apply andb_false_iff; destruct Hn; [left|right]; apply Z.leb_gt; lia).
    done.
Qed.

Lemma tryPreceeding_all_fail (n : Z) (key : Id) (cands : list Vnode) :
  (forall c w', c ∈ cands ->
     exists res val fl e,
       tr_FindSuccessors (transport r) w' (Some c) n key =
         Ret (res, val, fl, Some e)) ->
  forall w,
    tryPreceeding randSource r n key cands w =
      Ret (None, w ++ map (fun c => EvFindSuccessors (Some c) n key) cands).
Proof.
  induction cands as [|c cands IH]; intros Hfail w.
  - simpl. unfold mret. by rewrite app_nil_r.
  - destruct (Hfail c w (list_elem_of_here _ _)) as (res & val & fl & e & Hc).
    cbn [tryPreceeding]. unfold mbind', call. rewrite Hc. cbn [snd].
    rewrite IH.
    + simpl. by rewrite <- app_assoc.
    + intros c' w' Hc'. apply Hfail. by apply list_elem_of_further.
Qed.

Lemma tryPreceeding_first_answer (n : Z) (key : Id)
    (pre post : list Vnode) (c : Vnode) (res : list (option Vnode))
    (val fl : Z) (w : World) :
  (forall c' w', c' ∈ pre ->
     exists res' val' fl' e,
       tr_FindSuccessors (transport r) w' (Some c') n key =
         Ret (res', val', fl', Some e)) ->
  tr_FindSuccessors (transport r)
    (w ++ map (fun c => EvFindSuccessors (Some c) n key) pre) (Some c) n key =
    Ret (res, val, fl, None) ->
  tryPreceeding randSource r n key (pre ++ c :: post) w =
    Ret (Some (res, 1 + val,
               (1 + val) *
               (randSource (w ++ map (fun c => EvFindSuccessors (Some c) n key)
                                   (pre ++ [c])) mod 3
                + NumSuccessors (config r) - 3)),
         w ++ map (fun c => EvFindSuccessors (Some c) n key) (pre ++ [c])
           ++ [EvRand 3]).
Proof.
  revert w. induction pre as [|p pre IH]; intros w Hfail Hc.
  - simpl in Hc. rewrite app_nil_r in Hc.
    cbn [app tryPreceeding]. unfold mbind', call, Intn, mret.
    rewrite Hc. cbn [snd fst Z.leb Z.compare]. simpl.
    by rewrite <- app_assoc.
  - destruct (Hfail p w (list_elem_of_here _ _)) as (res' & val' & fl' & e & Hp).
    cbn [app tryPreceeding]. unfold mbind', call. rewrite Hp. cbn [snd].
    rewrite IH.
    + simpl. rewrite <- !app_assoc. done.
    + intros c' w' Hc'. apply Hfail. by apply list_elem_of_further.
    + simpl in Hc. by rewrite <- app_assoc.
Qed.

Lemma FindSuccessors_remote (vn : localVnode) (s : Vnode) (n : Z) (key : Id)
    (w : World) :
  successors vn !! 0%nat = Some (Some s) ->
  bytes_Equal key (VId (self vn)) = false ->
  BetweenRightIncl (VId (self vn)) (VId s) key = false ->
  FindSuccessors BetweenRightIncl closestPreceeding randSource r vn n key w =
    (let* found := tryPreceeding randSource r n key (closestPreceeding vn key) in
     match found with
     | Some (res, jumps, lookups) => mret (res, jumps, lookups, None)
     | None =>
         let known := knownSuccessors vn in
         let* scanned := lift (scanSuccessors BetweenRightIncl vn n key
                                 (Z.to_nat (Z.of_nat known - n)) 1) in
         match scanned with
         | Some remain => mret (remain, 1, 0, None)
         | None =>
             mret ([], 0, 0,
                   Some (ErrExhausted (hex (VId (self vn))) (Z.of_nat known)))
         end
     end) (w ++ [EvHandleFindSuccessors (self vn) n key]).
Proof.
  intros H0 Hkey Hb.
  unfold FindSuccessors, mbind', emit, lift, mret.
  rewrite Hkey, (slot_lookup _ _ _ H0), Hb. reflexivity.
Qed.

(** X24: a key outside the vnode's own arc is forwarded.  The candidates of
    the closest-preceding iterator are asked in order; the first one that
    answers without error ends the search, its answer is returned with one
    jump added, and no later candidate is contacted. *)
Theorem FindSuccessors_forwards_to_first_answer (vn : localVnode) (s : Vnode)
    (n : Z) (key : Id) (pre post : list Vnode) (c : Vnode)
    (res : list (option Vnode)) (val fl : Z) (w : World) :
  successors vn !! 0%nat = Some (Some s) ->
  bytes_Equal key (VId (self vn)) = false ->
  BetweenRightIncl (VId (self vn)) (VId s) key = false ->
  closestPreceeding vn key = pre ++ c :: post ->
  (forall c' w', c' ∈ pre ->
     exists res' val' fl' e,
       tr_FindSuccessors (transport r) w' (Some c') n key =
         Ret (res', val', fl', Some e)) ->
  tr_FindSuccessors (transport r)
    (w ++ EvHandleFindSuccessors (self vn) n key ::
          map (fun c => EvFindSuccessors (Some c) n key) pre) (Some c) n key =
    Ret (res, val, fl, None) ->
  exists x,
    0 <= x < 3 /\
    FindSuccessors BetweenRightIncl closestPreceeding randSource r vn n key w =
      Ret ((res, 1 + val, (1 + val) * (x + NumSuccessors (config r) - 3), None),
           w ++ EvHandleFindSuccessors (self vn) n key ::
                map (fun c => EvFindSuccessors (Some c) n key) (pre ++ [c])
                ++ [EvRand 3]).
Proof.
  intros H0 Hkey Hb Hcands Hfail Hc.
  rewrite (FindSuccessors_remote vn s n key w H0 Hkey Hb).
  unfold mbind' at 1. rewrite Hcands.
  rewrite (tryPreceeding_first_answer n key pre post c res val fl _ Hfail)
    by (by rewrite <- app_assoc).
  eexists. split; [|unfold mret; rewrite <- !app_assoc; reflexivity].
  apply Z.mod_pos_bound. lia.
Qed.

(** X25: when every candidate fails and the vnode knows at most [n]
    successors, [FindSuccessors] gives up: each candidate has been asked
    once, in order, and the result is the error "Exhausted all preceeding
    nodes!" carrying the vnode's id and the number of known successors, with
    an empty list and zero jumps. *)
Theorem FindSuccessors_exhausted (vn : localVnode) (s : Vnode) (n : Z)
    (key : Id) (w : World) :
  successors vn !! 0%nat = Some (Some s) ->
  bytes_Equal key (VId (self vn)) = false ->
  BetweenRightIncl (VId (self vn)) (VId s) key = false ->
  (forall c w', c ∈ closestPreceeding vn key ->
     exists res val fl e,
       tr_FindSuccessors (transport r) w' (Some c) n key =
         Ret (res, val, fl, Some e)) ->
  Z.of_nat (knownSuccessors vn) <= n ->
  FindSuccessors BetweenRightIncl closestPreceeding randSource r vn n key w =
    Ret (([], 0, 0,
          Some (ErrExhausted (hex (VId (self vn)))
                  (Z.of_nat (knownSuccessors vn)))),
         w ++ EvHandleFindSuccessors (self vn) n key ::
              map (fun c => EvFindSuccessors (Some c) n key)
                (closestPreceeding vn key)).
Proof.
  intros H0 Hkey Hb Hfail Hknown.
  rewrite (FindSuccessors_remote vn s n key w H0 Hkey Hb).
  unfold mbind' at 1. rewrite (tryPreceeding_all_fail n key _ Hfail).
  replace (Z.to_nat (Z.of_nat (knownSuccessors vn) - n)) with 0%nat by lia.
  simpl. unfold mret. by rewrite <- app_assoc.
Qed.

Lemma scanSuccessors_finds (vn : localVnode) (n : Z) (key : Id) (i : nat)
    (si : Vnode) :
  0 <= n <= Z.of_nat (length (successors vn)) - Z.of_nat i ->
  successors vn !! i = Some (Some si) ->
  BetweenRightIncl (VId (self vn)) (VId si) key = true ->
  forall (d todo j : nat),
    (j + d = i)%nat -> (d < todo)%nat ->
    (forall k, (j <= k < i)%nat ->
       exists sk, successors vn !! k = Some (Some sk) /\
                  BetweenRightIncl (VId (self vn)) (VId sk) key = false) ->
    scanSuccessors BetweenRightIncl vn n key todo j =
      Ret (Some (take (Z.to_nat n) (drop i (successors vn)))).
Proof.
  intros Hn Hi Hb d.
  induction d as [|d IH]; intros todo j Hj Htodo Hbefore.
  - rewrite Nat.add_0_r in Hj. subst j.
    destruct todo as [|todo]; [lia|].
    cbn [scanSuccessors]. rewrite (slot_lookup _ _ _ Hi). cbn [obind].
    rewrite Hb. rewrite length_drop, Z.gtb_ltb.
    pose proof (lookup_lt_Some _ _ _ Hi) as Hlt.
    destruct (n <? Z.of_nat (length (successors vn) - i)) eqn:E.
    + unfold slice_to. rewrite length_drop.
      assert ((0 <=? n) && (n <=? Z.of_nat (length (successors vn) - i)) = true)
        as -> by (apply andb_true_iff; split; apply Z.leb_le; lia).
      done.
    + apply Z.ltb_ge in E.
      do 2 f_equal. symmetry. apply take_ge. rewrite length_drop. lia.
  - destruct todo as [|todo]; [lia|].
    destruct (Hbefore j ltac:(lia)) as (sk & Hk & Hbk).
    cbn [scanSuccessors]. rewrite (slot_lookup _ _ _ Hk). cbn [obind].
    rewrite Hbk. apply IH; [lia|lia|].
    intros k Hk'. apply Hbefore. lia.
Qed.

(** X26: the fallback scan of the vnode's own list.  When every candidate
    fails, the entries [1 .. known - n] are tried in order; at the first
    entry [i] whose arc contains the key the answer is the [n] entries from
    [i] on, with one jump and no finger lookups. *)
Theorem FindSuccessors_scans_own_list (vn : localVnode) (s si : Vnode) (n : Z)
    (key : Id) (i : nat) (w : World) :
  successors vn !! 0%nat = Some (Some s) ->
  bytes_Equal key (VId (self vn)) = false ->
  BetweenRightIncl (VId (self vn)) (VId s) key = false ->
  (forall c w', c ∈ closestPreceeding vn key ->
     exists res val fl e,
       tr_FindSuccessors (transport r) w' (Some c) n key =
         Ret (res, val, fl, Some e)) ->
  0 <= n -> (1 <= i)%nat ->
  Z.of_nat i <= Z.of_nat (knownSuccessors vn) - n ->
  (forall k, (1 <= k < i)%nat ->
     exists sk, successors vn !! k = Some (Some sk) /\
                BetweenRightIncl (VId (self vn)) (VId sk) key = false) ->
  successors vn !! i = Some (Some si) ->
  BetweenRightIncl (VId (self vn)) (VId si) key = true ->
  FindSuccessors BetweenRightIncl closestPreceeding randSource r vn n key w =
    Ret ((take (Z.to_nat n) (drop i (successors vn)), 1, 0, None),
         w ++ EvHandleFindSuccessors (self vn) n key ::
              map (fun c => EvFindSuccessors (Some c) n key)
                (closestPreceeding vn key)).
Proof.
  intros H0 Hkey Hb Hfail Hn Hi1 Hi Hbefore Hsi Hbi.
  destruct (known_prefix vn) as [_ Hkl].
  rewrite (FindSuccessors_remote vn s n key w H0 Hkey Hb).
  unfold mbind' at 1. rewrite (tryPreceeding_all_fail n key _ Hfail).
  cbn iota beta. unfold mbind', lift.
  rewrite (scanSuccessors_finds vn n key i si ltac:(lia) Hsi Hbi (i - 1)
             (Z.to_nat (Z.of_nat (knownSuccessors vn) - n)) 1);
    [| lia | lia | exact Hbefore].
  unfold mret. by rewrite <- app_assoc.
Qed.

End FindSuccessorsPaths.

Lemma FindSuccessors_forwards_to_first_answer_witness :
  exists x,
    0 <= x < 3 /\
    FindSuccessors SpecModel.BetweenRightIncl
      (fun _ _ => [Examples.vB; Examples.vC; Examples.vD]) SpecModel.randZero
      (MoreExamples.scriptedRing 2
         (MoreExamples.relay MoreExamples.allButB [Some Examples.vD]))
      (Examples.local Examples.vA [Some Examples.vB; Some Examples.vC])
      1 [x0d] [] =
      Ret (([Some Examples.vD], 1 + 2, (1 + 2) * (x + 2 - 3), None),
           [] ++ EvHandleFindSuccessors Examples.vA 1 [x0d] ::
                 map (fun c => EvFindSuccessors (Some c) 1 [x0d])
                   ([Examples.vB] ++ [Examples.vC])
                 ++ [EvRand 3]).
Proof.
  apply (FindSuccessors_forwards_to_first_answer SpecModel.BetweenRightIncl
           (fun _ _ => [Examples.vB; Examples.vC; Examples.vD]) SpecModel.randZero
           (MoreExamples.scriptedRing 2
              (MoreExamples.relay MoreExamples.allButB [Some Examples.vD]))
           (Examples.local Examples.vA [Some Examples.vB; Some Examples.vC])
           Examples.vB 1 [x0d] [Examples.vB] [Examples.vD] Examples.vC
           [Some Examples.vD] 2 0 []).
  - reflexivity.
  - reflexivity.
  - reflexivity.
  - reflexivity.
  - intros c' w' Hc'. apply list_elem_of_singleton in Hc' as ->.
    exists [], 0, 0, (ErrTransport "unreachable"). reflexivity.
  - reflexivity.
Defined.

Lemma FindSuccessors_answers_locally_witness :
  FindSuccessors SpecModel.BetweenRightIncl SpecModel.closestPreceeding
    SpecModel.randZero (Examples.ringOf 2 []) Examples.seed 1 [x02] [] =
    Ret ((take (Z.to_nat 1) (successors Examples.seed), 1,
          SpecModel.randZero ([] ++ [EvHandleFindSuccessors Examples.vA 1 [x02]])
            mod 3 + 2 - 3, None),
         [] ++ [EvHandleFindSuccessors Examples.vA 1 [x02]; EvRand 3]) /\
  FindSuccessors SpecModel.BetweenRightIncl SpecModel.closestPreceeding
    SpecModel.randZero (Examples.ringOf 2 []) Examples.seed 3 [x02] [] = Panic.
Proof.
  split.
  - refine (proj1 (FindSuccessors_answers_locally SpecModel.BetweenRightIncl
              SpecModel.closestPreceeding SpecModel.randZero
              (Examples.ringOf 2 []) Examples.seed 1 [x02] [] _) _).
    + right. right. exists Examples.vC. split; reflexivity.
    + simpl. lia.
  - refine (proj2 (FindSuccessors_answers_locally SpecModel.BetweenRightIncl
              SpecModel.closestPreceeding SpecModel.randZero
              (Examples.ringOf 2 []) Examples.seed 3 [x02] [] _) _).
    + right. right. exists Examples.vC. split; reflexivity.
    + right. simpl. lia.
Defined.

Lemma FindSuccessors_exhausted_witness :
  FindSuccessors SpecModel.BetweenRightIncl
    (fun _ _ => [Examples.vB; Examples.vC]) SpecModel.randZero
    (Examples.ringOf 2 [])
    (Examples.local Examples.vA [Some Examples.vB; Some Examples.vC])
    2 [x0d] [] =
    Ret (([], 0, 0, Some (ErrExhausted (hex [x01]) 2)),
         [EvHandleFindSuccessors Examples.vA 2 [x0d];
          EvFindSuccessors (Some Examples.vB) 2 [x0d];
          EvFindSuccessors (Some Examples.vC) 2 [x0d]]).
Proof.
  apply (FindSuccessors_exhausted SpecModel.BetweenRightIncl
           (fun _ _ => [Examples.vB; Examples.vC]) SpecModel.randZero
           (Examples.ringOf 2 [])
           (Examples.local Examples.vA [Some Examples.vB; Some Examples.vC])
           Examples.vB 2 [x0d] []).
  - reflexivity.
  - reflexivity.
  - reflexivity.
  - intros c w' _. exists [], 0, 0, (ErrBlackhole (hex (VId c))). reflexivity.
  - vm_compute. discriminate.
Defined.

Lemma FindSuccessors_scans_own_list_witness :
  FindSuccessors SpecModel.BetweenRightIncl
    (fun _ _ => [Examples.vB]) SpecModel.randZero
    (Examples.ringOf 3 [])
    (Examples.local Examples.vA
       [Some Examples.vB; Some Examples.vC; Some Examples.vD])
    1 [x03] [] =
    Ret (([Some Examples.vC], 1, 0, None),
         [EvHandleFindSuccessors Examples.vA 1 [x03];
          EvFindSuccessors (Some Examples.vB) 1 [x03]]).
Proof.
  apply (FindSuccessors_scans_own_list SpecModel.BetweenRightIncl
           (fun _ _ => [Examples.vB]) SpecModel.randZero
           (Examples.ringOf 3 [])
           (Examples.local Examples.vA
              [Some Examples.vB; Some Examples.vC; Some Examples.vD])
           Examples.vB Examples.vC 1 [x03] 1 []).
  - reflexivity.
  - reflexivity.
  - reflexivity.
  - intros c w' _. exists [], 0, 0, (ErrBlackhole (hex (VId c))). reflexivity.
  - lia.
  - lia.
  - vm_compute. discriminate.
  - intros k Hk. lia.
  - reflexivity.
  - reflexivity.
Defined.

Lemma Create_passes_check_witness :
  exists r w',
    Create (Examples.conf 3 2) BlackholeTransport [] = Ret (r, w') /\
    Z.of_nat (length (vnodes r)) = 3 /\
    CheckCorrectnessInvariants r = Ret true.
Proof.
  apply (Create_passes_check (Examples.conf 3 2) BlackholeTransport []).
  - simpl. lia.
  - simpl. lia.
  - simpl. lia.
  - vm_compute. repeat (apply NoDup_cons; split);
      [intros H%list_elem_of_In; simpl in H; intuition discriminate ..
      |apply NoDup_nil_2].
Defined.

(** ** The store, key by key *)

Section StorageFrame.
Import Storage.

(** X28: the store keeps its keys apart.  [Set] and [Delete] on one key
    leave what [Get] returns for every other key unchanged; a new store
    holds no key; a second [Set] on a key replaces the first value; and
    [Delete] of a key that is not there changes nothing and reports no
    error. *)
Theorem dataStore_keys_independent (d : dataStore) (k k' v v' : string) :
  k <> k' ->
  Get (fst (Set_ d k v)) k' = Get d k' /\
  Get (fst (Delete d k)) k' = Get d k' /\
  Get NewDataStore k = inr ErrKeyNotFound /\
  Get (fst (Set_ (fst (Set_ d k v)) k v')) k = inl (bytes_of v') /\
  (Get d k = inr ErrKeyNotFound -> Delete d k = (d, None)).
Proof.
  intros Hk. unfold Get, Set_, Delete. simpl.
  split; [by rewrite lookup_insert_ne|].
  split; [by rewrite lookup_delete_ne|].
  split; [done|].
  split; [by rewrite lookup_insert_eq|].
  destruct d as [m]. simpl.
  destruct (m !! k) eqn:E; [done|]. intros _.
  by rewrite delete_id.
Qed.

End StorageFrame.

Lemma dataStore_keys_independent_witness :
  Storage.Get (fst (Storage.Set_ Storage.NewDataStore "a" "1")) "b" =
    Storage.Get Storage.NewDataStore "b" /\
  Storage.Get (fst (Storage.Delete Storage.NewDataStore "a")) "b" =
    Storage.Get Storage.NewDataStore "b" /\
  Storage.Get Storage.NewDataStore "a" = inr ErrKeyNotFound /\
  Storage.Get (fst (Storage.Set_ (fst (Storage.Set_ Storage.NewDataStore "a" "1"))
                      "a" "2")) "a" = inl (Storage.bytes_of "2") /\
  (Storage.Get Storage.NewDataStore "a" = inr ErrKeyNotFound ->
   Storage.Delete Storage.NewDataStore "a" = (Storage.NewDataStore, None)).
Proof.
  apply (dataStore_keys_independent Storage.NewDataStore "a" "b" "1" "2").
  discriminate.
Defined.
